(** * git_patch_repair: the patch planner / iterative repair engine

    A shallow embedding of [git_patch_repair.py] and the verification of its
    specification against it.

    Conventions of the model.
    - A Python [str] is a list of characters.  Characters are the code
      points U+0000..U+00FF (type [ascii]); on them Python's line
      boundaries, whitespace and decimal digits are the classes written out
      below.
    - A Python [int] that counts lines or is read from a header is a
      natural number ([nat], unbounded like Python's); the limit some
      interpreters put on the length of a numeral given to [int] is not
      modelled.
    - The module-level globals [ACTION_PLAN] and [CURRENT_ITERATION] are the
      two fields of [state]; every function that logs is a computation in
      the state monad [M].
    - A function that mutates its argument (a [Hunk] header, the hunk list
      of a [FileDiff]) returns the mutated object next to its result. *)

From Stdlib Require Import Bool Arith ZArith Lia Ascii String List Permutation.
From Stdlib Require Decimal DecimalNat.
Import ListNotations.

Set Implicit Arguments.

(* ================================================================== *)
(** ** Python strings *)
(* ================================================================== *)

Module PyStr.

Local Open Scope string_scope.
Local Open Scope list_scope.
Local Open Scope nat_scope.

Definition str := list ascii.

(** A string literal of the source. *)
Definition lit (s : string) : str := list_ascii_of_string s.

Definition LF : ascii := ascii_of_nat 10.
Definition CR : ascii := ascii_of_nat 13.

Definition code_in (c : ascii) (codes : list nat) : bool :=
  existsb (Nat.eqb (nat_of_ascii c)) codes.

(** The line boundaries of [str.splitlines] below U+0100:
    \n, \v, \f, \r, \x1c, \x1d, \x1e and \x85. *)
Definition is_linebreak (c : ascii) : bool :=
  code_in c [10; 11; 12; 13; 28; 29; 30; 133].

(** The whitespace of [str.isspace], hence of [str.strip] without
    argument, below U+0100. *)
Definition is_space (c : ascii) : bool :=
  code_in c [9; 10; 11; 12; 13; 28; 29; 30; 31; 32; 133; 160].

(** The decimal digits matched by [\d] below U+0100. *)
Definition is_digit (c : ascii) : bool :=
  (48 <=? nat_of_ascii c) && (nat_of_ascii c <=? 57).

Definition is_LF (c : ascii) : bool := Ascii.eqb c LF.
Definition is_CR (c : ascii) : bool := Ascii.eqb c CR.

Fixpoint str_eqb (a b : str) : bool :=
  match a, b with
  | [], [] => true
  | x :: a', y :: b' => Ascii.eqb x y && str_eqb a' b'
  | _, _ => false
  end.

(** [s.startswith(prefix)] *)
Fixpoint startswith (s prefix : str) {struct prefix} : bool :=
  match prefix, s with
  | [], _ => true
  | p :: prefix', c :: s' => Ascii.eqb c p && startswith s' prefix'
  | _ :: _, [] => false
  end.

Fixpoint dropwhile (p : ascii -> bool) (s : str) : str :=
  match s with
  | [] => []
  | c :: s' => if p c then dropwhile p s' else s
  end.

Fixpoint takewhile (p : ascii -> bool) (s : str) : str :=
  match s with
  | [] => []
  | c :: s' => if p c then c :: takewhile p s' else []
  end.

(** [s.rstrip(chars)]: the characters of the class are removed from the
    right end. *)
Definition rstrip_with (p : ascii -> bool) (s : str) : str :=
  rev (dropwhile p (rev s)).

Definition lstrip_with (p : ascii -> bool) (s : str) : str :=
  dropwhile p s.

(** [s.rstrip()] *)
Definition rstrip (s : str) : str := rstrip_with is_space s.

(** [s.rstrip("\n")] *)
Definition rstrip_LF (s : str) : str := rstrip_with is_LF s.

(** [s.strip()] *)
Definition strip (s : str) : str := lstrip_with is_space (rstrip s).

(** [s.splitlines(keepends=True)], reading left to right; [cur] is the
    line being read.  A "\r\n" pair is one boundary. *)
Fixpoint splitlines_from (cur : str) (s : str) : list str :=
  match s with
  | [] => match cur with [] => [] | _ :: _ => [cur] end
  | c :: s' =>
      if is_CR c then
        match s' with
        | d :: s'' =>
            if is_LF d then (cur ++ [c; d]) :: splitlines_from [] s''
            else (cur ++ [c]) :: splitlines_from [] s'
        | [] => [cur ++ [c]]
        end
      else if is_linebreak c then (cur ++ [c]) :: splitlines_from [] s'
      else splitlines_from (cur ++ [c]) s'
  end.

Definition splitlines (s : str) : list str := splitlines_from [] s.

(** ["".join(parts)] *)
Definition join (parts : list str) : str := concat parts.

(** [s.replace("\n", "\\n")] *)
Definition escape_newlines (s : str) : str :=
  flat_map (fun c => if is_LF c then lit "\n" else [c]) s.

(** [int(s)] on a string of decimal digits. *)
Definition digit_value (c : ascii) : nat := nat_of_ascii c - 48.

Definition int_of_digits (s : str) : nat :=
  fold_left (fun acc c => 10 * acc + digit_value c) s 0.

(** [str(n)] for a non-negative [int]. *)
Fixpoint chars_of_uint (d : Decimal.uint) : str :=
  match d with
  | Decimal.Nil => []
  | Decimal.D0 d' => ascii_of_nat 48 :: chars_of_uint d'
  | Decimal.D1 d' => ascii_of_nat 49 :: chars_of_uint d'
  | Decimal.D2 d' => ascii_of_nat 50 :: chars_of_uint d'
  | Decimal.D3 d' => ascii_of_nat 51 :: chars_of_uint d'
  | Decimal.D4 d' => ascii_of_nat 52 :: chars_of_uint d'
  | Decimal.D5 d' => ascii_of_nat 53 :: chars_of_uint d'
  | Decimal.D6 d' => ascii_of_nat 54 :: chars_of_uint d'
  | Decimal.D7 d' => ascii_of_nat 55 :: chars_of_uint d'
  | Decimal.D8 d' => ascii_of_nat 56 :: chars_of_uint d'
  | Decimal.D9 d' => ascii_of_nat 57 :: chars_of_uint d'
  end.

Definition str_of_int (n : nat) : str := chars_of_uint (Nat.to_uint n).

End PyStr.
Import PyStr.

(* ================================================================== *)
(** ** The action plan (event log) *)
(* ================================================================== *)

(** A value of the keyword arguments of [log]. *)
Inductive value : Type :=
| VInt (n : nat)
| VStr (s : str)
| VNone.

(** One entry of [ACTION_PLAN].  [data] is the [extra] dictionary in the
    order the keywords are written; the key is absent in Python exactly
    when the list is empty. *)
Record entry : Type := mkEntry {
  code : string;
  phase : string;
  message : string;
  iteration : nat;
  data : list (string * value)
}.

Record state : Type := mkState {
  ACTION_PLAN : list entry;
  CURRENT_ITERATION : nat
}.

Definition M (A : Type) : Type := state -> A * state.

Definition ret {A} (a : A) : M A := fun st => (a, st).

Definition bind {A B} (m : M A) (k : A -> M B) : M B :=
  fun st => let (a, st') := m st in k a st'.

Declare Scope py_scope.
Delimit Scope py_scope with py.
Notation "x <- m ;; k" := (bind m (fun x => k))
  (at level 61, m at next level, right associativity) : py_scope.
Notation "' pat <- m ;; k" := (bind m (fun x => match x with pat => k end))
  (at level 61, pat pattern, m at next level, right associativity) : py_scope.
Notation "m ;; k" := (bind m (fun _ => k))
  (at level 61, right associativity) : py_scope.
Local Open Scope string_scope.
Local Open Scope list_scope.
Local Open Scope nat_scope.
Local Open Scope py_scope.

Definition log (c p m : string) (extra : list (string * value)) : M unit :=
  fun st =>
    (tt, mkState (ACTION_PLAN st ++ [mkEntry c p m (CURRENT_ITERATION st) extra])
                 (CURRENT_ITERATION st)).

Definition set_CURRENT_ITERATION (i : nat) : M unit :=
  fun st => (tt, mkState (ACTION_PLAN st) i).

Definition preview_max (text : str) (max_len : nat) : str :=
  let text := escape_newlines text in
  if length text <=? max_len then text
  else firstn max_len text ++ lit "...".

(** [preview(text)] with the default [max_len = 80]. *)
Definition preview (text : str) : str := preview_max text 80.

(* ================================================================== *)
(** ** basic_clean *)
(* ================================================================== *)

Definition diff_git : str := lit "diff --git ".

(** The [for ... break] search of the first file marker. *)
Fixpoint find_preamble_index (i : nat) (lines : list str) : option nat :=
  match lines with
  | [] => None
  | line :: rest =>
      if startswith line diff_git then Some i
      else find_preamble_index (S i) rest
  end.

(** What the trimming loop appends for one line. *)
Definition normalize_line (line : str) : str :=
  rstrip (rstrip_LF line) ++ [LF].

(** The trimming loop, from line number [lineno] on. *)
Fixpoint trim_loop (lineno : nat) (lines : list str)
                   (cleaned : list str) (trimmed : nat)
  : M (list str * nat) :=
  match lines with
  | [] => ret (cleaned, trimmed)
  | line :: rest =>
      trimmed' <-
        (if negb (str_eqb (rstrip line) line) then
           log "WHITESPACE_TRIMMED" "basic_clean"
               "Trimmed trailing whitespace on line"
               [("line_number", VInt lineno);
                ("original_preview", VStr (preview line))] ;;
           ret (trimmed + 1)
         else ret trimmed) ;;
      trim_loop (S lineno) rest (cleaned ++ [normalize_line line]) trimmed'
  end.

Definition is_plus_blank (line : str) : bool :=
  startswith line (lit "+") && str_eqb (strip line) (lit "+").

(** The [while ... lines.pop()] loop, run on the reversed list. *)
Fixpoint pop_loop (rlines : list str) (dropped : nat) : list str * nat :=
  match rlines with
  | [] => ([], dropped)
  | last :: rest =>
      if is_plus_blank last then pop_loop rest (dropped + 1)
      else (rlines, dropped)
  end.

Definition basic_clean (text : str) : M (list str) :=
  let lines := splitlines text in
  log "BASIC_CLEAN_START" "basic_clean" "Starting basic_clean"
      [("line_count", VInt (length lines))] ;;
  lines <-
    match find_preamble_index 0 lines with
    | Some (S i) =>
        log "PREAMBLE_STRIPPED" "basic_clean"
            "Stripped preamble before first diff --git"
            [("removed_lines", VInt (S i))] ;;
        ret (skipn (S i) lines)
    | _ =>
        log "PREAMBLE_NONE" "basic_clean"
            "No preamble detected before first diff --git" [] ;;
        ret lines
    end ;;
  '(cleaned, trimmed) <- trim_loop 1 lines [] 0 ;;
  log "WHITESPACE_TRIM_SUMMARY" "basic_clean"
      "Trailing whitespace trimming summary"
      [("trimmed_lines", VInt trimmed)] ;;
  let '(rlines, dropped) := pop_loop (rev cleaned) 0 in
  let lines := rev rlines in
  log "EOF_PLUS_BLANK_DROPPED" "basic_clean"
      "Dropped trailing '+ blank' lines at EOF"
      [("dropped_lines", VInt dropped)] ;;
  log "BASIC_CLEAN_END" "basic_clean" "Finished basic_clean"
      [("line_count", VInt (length lines))] ;;
  ret lines.

(* ================================================================== *)
(** ** The data model *)
(* ================================================================== *)

Module Hunk.
Record t : Type := mk { header : str; body : list str }.
(** [Hunk(header_line)] *)
Definition init (header_line : str) : t := mk header_line [].
Definition set_header (new_header : str) (h : t) : t := mk new_header (body h).
(** [hunk.body.append(line)] *)
Definition body_append (line : str) (h : t) : t := mk (header h) (body h ++ [line]).
End Hunk.

Module FileDiff.
Record t : Type := mk { header : str; headers : list str; hunks : list Hunk.t }.
(** [FileDiff(header)] *)
Definition init (header : str) : t := mk header [] [].
Definition set_hunks (hs : list Hunk.t) (f : t) : t := mk (header f) (headers f) hs.
(** [file_diff.headers.append(line)] *)
Definition headers_append (line : str) (f : t) : t :=
  mk (header f) (headers f ++ [line]) (hunks f).
(** [file_diff.hunks.append(hunk)] *)
Definition hunks_append (h : Hunk.t) (f : t) : t :=
  mk (header f) (headers f) (hunks f ++ [h]).
End FileDiff.

(* ================================================================== *)
(** ** parse_diff *)
(* ================================================================== *)

(** A mutation through an alias of the last element of a list. *)
Fixpoint update_last {A} (f : A -> A) (l : list A) : list A :=
  match l with
  | [] => []
  | [x] => [f x]
  | x :: l' => x :: update_last f l'
  end.

(** The loop variables of [parse_diff].  In the source [current_file],
    when not [None], is the object last appended to [files], and
    [current_hunk], when not [None], is the object last appended to
    [current_file.hunks]: the model keeps whether each is set and mutates
    the last element in place. *)
Record parser : Type := mkParser {
  files : list FileDiff.t;
  current_file : bool;
  current_hunk : bool
}.

Definition hunk_marker : str := lit "@@ ".

Definition parse_line (lineno : nat) (line : str) (p : parser) : M parser :=
  if startswith line diff_git then
    log "PARSE_FILE_START" "parse" "Detected new file diff section"
        [("line_number", VInt lineno);
         ("diff_header_preview", VStr (preview line))] ;;
    ret (mkParser (files p ++ [FileDiff.init line]) true false)
  else if negb (current_file p) then
    log "PARSE_ORPHAN_LINE" "parse" "Line before any diff section (ignored)"
        [("line_number", VInt lineno); ("text_preview", VStr (preview line))] ;;
    ret p
  else if startswith line hunk_marker then
    log "PARSE_HUNK_HEADER" "parse" "Detected hunk header"
        [("line_number", VInt lineno); ("header_preview", VStr (preview line))] ;;
    ret (mkParser
           (update_last (FileDiff.hunks_append (Hunk.init line)) (files p))
           true true)
  else if current_hunk p then
    log "PARSE_HUNK_BODY_LINE" "parse" "Recorded hunk body line"
        [("line_number", VInt lineno); ("text_preview", VStr (preview line))] ;;
    ret (mkParser
           (update_last
              (fun f => FileDiff.set_hunks
                          (update_last (Hunk.body_append line) (FileDiff.hunks f)) f)
              (files p))
           true true)
  else
    log "PARSE_FILE_HEADER_LINE" "parse" "Recorded file header line"
        [("line_number", VInt lineno); ("text_preview", VStr (preview line))] ;;
    ret (mkParser (update_last (FileDiff.headers_append line) (files p))
                  true false).

Fixpoint parse_loop (lineno : nat) (lines : list str) (p : parser) : M parser :=
  match lines with
  | [] => ret p
  | line :: rest =>
      p' <- parse_line lineno line p ;;
      parse_loop (S lineno) rest p'
  end.

Definition parse_diff (lines : list str) : M (list FileDiff.t) :=
  p <- parse_loop 1 lines (mkParser [] false false) ;;
  log "PARSE_SUMMARY" "parse" "Finished parsing patch"
      [("file_count", VInt (length (files p)))] ;;
  ret (files p).

(* ================================================================== *)
(** ** The two regular expressions *)
(* ================================================================== *)

(** The regular expressions of the source are sequences of literal
    characters and of [\d+]. *)
Inductive tok : Type :=
| Chr (c : ascii)
| Digits.

(** A greedy [\d+] that may take at most [k] characters of [s]: the
    rest of the pattern, [rest], is tried after [k] characters, then after
    one fewer, down to one. *)
Fixpoint give_back (rest : str -> option (list str * nat)) (s : str) (k : nat)
  : option (list str * nat) :=
  match k with
  | 0 => None
  | S k' =>
      match rest (skipn k s) with
      | Some (g, n) => Some (firstn k s :: g, k + n)
      | None => give_back rest s k'
      end
  end.

(** Matching at the start of [s] with the priorities of a backtracking
    matcher.  The result is the text of each [\d+], in order, and the
    length of the match. *)
Fixpoint rmatch (p : list tok) (s : str) {struct p} : option (list str * nat) :=
  match p with
  | [] => Some ([], 0)
  | Chr c :: p' =>
      match s with
      | x :: s' =>
          if Ascii.eqb x c then
            match rmatch p' s' with
            | Some (g, n) => Some (g, S n)
            | None => None
            end
          else None
      | [] => None
      end
  | Digits :: p' =>
      give_back (rmatch p') s (length (takewhile is_digit s))
  end.

Definition chars (s : string) : list tok := map Chr (lit s).

(** [@@ -\d+,\d+ \+\d+,\d+ @@]; in [validate_hunk] the second and the
    fourth [\d+] are the groups [old] and [new]. *)
Definition span_header_re : list tok :=
  chars "@@ -" ++ [Digits] ++ chars "," ++ [Digits] ++
  chars " +" ++ [Digits] ++ chars "," ++ [Digits] ++ chars " @@".

(** [re.match(pattern, s)] *)
Definition re_match (p : list tok) (s : str) : option (list str * nat) :=
  rmatch p s.

(** [re.sub(pattern, repl, s)]: every match, leftmost first and without
    overlap, is replaced.  [skip] characters of the match found last are
    still to be passed. *)
Fixpoint re_sub_from (p : list tok) (repl : str) (skip : nat) (s : str)
  {struct s} : str :=
  match skip with
  | S k =>
      match s with
      | [] => []
      | _ :: s' => re_sub_from p repl k s'
      end
  | 0 =>
      match rmatch p s with
      | Some (_, S n) =>
          repl ++ match s with
                  | [] => []
                  | _ :: s' => re_sub_from p repl n s'
                  end
      | Some (_, 0) =>
          repl ++ match s with
                  | [] => []
                  | c :: s' => c :: re_sub_from p repl 0 s'
                  end
      | None =>
          match s with
          | [] => []
          | c :: s' => c :: re_sub_from p repl 0 s'
          end
      end
  end.

Definition re_sub (p : list tok) (repl : str) (s : str) : str :=
  re_sub_from p repl 0 s.

(* ================================================================== *)
(** ** Validation and repair of a hunk *)
(* ================================================================== *)

Definition no_newline_marker : str := lit "\ No newline at end of file".

(** The loop of [_count_body_lines] on the lines left to read. *)
Fixpoint count_loop (lines : list str) (context removed added : nat)
                    (has_unexpected : bool) : nat * nat * nat * bool :=
  match lines with
  | [] => (context, removed, added, has_unexpected)
  | line :: rest =>
      if startswith line (lit " ") then
        count_loop rest (context + 1) removed added has_unexpected
      else if startswith line (lit "-") then
        count_loop rest context (removed + 1) added has_unexpected
      else if startswith line (lit "+") && negb (str_eqb (strip line) (lit "+")) then
        count_loop rest context removed (added + 1) has_unexpected
      else if startswith line no_newline_marker then
        count_loop rest context removed added has_unexpected
      else
        count_loop rest context removed added true
  end.

Definition _count_body_lines (hunk : Hunk.t) : nat * nat * nat * bool :=
  count_loop (Hunk.body hunk) 0 0 0 false.

(** The replacement text [f"@@ -0,{expected_old} +0,{expected_new} @@"]. *)
Definition span_header_text (expected_old expected_new : nat) : str :=
  lit "@@ -0," ++ str_of_int expected_old ++ lit " +0," ++
  str_of_int expected_new ++ lit " @@".

Definition _maybe_fix_span_header (hunk : Hunk.t) (file_header : str)
    (old_span new_span context removed added : nat)
  : M (Hunk.t * (bool * nat * nat)) :=
  let expected_old := context + removed in
  let expected_new := context + added in
  if negb (expected_old =? old_span) || negb (expected_new =? new_span) then
    let new_header :=
      re_sub span_header_re (span_header_text expected_old expected_new)
             (Hunk.header hunk) in
    log "HUNK_HEADER_SPAN_REPAIRED" "validate" "Repaired hunk header span values"
        [("file_header_preview", VStr (preview file_header));
         ("old_header_preview", VStr (preview (Hunk.header hunk)));
         ("new_header_preview", VStr (preview new_header));
         ("old_span", VInt old_span);
         ("new_span", VInt new_span);
         ("expected_old_span", VInt expected_old);
         ("expected_new_span", VInt expected_new)] ;;
    ret (Hunk.set_header new_header hunk, (true, expected_old, expected_new))
  else
    ret (hunk, (false, old_span, new_span)).

Definition validate_hunk (hunk : Hunk.t) (file_header : str)
    (allow_repairs : bool) : M (bool * Hunk.t) :=
  match re_match span_header_re (Hunk.header hunk) with
  | None =>
      log "HUNK_INVALID_MALFORMED_HEADER" "validate" "Hunk header is malformed"
          [("file_header_preview", VStr (preview file_header));
           ("header_preview", VStr (preview (Hunk.header hunk)));
           ("repair_hint",
            VStr (lit "REPAIR_RECONSTRUCT_MALFORMED_HEADER or regenerate diff."))] ;;
      ret (false, hunk)
  | Some (groups, _) =>
      let old_span := int_of_digits (nth 1 groups []) in
      let new_span := int_of_digits (nth 3 groups []) in
      let '(context, removed, added, has_unexpected) := _count_body_lines hunk in
      let expected_old := context + removed in
      let expected_new := context + added in
      let after_unexpected : M (bool * Hunk.t) :=
        if (expected_old =? old_span) && (expected_new =? new_span)
           && negb has_unexpected then
          log "HUNK_VALID" "validate" "Hunk is structurally valid"
              [("file_header_preview", VStr (preview file_header));
               ("header_preview", VStr (preview (Hunk.header hunk)));
               ("old_span", VInt old_span);
               ("new_span", VInt new_span);
               ("context_lines", VInt context);
               ("removed_lines", VInt removed);
               ("added_lines", VInt added)] ;;
          ret (true, hunk)
        else if negb allow_repairs then
          (if negb (expected_old =? old_span) then
             log "HUNK_INVALID_OLD_SPAN_MISMATCH" "validate"
                 "Old span mismatch in hunk header"
                 [("file_header_preview", VStr (preview file_header));
                  ("header_preview", VStr (preview (Hunk.header hunk)));
                  ("expected_old_span", VInt expected_old);
                  ("actual_old_span", VInt old_span);
                  ("repair_hint",
                   VStr (lit "REPAIR_FIX_OLD_SPAN_HEADER or REPAIR_APPROXIMATE_HEADER_REWRITE."))]
           else ret tt) ;;
          (if negb (expected_new =? new_span) then
             log "HUNK_INVALID_NEW_SPAN_MISMATCH" "validate"
                 "New span mismatch in hunk header"
                 [("file_header_preview", VStr (preview file_header));
                  ("header_preview", VStr (preview (Hunk.header hunk)));
                  ("expected_new_span", VInt expected_new);
                  ("actual_new_span", VInt new_span);
                  ("repair_hint",
                   VStr (lit "REPAIR_FIX_NEW_SPAN_HEADER or REPAIR_APPROXIMATE_HEADER_REWRITE."))]
           else ret tt) ;;
          ret (false, hunk)
        else
          '(hunk', (repaired, old_span2, new_span2)) <-
            _maybe_fix_span_header hunk file_header old_span new_span
                                   context removed added ;;
          if repaired then
            log "HUNK_VALID_AFTER_REPAIR" "validate"
                "Hunk became valid after header span repair"
                [("file_header_preview", VStr (preview file_header));
                 ("header_preview", VStr (preview (Hunk.header hunk')));
                 ("old_span", VInt old_span2);
                 ("new_span", VInt new_span2)] ;;
            ret (true, hunk')
          else
            (if negb (expected_old =? old_span) then
               log "HUNK_INVALID_OLD_SPAN_MISMATCH" "validate"
                   "Old span mismatch in hunk header (repair failed)"
                   [("file_header_preview", VStr (preview file_header));
                    ("header_preview", VStr (preview (Hunk.header hunk')));
                    ("expected_old_span", VInt expected_old);
                    ("actual_old_span", VInt old_span);
                    ("repair_hint",
                     VStr (lit "REPAIR_FIX_OLD_SPAN_HEADER or REPAIR_REGENERATE_DIFF_FOR_FILE."))]
             else ret tt) ;;
            (if negb (expected_new =? new_span) then
               log "HUNK_INVALID_NEW_SPAN_MISMATCH" "validate"
                   "New span mismatch in hunk header (repair failed)"
                   [("file_header_preview", VStr (preview file_header));
                    ("header_preview", VStr (preview (Hunk.header hunk')));
                    ("expected_new_span", VInt expected_new);
                    ("actual_new_span", VInt new_span);
                    ("repair_hint",
                     VStr (lit "REPAIR_FIX_NEW_SPAN_HEADER or REPAIR_REGENERATE_DIFF_FOR_FILE."))]
             else ret tt) ;;
            ret (false, hunk')
      in
      if has_unexpected then
        log "HUNK_INVALID_UNEXPECTED_LINE" "validate"
            "Unexpected line type in hunk body"
            [("file_header_preview", VStr (preview file_header));
             ("header_preview", VStr (preview (Hunk.header hunk)));
             ("repair_hint",
              VStr (lit "REPAIR_REBUILD_HUNK_FROM_BODY or drop hunk."))] ;;
        if negb allow_repairs then ret (false, hunk) else after_unexpected
      else after_unexpected
  end.

(* ================================================================== *)
(** ** filter_or_repair_files and render_patch *)
(* ================================================================== *)

(** The inner loop: [valid_hunks] collects the hunks [validate_hunk]
    accepts, as it left them. *)
Fixpoint hunks_loop (hunks : list Hunk.t) (file_header : str)
    (allow_repairs : bool) (valid_hunks : list Hunk.t) : M (list Hunk.t) :=
  match hunks with
  | [] => ret valid_hunks
  | hunk :: rest =>
      '(ok, hunk') <- validate_hunk hunk file_header allow_repairs ;;
      hunks_loop rest file_header allow_repairs
                 (if ok : bool then valid_hunks ++ [hunk'] else valid_hunks)
  end.

Fixpoint files_loop (file_diffs : list FileDiff.t) (allow_repairs : bool)
    (result : list FileDiff.t) : M (list FileDiff.t) :=
  match file_diffs with
  | [] => ret result
  | file_diff :: rest =>
      valid_hunks <- hunks_loop (FileDiff.hunks file_diff)
                                (FileDiff.header file_diff) allow_repairs [] ;;
      match valid_hunks with
      | _ :: _ =>
          files_loop rest allow_repairs
                     (result ++ [FileDiff.set_hunks valid_hunks file_diff])
      | [] =>
          log "FILE_DROPPED_NO_VALID_HUNKS" "validate"
              "Dropping file diff because it has no valid hunks"
              [("file_header_preview", VStr (preview (FileDiff.header file_diff)));
               ("repair_hint",
                VStr (lit "REPAIR_REGENERATE_DIFF_FOR_FILE or REPAIR_REGENERATE_FULL_PATCH."))] ;;
          files_loop rest allow_repairs result
      end
  end.

Definition filter_or_repair_files (file_diffs : list FileDiff.t)
    (allow_repairs : bool) : M (list FileDiff.t) :=
  result <- files_loop file_diffs allow_repairs [] ;;
  log "FILTER_FILES_SUMMARY" "validate"
      "Finished validating/repairing hunks and filtering files"
      [("remaining_files", VInt (length result))] ;;
  ret result.

(** The list [out] of [render_patch]. *)
Definition hunk_lines (h : Hunk.t) : list str := Hunk.header h :: Hunk.body h.

Definition file_lines (f : FileDiff.t) : list str :=
  FileDiff.header f :: FileDiff.headers f ++ flat_map hunk_lines (FileDiff.hunks f).

Definition render_patch (file_diffs : list FileDiff.t) : M str :=
  let out := flat_map file_lines file_diffs in
  let text := join out in
  let lines := length (splitlines text) in
  log "RENDER_SUMMARY" "render" "Rendered patch text from FileDiffs"
      [("rendered_lines", VInt lines)] ;;
  ret text.

(* ================================================================== *)
(** ** The three modes *)
(* ================================================================== *)

(** How a call ends: with a value, or with an exception that nothing in
    the source catches. *)
Inductive outcome (A : Type) : Type :=
| Returns (a : A)
| Raises (exception : string).
Arguments Returns {A} a.
Arguments Raises {A} exception.

(** The plan a mode returns: [steps] is [ACTION_PLAN] as it stands at the
    return.  The file names and the constant table [REPAIR_METHODS], which
    the plan copies, are left out. *)
Record plan : Type := mkPlan {
  plan_version : nat;
  mode : string;
  steps : list entry;
  summary : list (string * value)
}.

Definition get_ACTION_PLAN : M (list entry) := fun st => (ACTION_PLAN st, st).

Definition value_of_result (r : option str) : value :=
  match r with
  | Some s => VStr s
  | None => VNone
  end.

Module Iter.
(** The local variables of [run_iterative] that the loop assigns;
    [iteration] is unbound until the loop assigns it. *)
Record vars : Type := mk {
  patch_text : str;
  git_result : option str;
  last_patch_text : option str;
  iteration : option nat
}.
End Iter.

Section Modes.

(** [git apply --check -] on a patch text: whether the return code is 0,
    and what the process wrote (stdout followed by stderr). *)
Variable git_apply_check : str -> bool * str.

Definition git_validate (patch_text : str) : M str :=
  let '(returncode_is_0, combined) := git_apply_check patch_text in
  let combined := strip combined in
  if returncode_is_0 : bool then
    log "GIT_VALIDATE_OK" "git_validate"
        "git apply --check reports patch is structurally valid" [] ;;
    ret (lit "ok")
  else
    log "GIT_VALIDATE_ERROR" "git_validate"
        "git apply --check reports patch issues"
        [("stderr", VStr combined)] ;;
    ret (lit "error").

(** [run_scan_only] on the text [load_file] returned. *)
Definition run_scan_only (original : str) (validate_with_git : bool) : M plan :=
  cleaned_lines <- basic_clean original ;;
  file_diffs <- parse_diff cleaned_lines ;;
  _ <- filter_or_repair_files file_diffs false ;;
  git_result <-
    (if validate_with_git then r <- git_validate original ;; ret (Some r)
     else ret None) ;;
  log "PLAN_SUMMARY" "meta" "Scan-only patch analysis completed"
      [("valid_files", VNone); ("git_validation", value_of_result git_result)] ;;
  steps <- get_ACTION_PLAN ;;
  ret (mkPlan 4 "scan-only" steps
         [("valid_files", VNone); ("git_validation", value_of_result git_result)]).

(** [run_apply_once] on the text [load_file] returned; the first
    component is the text given to [save_file]. *)
Definition run_apply_once (original : str) (validate_with_git : bool)
  : M (str * plan) :=
  cleaned_lines <- basic_clean original ;;
  file_diffs <- parse_diff cleaned_lines ;;
  repaired_files <- filter_or_repair_files file_diffs true ;;
  repaired_patch <- render_patch repaired_files ;;
  git_result <-
    (if validate_with_git then r <- git_validate repaired_patch ;; ret (Some r)
     else ret None) ;;
  log "PLAN_SUMMARY" "meta" "Single-pass repair completed"
      [("valid_files", VInt (length repaired_files));
       ("git_validation", value_of_result git_result)] ;;
  steps <- get_ACTION_PLAN ;;
  ret (repaired_patch,
       mkPlan 4 "apply-repairs" steps
         [("valid_files", VInt (length repaired_files));
          ("git_validation", value_of_result git_result)]).

Definition option_str_eqb (a : option str) (b : str) : bool :=
  match a with
  | Some a' => str_eqb a' b
  | None => false
  end.

(** The [for iteration in range(max_iterations)] loop on the rounds left;
    a [break] ends the recursion. *)
Fixpoint iterative_loop (rounds : list nat) (validate_with_git : bool)
    (v : Iter.vars) : M Iter.vars :=
  match rounds with
  | [] => ret v
  | iteration :: rest =>
      set_CURRENT_ITERATION iteration ;;
      log "ITERATION_START" "meta" "Starting repair iteration"
          [("iteration", VInt iteration)] ;;
      cleaned_lines <- basic_clean (Iter.patch_text v) ;;
      file_diffs <- parse_diff cleaned_lines ;;
      repaired_files <- filter_or_repair_files file_diffs true ;;
      new_patch_text <- render_patch repaired_files ;;
      git_result <-
        (if validate_with_git then r <- git_validate new_patch_text ;; ret (Some r)
         else ret (Iter.git_result v)) ;;
      if option_str_eqb (Iter.last_patch_text v) new_patch_text then
        log "ITERATION_NO_PROGRESS" "meta"
            "Iteration made no textual changes; stopping loop"
            [("iteration", VInt iteration)] ;;
        ret (Iter.mk new_patch_text git_result (Iter.last_patch_text v)
                     (Some iteration))
      else if option_str_eqb git_result (lit "ok") then
        log "ITERATION_GIT_OK" "meta"
            "git apply --check succeeded; stopping loop"
            [("iteration", VInt iteration)] ;;
        ret (Iter.mk new_patch_text git_result (Iter.last_patch_text v)
                     (Some iteration))
      else
        log "ITERATION_END" "meta" "Completed repair iteration"
            [("iteration", VInt iteration);
             ("git_validation", value_of_result git_result)] ;;
        iterative_loop rest validate_with_git
          (Iter.mk new_patch_text git_result (Some new_patch_text)
                   (Some iteration))
  end.

(** [run_iterative] on the text [load_file] returned.  The first component
    is the text given to [save_file], which is called before the summary
    is built; reading [iteration] while it is unbound raises. *)
Definition run_iterative (original : str) (validate_with_git : bool)
    (max_iterations : Z) : M (str * outcome plan) :=
  v <- iterative_loop (seq 0 (Z.to_nat max_iterations)) validate_with_git
         (Iter.mk original None None None) ;;
  match Iter.iteration v with
  | None => ret (Iter.patch_text v, Raises "UnboundLocalError")
  | Some iteration =>
      log "PLAN_SUMMARY" "meta" "Iterative repair completed"
          [("iterations_run", VInt (iteration + 1));
           ("git_validation", value_of_result (Iter.git_result v))] ;;
      steps <- get_ACTION_PLAN ;;
      ret (Iter.patch_text v,
           Returns (mkPlan 4 "iterative" steps
                      [("iterations_run", VInt (iteration + 1));
                       ("git_validation", value_of_result (Iter.git_result v))]))
  end.

End Modes.

Definition st0 : state := mkState [] 0.

(* ================================================================== *)
(** ** The vocabulary of the properties *)
(* ================================================================== *)

(** The value a computation returns from the state [st]. *)
Definition result {A} (m : M A) (st : state) : A := fst (m st).

(** The entries a computation appends to the plan it starts from. *)
Definition logged {A} (m : M A) (st : state) : list entry :=
  skipn (length (ACTION_PLAN st)) (ACTION_PLAN (snd (m st))).

(** The lines [basic_clean] keeps after the search of the first file
    marker. *)
Definition strip_preamble (lines : list str) : list str :=
  match find_preamble_index 0 lines with
  | Some (S i) => skipn (S i) lines
  | _ => lines
  end.

(** The lines the trimming loop of [basic_clean] reads. *)
Definition trim_input (text : str) : list str :=
  strip_preamble (splitlines text).

(** The lines [basic_clean] returns, without the log. *)
Definition clean_lines (text : str) : list str :=
  rev (fst (pop_loop (rev (map normalize_line (trim_input text))) 0)).

(** The events of the trimming loop. *)
Fixpoint trim_events (it lineno : nat) (lines : list str) : list entry :=
  match lines with
  | [] => []
  | line :: rest =>
      (if negb (str_eqb (rstrip line) line) then
         [mkEntry "WHITESPACE_TRIMMED" "basic_clean"
                  "Trimmed trailing whitespace on line" it
                  [("line_number", VInt lineno);
                   ("original_preview", VStr (preview line))]]
       else []) ++ trim_events it (S lineno) rest
  end.

(** The final value of [trimmed] in the trimming loop. *)
Fixpoint trim_count (lines : list str) : nat :=
  match lines with
  | [] => 0
  | line :: rest =>
      (if negb (str_eqb (rstrip line) line) then 1 else 0) + trim_count rest
  end.

Definition is_trim_event (e : entry) : Prop := code e = "WHITESPACE_TRIMMED".

(** A trimming event with line number [lineno] was recorded by
    [basic_clean text] started in [st]. *)
Definition trim_event_recorded (text : str) (st : state) (lineno : nat) : Prop :=
  exists e, In e (logged (basic_clean text) st) /\ is_trim_event e /\
            In ("line_number", VInt lineno) (data e).

(** The first half of what is claimed of the trimming events, read as it
    is written: the line numbered [S i] has an event exactly when the
    loop appends a line that differs from it. *)
Definition trim_events_iff_changed (text : str) (st : state) : Prop :=
  forall i line,
    nth_error (trim_input text) i = Some line ->
    (trim_event_recorded text st (S i) <-> normalize_line line <> line).

(** The spans a header declares: the groups [old] and [new] of the match
    in [validate_hunk], read by [int]. *)
Definition declared_spans (header : str) : option (nat * nat) :=
  match re_match span_header_re header with
  | Some (groups, _) =>
      Some (int_of_digits (nth 1 groups []), int_of_digits (nth 3 groups []))
  | None => None
  end.

(** The pattern matches somewhere in [s]. *)
Fixpoint has_match (p : list tok) (s : str) : bool :=
  match rmatch p s with
  | Some _ => true
  | None =>
      match s with
      | [] => false
      | _ :: s' => has_match p s'
      end
  end.

(** The codes of the entries a computation appends. *)
Definition logged_codes {A} (m : M A) (st : state) : list string :=
  map code (logged m st).

(** [s] does not start with a character of the class. *)
Definition starts_without (q : ascii -> bool) (s : str) : Prop :=
  match s with
  | [] => True
  | c :: _ => q c = false
  end.

(** The kinds of body line of the specification: context (prefix space),
    removed (prefix -), added (prefix + and not only a +), the
    no-newline marker, and unexpected (anything else). *)
Inductive kind : Type :=
| Context
| Removed
| Added
| NoNewlineMarker
| Unexpected.

Definition kind_eqb (a b : kind) : bool :=
  match a, b with
  | Context, Context | Removed, Removed | Added, Added
  | NoNewlineMarker, NoNewlineMarker | Unexpected, Unexpected => true
  | _, _ => false
  end.

Definition classify (line : str) : kind :=
  if startswith line (lit " ") then Context
  else if startswith line (lit "-") then Removed
  else if startswith line (lit "+") && negb (str_eqb (strip line) (lit "+"))
  then Added
  else if startswith line no_newline_marker then NoNewlineMarker
  else Unexpected.

Definition count_kind (k : kind) (body : list str) : nat :=
  length (filter (fun line => kind_eqb (classify line) k) body).

(** [expected_old] and [expected_new] of [validate_hunk]. *)
Definition expected_spans (hunk : Hunk.t) : nat * nat :=
  let '(context, removed, added, _) := _count_body_lines hunk in
  (context + removed, context + added).

Definition has_unexpected (hunk : Hunk.t) : bool :=
  snd (_count_body_lines hunk).

Definition spans_eqb (a b : nat * nat) : bool :=
  (fst a =? fst b) && (snd a =? snd b).

(** The header [_maybe_fix_span_header] writes. *)
Definition repaired_header (hunk : Hunk.t) : str :=
  re_sub span_header_re
         (span_header_text (fst (expected_spans hunk)) (snd (expected_spans hunk)))
         (Hunk.header hunk).

(** What [validate_hunk] returns and how it leaves the hunk, without the
    log. *)
Definition validate_outcome (hunk : Hunk.t) (allow_repairs : bool)
  : bool * Hunk.t :=
  match declared_spans (Hunk.header hunk) with
  | None => (false, hunk)
  | Some declared =>
      if spans_eqb (expected_spans hunk) declared then
        (negb (has_unexpected hunk), hunk)
      else if allow_repairs then
        (true, Hunk.set_header (repaired_header hunk) hunk)
      else (false, hunk)
  end.

(** The start offsets a header declares, as written. *)
Definition declared_starts (header : str) : option (str * str) :=
  match re_match span_header_re header with
  | Some (groups, _) => Some (nth 0 groups [], nth 2 groups [])
  | None => None
  end.

(** The hunks of a file that [validate_hunk] accepts, as it leaves them. *)
Definition valid_hunks_of (allow_repairs : bool) (hunks : list Hunk.t)
  : list Hunk.t :=
  flat_map (fun hunk =>
              let '(ok, hunk') := validate_outcome hunk allow_repairs in
              if ok : bool then [hunk'] else []) hunks.

(** The files [filter_or_repair_files] returns, without the log. *)
Definition filter_files (allow_repairs : bool) (file_diffs : list FileDiff.t)
  : list FileDiff.t :=
  flat_map (fun file_diff =>
              match valid_hunks_of allow_repairs (FileDiff.hunks file_diff) with
              | [] => []
              | valid_hunks => [FileDiff.set_hunks valid_hunks file_diff]
              end) file_diffs.

(** ** The hunks of the scenarios *)

Definition scenario_file_header : str := lit "diff --git a/f b/f
".

(** Header [@@ -1,2 +1,3 @@] over one context line and two added lines. *)
Definition scenario_hunk : Hunk.t :=
  Hunk.mk (lit "@@ -1,2 +1,3 @@
") [lit " old
"; lit "+new1
"; lit "+new2
"].

(** A malformed header. *)
Definition garbage_hunk : Hunk.t :=
  Hunk.mk (lit "@@ garbage @@
") [lit " old
"].

(** Spans that differ from the counts, and a line of no known kind. *)
Definition salvaged_hunk : Hunk.t :=
  Hunk.mk (lit "@@ -1,5 +1,5 @@
") [lit " old
"; lit "garbage
"].

(** No body line, spans that are not 0. *)
Definition empty_hunk : Hunk.t :=
  Hunk.mk (lit "@@ -1,2 +1,3 @@
") [].

(** C4 read as it is written, on the start offsets: the repair leaves
    them as they were. *)
Definition repair_keeps_starts (hunk : Hunk.t) (file_header : str)
    (st : state) : Prop :=
  declared_starts
    (Hunk.header (snd (fst (validate_hunk hunk file_header true st)))) =
  declared_starts (Hunk.header hunk).

(** C8 read as it is written: a hunk without body lines is accepted
    exactly when its header declares the spans 0 and 0. *)
Definition empty_hunk_accepted_iff_zero_spans (hunk : Hunk.t)
    (file_header : str) (allow_repairs : bool) (st : state) : Prop :=
  Hunk.body hunk = [] ->
  (fst (fst (validate_hunk hunk file_header allow_repairs st)) = true <->
   declared_spans (Hunk.header hunk) = Some (0, 0)).

(** ** The pass without its log *)

(** What [parse_line] does to the loop variables. *)
Definition parse_step (p : parser) (line : str) : parser :=
  if startswith line diff_git then
    mkParser (files p ++ [FileDiff.init line]) true false
  else if negb (current_file p) then p
  else if startswith line hunk_marker then
    mkParser (update_last (FileDiff.hunks_append (Hunk.init line)) (files p))
             true true
  else if current_hunk p then
    mkParser
      (update_last
         (fun f => FileDiff.set_hunks
                     (update_last (Hunk.body_append line) (FileDiff.hunks f)) f)
         (files p))
      true true
  else
    mkParser (update_last (FileDiff.headers_append line) (files p)) true false.

Definition parse_files (lines : list str) : list FileDiff.t :=
  files (fold_left parse_step lines (mkParser [] false false)).

Definition render (file_diffs : list FileDiff.t) : str :=
  join (flat_map file_lines file_diffs).

(** The text one pass with repairs renders from [text]. *)
Definition repair_pass (text : str) : str :=
  render (filter_files true (parse_files (clean_lines text))).

(** The files the pass with repairs retains, as it leaves them. *)
Definition retained_files (text : str) : list FileDiff.t :=
  result (filter_or_repair_files
            (result (parse_diff (result (basic_clean text) st0)) st0) true) st0.

Definition no_unexpected_line (file_diffs : list FileDiff.t) : Prop :=
  Forall (fun f => Forall (fun h => has_unexpected h = false) (FileDiff.hunks f))
         file_diffs.

(** A line of [splitlines] is text without line boundary followed by its
    terminator, if it has one. *)
Definition split_line (l : str) : Prop :=
  exists x t, l = x ++ t /\
              Forall (fun c => is_linebreak c = false) x /\
              forallb is_linebreak t = true.

(** A line as [basic_clean] leaves it: no line boundary and no trailing
    whitespace before its one "\n". *)
Definition clean_line (l : str) : Prop :=
  exists x, l = x ++ [LF] /\
            Forall (fun c => is_linebreak c = false) x /\
            rstrip x = x.

(** A line that starts neither a file nor a hunk. *)
Definition plain_line (l : str) : Prop :=
  startswith l diff_git = false /\ startswith l hunk_marker = false.

(** The shape of what [parse_diff] builds from cleaned lines. *)
Definition wf_hunk (h : Hunk.t) : Prop :=
  clean_line (Hunk.header h) /\
  startswith (Hunk.header h) diff_git = false /\
  startswith (Hunk.header h) hunk_marker = true /\
  Forall (fun l => clean_line l /\ plain_line l) (Hunk.body h).

Definition wf_file (f : FileDiff.t) : Prop :=
  clean_line (FileDiff.header f) /\
  startswith (FileDiff.header f) diff_git = true /\
  Forall (fun l => clean_line l /\ plain_line l) (FileDiff.headers f) /\
  Forall wf_hunk (FileDiff.hunks f).

(** A hunk that a further validation finds valid as it is. *)
Definition settled_hunk (h : Hunk.t) : Prop :=
  declared_spans (Hunk.header h) = Some (expected_spans h) /\
  has_unexpected h = false.

(** No token of the pattern is the literal "\n". *)
Definition LF_free (p : list tok) : Prop := Forall (fun t => t <> Chr LF) p.

Section FixedPoint.

Variable git_apply_check : str -> bool * str.

(** C3 read as it is written, for one patch text: the text rendered by
    the single-pass repair is rendered again from itself. *)
Definition render_is_fixed_point (text : str) : Prop :=
  let first := fst (result (run_apply_once git_apply_check text false) st0) in
  fst (result (run_apply_once git_apply_check first false) st0) = first.

End FixedPoint.

(** A patch whose only hunk has wrong spans and a line of no known kind. *)
Definition salvaged_patch : str := lit "diff --git a/f b/f
@@ -1,5 +1,5 @@
 old
garbage
".

(** The patch of the scenario. *)
Definition scenario_patch : str := lit "diff --git a/f b/f
@@ -1,2 +1,3 @@
 old
+new1
+new2
".

(** An oracle that accepts every patch and prints nothing. *)
Definition git_always_ok (patch_text : str) : bool * str := (true, []).

(** ** Further vocabulary *)

(** A hunk whose header agrees with its body. *)
Definition valid_hunk : Hunk.t :=
  Hunk.mk (lit "@@ -3,2 +3,2 @@ def f():
") [lit " keep
"; lit "-old
"; lit "+new
"].

(** The codes of the two events that report an accepted hunk. *)
Definition acceptance_code (c : string) : bool :=
  String.eqb c "HUNK_VALID" || String.eqb c "HUNK_VALID_AFTER_REPAIR".

(** The messages of the entries a computation appends. *)
Definition logged_messages {A} (m : M A) (st : state) : list string :=
  map message (logged m st).

(** A computation only appends to [ACTION_PLAN], and every entry it
    appends satisfies [P]. *)
Definition appends (P : entry -> Prop) {A} (m : M A) : Prop :=
  forall st, exists new,
    ACTION_PLAN (snd (m st)) = ACTION_PLAN st ++ new /\ Forall P new.

(** The two events of a span repair. *)
Definition repair_code (c : string) : bool :=
  String.eqb c "HUNK_HEADER_SPAN_REPAIRED" ||
  String.eqb c "HUNK_VALID_AFTER_REPAIR".

Definition not_repair_event (e : entry) : Prop := repair_code (code e) = false.

(** The lines from the first one that starts a file on. *)
Fixpoint from_first_marker (lines : list str) : list str :=
  match lines with
  | [] => []
  | line :: rest =>
      if startswith line diff_git then lines else from_first_marker rest
  end.

(** How the loop variables of [parse_diff] stand to each other: no hunk
    without a file, no file without an element of [files], and a current
    hunk exactly when the last file has a hunk. *)
Definition parser_ok (p : parser) : Prop :=
  (current_file p = false -> files p = [] /\ current_hunk p = false) /\
  (current_file p = true ->
   exists F f, files p = F ++ [f] /\
               (current_hunk p = true -> FileDiff.hunks f <> []) /\
               (current_hunk p = false -> FileDiff.hunks f = [])).

(** The lines that start a file. *)
Definition marker_lines (lines : list str) : list str :=
  filter (fun line => startswith line diff_git) lines.

(** The lines [basic_clean] goes on with after looking for a preamble:
    all of them when no line starts a file. *)
Definition without_preamble (lines : list str) : list str :=
  match from_first_marker lines with
  | [] => lines
  | kept => kept
  end.

(** How many of the entries have the code [c]. *)
Definition count_code (c : string) (entries : list entry) : nat :=
  length (filter (fun e => String.eqb (code e) c) entries).


(** [a] is [b] with some elements left out, in the same order. *)
Inductive subseq {A : Type} : list A -> list A -> Prop :=
| subseq_nil : subseq [] []
| subseq_skip (x : A) (a b : list A) : subseq a b -> subseq a (x :: b)
| subseq_take (x : A) (a b : list A) : subseq a b -> subseq (x :: a) (x :: b).

(** The lines of a file that are not in its hunks. *)
Definition file_head (f : FileDiff.t) : str * list str :=
  (FileDiff.header f, FileDiff.headers f).

(** The file of the scenario, followed by a file whose only hunk has a
    malformed header. *)
Definition two_files : list FileDiff.t :=
  [FileDiff.mk scenario_file_header [] [valid_hunk; scenario_hunk];
   FileDiff.mk (lit "diff --git a/g b/g
") [lit "index 1..2
"] [garbage_hunk]].

(** A body without its final lines that are only a "+". *)
Definition trim_body (body : list str) : list str :=
  rev (fst (pop_loop (rev body) 0)).

(** The files whose rendered lines are those of [file_diffs] without the
    final lines that are only a "+": these lines are in the body of the
    last hunk of the last file. *)
Definition trim_files (file_diffs : list FileDiff.t) : list FileDiff.t :=
  update_last
    (fun f => FileDiff.set_hunks
                (update_last
                   (fun h => Hunk.mk (Hunk.header h) (trim_body (Hunk.body h)))
                   (FileDiff.hunks f)) f)
    file_diffs.

(** A hunk whose header declares the spans counted in its body. *)
Definition consistent_hunk (h : Hunk.t) : Prop :=
  declared_spans (Hunk.header h) = Some (expected_spans h).

Section OnePass.

Variable git_apply_check : str -> bool * str.

(** The patch [run_apply_once] writes for [text]. *)
Definition written_by_pass (text : str) : str :=
  fst (result (run_apply_once git_apply_check text false) st0).

End OnePass.

(** The hunk of the scenario with its body in another order. *)
Definition scenario_hunk_reordered : Hunk.t :=
  Hunk.mk (lit "@@ -1,2 +1,3 @@
") [lit "+new2
"; lit " old
"; lit "+new1
"].

(* ================================================================== *)
(** * Properties *)
(* ================================================================== *)

(** ** Running a computation *)

(** ** Characters and strings *)

Lemma str_eqb_eq (a b : str) : str_eqb a b = true <-> a = b.
Proof.
  revert b; induction a as [|x a IH]; intros [|y b]; simpl; split;
    try congruence; try reflexivity.
  - rewrite andb_true_iff, Ascii.eqb_eq, IH. intros [-> ->]. reflexivity.
  - intros E. injection E as -> ->. rewrite Ascii.eqb_refl. simpl.
    apply IH. reflexivity.
Qed.

Lemma str_eqb_refl (a : str) : str_eqb a a = true.
Proof. apply str_eqb_eq. reflexivity. Qed.

Lemma str_eqb_neq (a b : str) : str_eqb a b = false <-> a <> b.
Proof.
  rewrite <- str_eqb_eq. destruct (str_eqb a b); intuition congruence.
Qed.

Lemma linebreak_is_space (c : ascii) : is_linebreak c = true -> is_space c = true.
Proof.
  destruct c as [[] [] [] [] [] [] [] []]; vm_compute; intros H;
    first [reflexivity | discriminate H].
Qed.

Lemma is_LF_eq (c : ascii) : is_LF c = true <-> c = LF.
Proof. apply Ascii.eqb_eq. Qed.

Lemma LF_is_space : is_space LF = true.
Proof. reflexivity. Qed.

Lemma LF_is_linebreak : is_linebreak LF = true.
Proof. reflexivity. Qed.

Lemma digit_not_space (c : ascii) : is_digit c = true -> is_space c = false.
Proof.
  destruct c as [[] [] [] [] [] [] [] []]; vm_compute; intros H;
    first [reflexivity | discriminate H].
Qed.

Lemma digit_not_linebreak (c : ascii) : is_digit c = true -> is_linebreak c = false.
Proof.
  destruct c as [[] [] [] [] [] [] [] []]; vm_compute; intros H;
    first [reflexivity | discriminate H].
Qed.

Section Strip.

Variable p : ascii -> bool.

Lemma rstrip_with_snoc (s : str) (c : ascii) :
  rstrip_with p (s ++ [c]) = if p c then rstrip_with p s else s ++ [c].
Proof.
  unfold rstrip_with. rewrite rev_app_distr. simpl.
  destruct (p c); [reflexivity|].
  simpl. rewrite rev_involutive. reflexivity.
Qed.

Lemma rstrip_with_nil : rstrip_with p [] = [].
Proof. reflexivity. Qed.

Lemma rstrip_with_app_all (s w : str) :
  forallb p w = true -> rstrip_with p (s ++ w) = rstrip_with p s.
Proof.
  induction w as [|c w IH] using rev_ind; intros H.
  - rewrite app_nil_r. reflexivity.
  - rewrite forallb_app in H. simpl in H.
    apply andb_true_iff in H as [Hw Hc]. rewrite andb_true_r in Hc.
    rewrite app_assoc, rstrip_with_snoc, Hc. apply IH, Hw.
Qed.

(** What [rstrip] removes is a suffix made of characters of the class. *)
Lemma rstrip_with_split (s : str) :
  exists w, s = rstrip_with p s ++ w /\ forallb p w = true.
Proof.
  induction s as [|c s IH] using rev_ind.
  - exists []. split; reflexivity.
  - rewrite rstrip_with_snoc. destruct (p c) eqn:E.
    + destruct IH as (w & Hs & Hw). exists (w ++ [c]). split.
      * rewrite app_assoc, <- Hs. reflexivity.
      * rewrite forallb_app, Hw. simpl. rewrite E. reflexivity.
    + exists []. split; [rewrite app_nil_r; reflexivity | reflexivity].
Qed.

Lemma rstrip_with_idem (s : str) :
  rstrip_with p (rstrip_with p s) = rstrip_with p s.
Proof.
  induction s as [|c s IH] using rev_ind.
  - reflexivity.
  - rewrite rstrip_with_snoc. destruct (p c) eqn:E; [exact IH|].
    rewrite rstrip_with_snoc, E. reflexivity.
Qed.

Lemma rstrip_with_Forall (q : ascii -> Prop) (s : str) :
  Forall q s -> Forall q (rstrip_with p s).
Proof.
  intros H. destruct (rstrip_with_split s) as (w & Hs & _).
  rewrite Hs in H. apply Forall_app in H. apply H.
Qed.

End Strip.

Lemma forallb_weaken (p q : ascii -> bool) (w : str) :
  (forall c, p c = true -> q c = true) ->
  forallb p w = true -> forallb q w = true.
Proof.
  intros Hpq. rewrite !forallb_forall. auto.
Qed.

(** [line.rstrip("\n").rstrip()] is [line.rstrip()]. *)
Lemma rstrip_rstrip_LF (s : str) : rstrip (rstrip_LF s) = rstrip s.
Proof.
  unfold rstrip, rstrip_LF.
  destruct (rstrip_with_split is_LF s) as (w & Hs & Hw).
  rewrite Hs at 2. rewrite rstrip_with_app_all; [reflexivity|].
  eapply forallb_weaken; [|exact Hw].
  intros c Hc. apply is_LF_eq in Hc. subst c. reflexivity.
Qed.

Lemma normalize_line_rstrip (line : str) :
  normalize_line line = rstrip line ++ [LF].
Proof. unfold normalize_line. rewrite rstrip_rstrip_LF. reflexivity. Qed.

Lemma rstrip_normalize_line (line : str) :
  rstrip (normalize_line line) = rstrip line.
Proof.
  rewrite normalize_line_rstrip. unfold rstrip.
  rewrite rstrip_with_snoc, LF_is_space. apply rstrip_with_idem.
Qed.

(** ** The cleaner without its log *)

Lemma trim_loop_spec (lines : list str) :
  forall lineno cleaned trimmed st,
    trim_loop lineno lines cleaned trimmed st =
    ((cleaned ++ map normalize_line lines, trimmed + trim_count lines),
     mkState (ACTION_PLAN st ++ trim_events (CURRENT_ITERATION st) lineno lines)
             (CURRENT_ITERATION st)).
Proof.
  induction lines as [|line rest IH]; intros lineno cleaned trimmed [pl it].
  - simpl. unfold ret. rewrite !app_nil_r, Nat.add_0_r. reflexivity.
  - simpl. unfold bind. destruct (negb (str_eqb (rstrip line) line)).
    + unfold log, ret, bind. simpl. rewrite IH. simpl.
      rewrite <- !app_assoc. simpl.
      replace (trimmed + 1 + trim_count rest) with (trimmed + S (trim_count rest))
        by lia.
      reflexivity.
    + unfold ret. rewrite IH. simpl. rewrite <- !app_assoc. reflexivity.
Qed.

Lemma basic_clean_result (text : str) (st : state) :
  result (basic_clean text) st = clean_lines text.
Proof.
  unfold result, basic_clean, clean_lines, trim_input, strip_preamble, bind.
  destruct (log _ _ _ _ st) as [[] st1].
  destruct (find_preamble_index 0 (splitlines text)) as [[|i]|];
    unfold bind, log, ret; simpl; rewrite trim_loop_spec; simpl;
    destruct (pop_loop _ 0) as [rl d]; reflexivity.
Qed.

Lemma pop_loop_suffix (rl : list str) :
  forall d, exists dropped, rl = dropped ++ fst (pop_loop rl d).
Proof.
  induction rl as [|l rl IH]; intros d; simpl.
  - exists []. reflexivity.
  - destruct (is_plus_blank l).
    + destruct (IH (d + 1)) as (dr & E). exists (l :: dr). simpl. congruence.
    + exists []. reflexivity.
Qed.

Lemma clean_lines_incl (text : str) (l : str) :
  In l (clean_lines text) -> In l (map normalize_line (trim_input text)).
Proof.
  unfold clean_lines. intros H. apply in_rev in H.
  destruct (pop_loop_suffix (rev (map normalize_line (trim_input text))) 0)
    as (dr & E).
  apply in_rev. rewrite E. apply in_or_app. right. exact H.
Qed.

Lemma clean_lines_normalized (text : str) :
  Forall (fun l => l = rstrip l ++ [LF]) (clean_lines text).
Proof.
  apply Forall_forall. intros l H. apply clean_lines_incl in H.
  apply in_map_iff in H as (line & <- & _).
  rewrite rstrip_normalize_line. apply normalize_line_rstrip.
Qed.

(** ** The events of the cleaner *)

Lemma skipn_length_app {A} (a b : list A) : skipn (length a) (a ++ b) = b.
Proof.
  rewrite skipn_app, skipn_all, Nat.sub_diag. reflexivity.
Qed.

Lemma basic_clean_logged (text : str) (st : state) :
  exists pre post,
    logged (basic_clean text) st =
      pre ++ trim_events (CURRENT_ITERATION st) 1 (trim_input text) ++ post /\
    Forall (fun e => ~ is_trim_event e) (pre ++ post).
Proof.
  destruct st as [pl it].
  unfold logged, basic_clean, trim_input, strip_preamble, bind, is_trim_event.
  destruct (find_preamble_index 0 (splitlines text)) as [[|i]|];
    unfold bind, log, ret; simpl; rewrite trim_loop_spec; simpl;
    destruct (pop_loop _ 0) as [rl d]; simpl;
    rewrite <- !app_assoc, skipn_length_app; simpl;
    eexists [_; _], [_; _; _]; (split; [reflexivity|]);
    repeat constructor; simpl; discriminate.
Qed.

Lemma trim_events_In (it : nat) (lines : list str) :
  forall lineno e,
    In e (trim_events it lineno lines) <->
    exists i line,
      nth_error lines i = Some line /\ rstrip line <> line /\
      e = mkEntry "WHITESPACE_TRIMMED" "basic_clean"
                  "Trimmed trailing whitespace on line" it
                  [("line_number", VInt (lineno + i));
                   ("original_preview", VStr (preview line))].
Proof.
  induction lines as [|line rest IH]; intros lineno e; simpl.
  - split; [intros [] | intros ([|i] & l & H & _); discriminate H].
  - rewrite in_app_iff, IH. split.
    + intros [H | (i & l & Hn & Hr & He)].
      * destruct (str_eqb (rstrip line) line) eqn:E; simpl in H; [destruct H|].
        destruct H as [<- | []]. exists 0, line.
        rewrite Nat.add_0_r. apply str_eqb_neq in E. auto.
      * exists (S i), l. rewrite Nat.add_succ_r. auto.
    + intros ([|i] & l & Hn & Hr & He); simpl in Hn.
      * injection Hn as ->. left. apply str_eqb_neq in Hr. rewrite Hr. simpl.
        left. rewrite Nat.add_0_r in He. auto.
      * right. exists i, l. rewrite Nat.add_succ_r in He. auto.
Qed.

Lemma trim_event_In (text : str) (st : state) (e : entry) :
  In e (logged (basic_clean text) st) /\ is_trim_event e <->
  In e (trim_events (CURRENT_ITERATION st) 1 (trim_input text)).
Proof.
  destruct (basic_clean_logged text st) as (pre & post & -> & Hno).
  rewrite Forall_app, !Forall_forall in Hno. destruct Hno as [Hpre Hpost].
  rewrite !in_app_iff. split.
  - intros [[H | [H | H]] He]; [exfalso; eapply Hpre; eauto | exact H |
                                exfalso; eapply Hpost; eauto].
  - intros H. split; [auto|].
    apply trim_events_In in H as (i & l & _ & _ & ->). reflexivity.
Qed.

(** ** preview *)

Lemma escape_newlines_no_LF (s : str) : ~ In LF (escape_newlines s).
Proof.
  unfold escape_newlines. rewrite in_flat_map. intros (c & _ & H).
  destruct (is_LF c) eqn:E.
  - simpl in H. destruct H as [H | [H | []]]; discriminate H.
  - destruct H as [H | []]. subst c. discriminate E.
Qed.

Lemma preview_no_LF (s : str) : ~ In LF (preview s).
Proof.
  unfold preview, preview_max.
  destruct (length (escape_newlines s) <=? 80).
  - apply escape_newlines_no_LF.
  - rewrite in_app_iff. intros [H | H].
    + apply (escape_newlines_no_LF s).
      rewrite <- (firstn_skipn 80 (escape_newlines s)).
      apply in_or_app. left. exact H.
    + simpl in H. destruct H as [H | [H | [H | []]]]; discriminate H.
Qed.

Lemma preview_length (s : str) : length (preview s) <= 83.
Proof.
  unfold preview, preview_max.
  destruct (Nat.leb_spec (length (escape_newlines s)) 80).
  - lia.
  - rewrite length_app, length_firstn.
    change (length (lit "...")) with 3. lia.
Qed.

Lemma preview_short (s : str) :
  length (escape_newlines s) <= 80 -> preview s = escape_newlines s.
Proof.
  intros H. unfold preview, preview_max.
  apply Nat.leb_le in H. rewrite H. reflexivity.
Qed.

(** ** The cleaner: claims C9 and C10 *)

(** C10: every line [basic_clean] returns is its own [rstrip()] followed
    by a single "\n": it ends in one newline and has no other trailing
    whitespace. *)
Theorem basic_clean_lines_normalized (text : str) (st : state) :
  Forall (fun l => l = rstrip l ++ [LF] /\ rstrip (rstrip l) = rstrip l)
         (result (basic_clean text) st).
Proof.
  rewrite basic_clean_result.
  eapply Forall_impl; [|apply clean_lines_normalized].
  intros l H. split; [exact H|]. apply rstrip_with_idem.
Qed.

(** C9 fails on the code: for the one-line patch "diff --git a b\n" a
    trimming event is recorded for line 1, although the line the loop
    appends for it is the line itself.  The guard of the loop compares the
    line with its [rstrip()], which removes the line terminator too, so it
    holds of every line that ends with a newline. *)
Lemma trim_event_on_unchanged_line :
  ~ trim_events_iff_changed (lit "diff --git a b
") st0.
Proof.
  intros H.
  specialize (H 0 (lit "diff --git a b
") eq_refl).
  destruct H as [H _]. apply H; [|reflexivity].
  eexists. split; [|split].
  - vm_compute. right. right. left. reflexivity.
  - reflexivity.
  - left. reflexivity.
Qed.

(** The guard of the trimming loop as it is written: an event is
    recorded for a line exactly when the line differs from its own
    [rstrip()], its line terminator included; the event carries the line
    number and [preview] of the line. *)
Theorem trim_event_iff_trailing_whitespace
    (text : str) (st : state) (i : nat) (line : str) :
  nth_error (trim_input text) i = Some line ->
  (trim_event_recorded text st (S i) <-> rstrip line <> line) /\
  (forall e, In e (logged (basic_clean text) st) -> is_trim_event e ->
             In ("line_number", VInt (S i)) (data e) ->
             data e = [("line_number", VInt (S i));
                       ("original_preview", VStr (preview line))]) /\
  length (preview line) <= 83 /\
  ~ In LF (preview line) /\
  (length (escape_newlines line) <= 80 -> preview line = escape_newlines line).
Proof.
  intros Hn.
  assert (Hev : forall e,
    In e (logged (basic_clean text) st) -> is_trim_event e ->
    In ("line_number", VInt (S i)) (data e) ->
    rstrip line <> line /\
    data e = [("line_number", VInt (S i));
              ("original_preview", VStr (preview line))]).
  { intros e He Ht Hd.
    assert (H : In e (trim_events (CURRENT_ITERATION st) 1 (trim_input text)))
      by (apply trim_event_In; auto).
    apply trim_events_In in H as (j & l & Hj & Hr & ->). simpl in Hd.
    destruct Hd as [Hd | [Hd | []]]; [|discriminate Hd].
    injection Hd as Hd. subst j. rewrite Hn in Hj. injection Hj as <-.
    split; [exact Hr | reflexivity]. }
  repeat split.
  - intros (e & He & Ht & Hd). apply (Hev e He Ht Hd).
  - intros Hr.
    exists (mkEntry "WHITESPACE_TRIMMED" "basic_clean"
                    "Trimmed trailing whitespace on line" (CURRENT_ITERATION st)
                    [("line_number", VInt (1 + i));
                     ("original_preview", VStr (preview line))]).
    split; [|split; [reflexivity | left; reflexivity]].
    apply trim_event_In. apply trim_events_In. exists i, line. auto.
  - intros e He Ht Hd. apply (Hev e He Ht Hd).
  - apply preview_length.
  - apply preview_no_LF.
  - apply preview_short.
Qed.

Lemma trim_event_iff_trailing_whitespace_witness :
  nth_error (trim_input (lit "diff --git a b  
")) 0 = Some (lit "diff --git a b  
") /\
  (trim_event_recorded (lit "diff --git a b  
") st0 1 <-> rstrip (lit "diff --git a b  
") <> lit "diff --git a b  
").
Proof.
  split; [reflexivity|].
  apply (@trim_event_iff_trailing_whitespace
           (lit "diff --git a b  
") st0 0 (lit "diff --git a b  
")).
  reflexivity.
Defined.

(** ** Decimal numerals *)

Lemma int_of_chars_of_uint (d : Decimal.uint) :
  forall acc,
    fold_left (fun acc c => 10 * acc + digit_value c) (chars_of_uint d) acc =
    Nat.of_uint_acc d acc.
Proof.
  induction d; intros acc; simpl; try reflexivity;
    rewrite IHd, Nat.tail_mul_spec; f_equal;
    unfold digit_value; rewrite nat_ascii_embedding by lia; simpl; lia.
Qed.

(** [int(str(n)) == n] *)
Lemma int_of_digits_str_of_int (n : nat) : int_of_digits (str_of_int n) = n.
Proof.
  unfold int_of_digits, str_of_int. rewrite int_of_chars_of_uint.
  apply DecimalNat.Unsigned.of_to.
Qed.

Lemma chars_of_uint_digits (d : Decimal.uint) :
  forallb is_digit (chars_of_uint d) = true.
Proof. induction d; simpl; auto. Qed.

Lemma revapp_not_Nil (d acc : Decimal.uint) :
  acc <> Decimal.Nil -> Decimal.revapp d acc <> Decimal.Nil.
Proof.
  revert acc; induction d; intros acc H; simpl; auto;
    apply IHd; discriminate.
Qed.

Lemma little_succ_not_Nil (d : Decimal.uint) :
  Decimal.Little.succ d <> Decimal.Nil.
Proof. destruct d; simpl; discriminate. Qed.

Lemma to_little_uint_not_Nil (n : nat) :
  forall acc, acc <> Decimal.Nil -> Nat.to_little_uint n acc <> Decimal.Nil.
Proof.
  induction n; intros acc H; simpl; auto.
  apply IHn, little_succ_not_Nil.
Qed.

Lemma str_of_int_not_nil (n : nat) : str_of_int n <> [].
Proof.
  unfold str_of_int, Nat.to_uint, Decimal.rev.
  pose proof (@to_little_uint_not_Nil n Decimal.zero) as H.
  destruct (Nat.to_little_uint n Decimal.zero) eqn:E;
    try (exfalso; apply H; [discriminate | reflexivity]);
    simpl;
    match goal with
    | |- chars_of_uint (Decimal.revapp ?d ?acc) <> [] =>
        pose proof (@revapp_not_Nil d acc) as H';
        destruct (Decimal.revapp d acc);
        [exfalso; apply H'; [discriminate | reflexivity] | simpl; discriminate ..]
    end.
Qed.

Lemma str_of_int_digits (n : nat) : forallb is_digit (str_of_int n) = true.
Proof. apply chars_of_uint_digits. Qed.

(** ** The matcher *)

Lemma rmatch_Chr (c : ascii) (p : list tok) (s : str) :
  rmatch (Chr c :: p) (c :: s) =
  match rmatch p s with
  | Some (g, n) => Some (g, S n)
  | None => None
  end.
Proof. simpl. rewrite Ascii.eqb_refl. reflexivity. Qed.

Lemma rmatch_Chr_inv (c : ascii) (p : list tok) (s : str) g n :
  rmatch (Chr c :: p) s = Some (g, n) ->
  exists s' n', s = c :: s' /\ n = S n' /\ rmatch p s' = Some (g, n').
Proof.
  simpl. destruct s as [|x s']; [discriminate|].
  destruct (Ascii.eqb x c) eqn:E; [|discriminate].
  apply Ascii.eqb_eq in E. subst x.
  destruct (rmatch p s') as [[g' n']|] eqn:E; [|discriminate].
  intros H. injection H as <- <-. eauto.
Qed.

Lemma takewhile_app_stop (q : ascii -> bool) (d s : str) :
  forallb q d = true -> starts_without q s -> takewhile q (d ++ s) = d.
Proof.
  intros Hd Hs. induction d as [|c d IH]; simpl in *.
  - destruct s as [|x s]; simpl; [reflexivity|].
    unfold starts_without in Hs. rewrite Hs. reflexivity.
  - apply andb_true_iff in Hd as [Hc Hd]. rewrite Hc, IH by exact Hd.
    reflexivity.
Qed.

(** A [\d+] in front of text that starts with all the digits [d], when
    the rest of the pattern matches what follows them: the first try of
    the greedy matcher succeeds. *)
Lemma rmatch_Digits_greedy (p : list tok) (d s : str) g n :
  d <> [] -> forallb is_digit d = true -> starts_without is_digit s ->
  rmatch p s = Some (g, n) ->
  rmatch (Digits :: p) (d ++ s) = Some (d :: g, length d + n).
Proof.
  intros Hne Hd Hs Hm.
  change (rmatch (Digits :: p) (d ++ s))
    with (give_back (rmatch p) (d ++ s) (length (takewhile is_digit (d ++ s)))).
  rewrite takewhile_app_stop by assumption.
  assert (Hk : exists k, length d = S k)
    by (destruct d; [congruence | simpl; eauto]).
  destruct Hk as (k & Hk). rewrite Hk. cbn [give_back]. rewrite <- Hk.
  rewrite skipn_app, skipn_all, Nat.sub_diag. simpl skipn.
  rewrite app_nil_l, Hm.
  rewrite firstn_app, firstn_all, Nat.sub_diag. simpl firstn.
  rewrite app_nil_r. reflexivity.
Qed.

Lemma give_back_bound (rest : str -> option (list str * nat)) (s : str) :
  (forall t g n, rest t = Some (g, n) -> n <= length t) ->
  forall k g n, k <= length s -> give_back rest s k = Some (g, n) ->
                1 <= n <= length s.
Proof.
  intros Hrest. induction k as [|k IH]; intros g n Hk H; cbn [give_back] in H.
  - discriminate.
  - destruct (rest (skipn (S k) s)) as [[g' n']|] eqn:E.
    + injection H as <- <-. apply Hrest in E.
      rewrite length_skipn in E. lia.
    + apply (IH g n); [lia | exact H].
Qed.

Lemma takewhile_length (q : ascii -> bool) (s : str) :
  length (takewhile q s) <= length s.
Proof.
  induction s as [|c s IH]; simpl; [lia|]. destruct (q c); simpl; lia.
Qed.

(** A match lies within the text. *)
Lemma rmatch_bound (p : list tok) :
  forall s g n, rmatch p s = Some (g, n) -> n <= length s.
Proof.
  induction p as [|[c|] p IH]; intros s g n H.
  - injection H as <- <-. lia.
  - apply rmatch_Chr_inv in H as (s' & n' & -> & -> & H).
    apply IH in H. simpl. lia.
  - simpl in H. eapply give_back_bound in H; [lia | exact IH |].
    apply takewhile_length.
Qed.

Lemma span_header_re_nil : rmatch span_header_re [] = None.
Proof. reflexivity. Qed.

Lemma span_header_re_pos (s : str) g n :
  rmatch span_header_re s = Some (g, n) -> exists n', n = S n'.
Proof.
  intros H. apply rmatch_Chr_inv in H as (s' & n' & _ & -> & _). eauto.
Qed.

(** The text the repair writes is matched by the pattern, whatever
    follows it, and the groups are the two numerals written. *)
Lemma rmatch_span_header_text (expected_old expected_new : nat) (tail : str) :
  rmatch span_header_re (span_header_text expected_old expected_new ++ tail) =
  Some ([lit "0"; str_of_int expected_old; lit "0"; str_of_int expected_new],
        length (span_header_text expected_old expected_new)).
Proof.
  unfold span_header_text, span_header_re.
  rewrite <- !app_assoc.
  match goal with
  | |- _ = ?r =>
      change (rmatch
        (Chr "@" :: Chr "@" :: Chr " " :: Chr "-" :: Digits :: Chr "," :: Digits ::
         Chr " " :: Chr "+" :: Digits :: Chr "," :: Digits :: chars " @@")
        ("@"%char :: "@"%char :: " "%char :: "-"%char ::
           (lit "0" ++ ","%char ::
              (str_of_int expected_old ++ " "%char :: "+"%char ::
                 (lit "0" ++ ","%char ::
                    (str_of_int expected_new ++ lit " @@" ++ tail))))) = r)
  end.
  assert (H0 : lit "0" <> []) by discriminate.
  assert (H1 : rmatch (chars " @@") (lit " @@" ++ tail) = Some ([], 3))
    by reflexivity.
  rewrite !rmatch_Chr.
  erewrite rmatch_Digits_greedy;
    [ | exact H0 | reflexivity | reflexivity | ].
  2: { rewrite rmatch_Chr.
       erewrite rmatch_Digits_greedy;
         [ | apply str_of_int_not_nil | apply str_of_int_digits | reflexivity | ].
       2: { rewrite !rmatch_Chr.
            erewrite rmatch_Digits_greedy;
              [ | exact H0 | reflexivity | reflexivity | ].
            2: { rewrite rmatch_Chr.
                 erewrite rmatch_Digits_greedy;
                   [ | apply str_of_int_not_nil | apply str_of_int_digits
                     | reflexivity | exact H1 ].
                 reflexivity. }
            reflexivity. }
       reflexivity. }
  f_equal. f_equal. rewrite !length_app. simpl. lia.
Qed.

Lemma declared_spans_span_header_text (expected_old expected_new : nat) (tail : str) :
  declared_spans (span_header_text expected_old expected_new ++ tail) =
  Some (expected_old, expected_new).
Proof.
  unfold declared_spans, re_match. rewrite rmatch_span_header_text. simpl.
  rewrite !int_of_digits_str_of_int. reflexivity.
Qed.

(** ** The substitution *)

Lemma re_sub_from_skip (p : list tok) (repl : str) :
  rmatch p [] = None ->
  forall k s, re_sub_from p repl k s = re_sub_from p repl 0 (skipn k s).
Proof.
  intros Hnil. induction k as [|k IH]; intros s.
  - reflexivity.
  - destruct s as [|c s].
    + simpl. rewrite Hnil. reflexivity.
    + simpl skipn. rewrite <- IH. reflexivity.
Qed.

(** When the pattern matches at the start of the header, the substitution
    writes the replacement there and goes on in what follows the match. *)
Lemma re_sub_at_match (repl s : str) g n :
  rmatch span_header_re s = Some (g, n) ->
  re_sub span_header_re repl s =
  repl ++ re_sub span_header_re repl (skipn n s).
Proof.
  intros H. unfold re_sub.
  destruct (span_header_re_pos _ H) as (n' & ->).
  destruct s as [|c s]; [discriminate H|].
  cbn [re_sub_from]. rewrite H.
  rewrite re_sub_from_skip by apply span_header_re_nil. reflexivity.
Qed.

(** Text in which the pattern matches nowhere is left as it is. *)
Lemma re_sub_no_match (p : list tok) (repl s : str) :
  has_match p s = false -> re_sub p repl s = s.
Proof.
  unfold re_sub. induction s as [|c s IH]; simpl.
  - destruct (rmatch p []); [discriminate | reflexivity].
  - destruct (rmatch p (c :: s)); [discriminate|].
    intros H. rewrite IH by exact H. reflexivity.
Qed.

(** ** Counting body lines *)

Lemma count_kind_cons (k : kind) (line : str) (rest : list str) :
  count_kind k (line :: rest) =
  (if kind_eqb (classify line) k then 1 else 0) + count_kind k rest.
Proof.
  unfold count_kind. simpl. destruct (kind_eqb (classify line) k); reflexivity.
Qed.

Ltac pair_eq :=
  repeat match goal with |- (_, _) = (_, _) => f_equal end;
  first [reflexivity | lia].

(** [_count_body_lines] counts the lines of each kind. *)
Lemma count_loop_classify (lines : list str) :
  forall context removed added unexpected,
    count_loop lines context removed added unexpected =
    (context + count_kind Context lines,
     removed + count_kind Removed lines,
     added + count_kind Added lines,
     unexpected || negb (count_kind Unexpected lines =? 0)).
Proof.
  induction lines as [|line rest IH]; intros context removed added unexpected.
  - simpl. unfold count_kind. simpl. rewrite !Nat.add_0_r, orb_false_r.
    reflexivity.
  - cbn [count_loop]. rewrite !count_kind_cons. unfold classify.
    destruct (startswith line (lit " ")).
    { rewrite IH. simpl kind_eqb. cbn [Nat.add]. pair_eq. }
    destruct (startswith line (lit "-")).
    { rewrite IH. simpl kind_eqb. cbn [Nat.add]. pair_eq. }
    destruct (startswith line (lit "+") && negb (str_eqb (strip line) (lit "+"))).
    { rewrite IH. simpl kind_eqb. cbn [Nat.add]. pair_eq. }
    destruct (startswith line no_newline_marker).
    { rewrite IH. simpl kind_eqb. cbn [Nat.add]. reflexivity. }
    rewrite IH. simpl kind_eqb. cbn [Nat.add]. simpl Nat.eqb.
    rewrite orb_true_l, orb_true_r. reflexivity.
Qed.

Lemma count_body_lines_classify (hunk : Hunk.t) :
  _count_body_lines hunk =
  (count_kind Context (Hunk.body hunk),
   count_kind Removed (Hunk.body hunk),
   count_kind Added (Hunk.body hunk),
   negb (count_kind Unexpected (Hunk.body hunk) =? 0)).
Proof. unfold _count_body_lines. rewrite count_loop_classify. reflexivity. Qed.

Lemma expected_spans_classify (hunk : Hunk.t) :
  expected_spans hunk =
  (count_kind Context (Hunk.body hunk) + count_kind Removed (Hunk.body hunk),
   count_kind Context (Hunk.body hunk) + count_kind Added (Hunk.body hunk)).
Proof. unfold expected_spans. rewrite count_body_lines_classify. reflexivity. Qed.

Lemma has_unexpected_classify (hunk : Hunk.t) :
  has_unexpected hunk = negb (count_kind Unexpected (Hunk.body hunk) =? 0).
Proof. unfold has_unexpected. rewrite count_body_lines_classify. reflexivity. Qed.

Lemma spans_eqb_eq (a b : nat * nat) : spans_eqb a b = true <-> a = b.
Proof.
  destruct a as [a1 a2], b as [b1 b2]. unfold spans_eqb. simpl.
  rewrite andb_true_iff, !Nat.eqb_eq. split; [intros [-> ->] | intros E];
    [reflexivity | injection E; auto].
Qed.

(** ** validate_hunk without its log *)

Lemma validate_hunk_result (hunk : Hunk.t) (file_header : str)
    (allow_repairs : bool) (st : state) :
  result (validate_hunk hunk file_header allow_repairs) st =
  validate_outcome hunk allow_repairs.
Proof.
  unfold result, validate_hunk, validate_outcome, declared_spans,
    repaired_header, expected_spans, has_unexpected, spans_eqb.
  destruct (re_match span_header_re (Hunk.header hunk)) as [[g n]|];
    [|reflexivity].
  destruct (_count_body_lines hunk) as [[[c r] a] u]. simpl fst. simpl snd.
  unfold _maybe_fix_span_header.
  destruct (c + r =? int_of_digits (nth 1 g [])),
           (c + a =? int_of_digits (nth 3 g [])), u, allow_repairs;
    reflexivity.
Qed.

(** The codes [validate_hunk] logs. *)
Lemma validate_hunk_codes (hunk : Hunk.t) (file_header : str)
    (allow_repairs : bool) (st : state) :
  logged_codes (validate_hunk hunk file_header allow_repairs) st =
  match declared_spans (Hunk.header hunk) with
  | None => ["HUNK_INVALID_MALFORMED_HEADER"]
  | Some declared =>
      (if has_unexpected hunk then ["HUNK_INVALID_UNEXPECTED_LINE"] else []) ++
      (if has_unexpected hunk && negb allow_repairs then []
       else if spans_eqb (expected_spans hunk) declared then
         (if has_unexpected hunk then [] else ["HUNK_VALID"])
       else if allow_repairs then
         ["HUNK_HEADER_SPAN_REPAIRED"; "HUNK_VALID_AFTER_REPAIR"]
       else
         (if fst (expected_spans hunk) =? fst declared then []
          else ["HUNK_INVALID_OLD_SPAN_MISMATCH"]) ++
         (if snd (expected_spans hunk) =? snd declared then []
          else ["HUNK_INVALID_NEW_SPAN_MISMATCH"]))
  end.
Proof.
  destruct st as [pl it].
  unfold logged_codes, logged, validate_hunk, declared_spans,
    expected_spans, has_unexpected, spans_eqb.
  destruct (re_match span_header_re (Hunk.header hunk)) as [[g n]|].
  2: { unfold bind, log, ret. simpl. rewrite skipn_length_app. reflexivity. }
  destruct (_count_body_lines hunk) as [[[c r] a] u]. simpl fst. simpl snd.
  unfold _maybe_fix_span_header.
  destruct (c + r =? int_of_digits (nth 1 g [])),
           (c + a =? int_of_digits (nth 3 g [])), u, allow_repairs;
    unfold bind, log, ret; simpl;
    rewrite <- ?app_assoc, skipn_length_app; reflexivity.
Qed.

(** ** filter_or_repair_files without its log *)

Lemma hunks_loop_result (hunks : list Hunk.t) (file_header : str)
    (allow_repairs : bool) :
  forall valid_hunks st,
    result (hunks_loop hunks file_header allow_repairs valid_hunks) st =
    valid_hunks ++ valid_hunks_of allow_repairs hunks.
Proof.
  induction hunks as [|hunk rest IH]; intros valid_hunks st.
  - unfold result. simpl. rewrite app_nil_r. reflexivity.
  - unfold result. cbn [hunks_loop]. unfold bind.
    pose proof (validate_hunk_result hunk file_header allow_repairs st) as E.
    unfold result in E.
    destruct (validate_hunk hunk file_header allow_repairs st) as [[ok hunk'] st'].
    simpl in E. cbn [valid_hunks_of flat_map]. rewrite <- E.
    fold (result (hunks_loop rest file_header allow_repairs
                    (if ok then valid_hunks ++ [hunk'] else valid_hunks)) st').
    rewrite IH. destruct ok; [rewrite <- app_assoc|]; reflexivity.
Qed.

Lemma files_loop_result (file_diffs : list FileDiff.t) (allow_repairs : bool) :
  forall acc st,
    result (files_loop file_diffs allow_repairs acc) st =
    acc ++ filter_files allow_repairs file_diffs.
Proof.
  induction file_diffs as [|file_diff rest IH]; intros acc st.
  - unfold result. simpl. rewrite app_nil_r. reflexivity.
  - unfold result. cbn [files_loop]. unfold bind.
    pose proof (hunks_loop_result (FileDiff.hunks file_diff)
                  (FileDiff.header file_diff) allow_repairs [] st) as E.
    unfold result in E.
    destruct (hunks_loop (FileDiff.hunks file_diff) (FileDiff.header file_diff)
                allow_repairs [] st) as [valid_hunks st'].
    simpl in E. cbn [filter_files flat_map]. rewrite <- E.
    destruct valid_hunks as [|h hs].
    + unfold bind. destruct (log _ _ _ _ st') as [[] st''].
      fold (result (files_loop rest allow_repairs acc) st''). apply IH.
    + fold (result (files_loop rest allow_repairs
                      (acc ++ [FileDiff.set_hunks (h :: hs) file_diff])) st').
      rewrite IH, <- app_assoc. reflexivity.
Qed.

Lemma filter_or_repair_files_result (file_diffs : list FileDiff.t)
    (allow_repairs : bool) (st : state) :
  result (filter_or_repair_files file_diffs allow_repairs) st =
  filter_files allow_repairs file_diffs.
Proof.
  unfold result, filter_or_repair_files, bind.
  pose proof (files_loop_result file_diffs allow_repairs [] st) as E.
  unfold result in E.
  destruct (files_loop file_diffs allow_repairs [] st) as [r st'].
  simpl in E. subst r. reflexivity.
Qed.

(** ** The validator: claims C1, C2, C4, C6, C7 and C8 *)

(** C1: with repairs disallowed, [validate_hunk] returns true exactly when
    the header declares spans, the context and removed lines together are
    as many as the old span, the context and added lines together are as
    many as the new span, and no line is unexpected; the no-newline marker
    is in neither count.  The hunk is left as it was. *)
Theorem validate_without_repairs_iff (hunk : Hunk.t) (file_header : str)
    (st : state) :
  (fst (result (validate_hunk hunk file_header false) st) = true <->
   exists old_span new_span,
     declared_spans (Hunk.header hunk) = Some (old_span, new_span) /\
     count_kind Context (Hunk.body hunk) + count_kind Removed (Hunk.body hunk)
       = old_span /\
     count_kind Context (Hunk.body hunk) + count_kind Added (Hunk.body hunk)
       = new_span /\
     count_kind Unexpected (Hunk.body hunk) = 0) /\
  snd (result (validate_hunk hunk file_header false) st) = hunk.
Proof.
  rewrite validate_hunk_result. unfold validate_outcome.
  rewrite has_unexpected_classify, expected_spans_classify.
  destruct (declared_spans (Hunk.header hunk)) as [[old_span new_span]|].
  - destruct (spans_eqb _ (old_span, new_span)) eqn:E.
    + apply spans_eqb_eq in E. injection E as E1 E2. simpl. split; [|reflexivity].
      rewrite negb_involutive, Nat.eqb_eq. split.
      * intros H. exists old_span, new_span. auto.
      * intros (o & n & _ & _ & _ & H). exact H.
    + simpl. split; [|reflexivity]. split; [discriminate|].
      intros (o & n & Hd & Ho & Hn & _). injection Hd as <- <-.
      apply not_true_iff_false in E. exfalso. apply E. apply spans_eqb_eq.
      rewrite Ho, Hn. reflexivity.
  - simpl. split; [|reflexivity]. split; [discriminate|].
    intros (o & n & Hd & _). discriminate Hd.
Qed.

(** C2: a hunk with a well-formed header, a span mismatch and no
    unexpected line, validated with repairs allowed, is retained; its
    header then declares exactly the counted spans; the events end with
    the repair and "valid after repair"; its body is untouched. *)
Theorem span_repair_makes_header_consistent (hunk : Hunk.t)
    (file_header : str) (st : state) (declared : nat * nat) :
  declared_spans (Hunk.header hunk) = Some declared ->
  has_unexpected hunk = false ->
  expected_spans hunk <> declared ->
  let hunk' := snd (result (validate_hunk hunk file_header true) st) in
  fst (result (validate_hunk hunk file_header true) st) = true /\
  declared_spans (Hunk.header hunk') = Some (expected_spans hunk) /\
  expected_spans hunk' = expected_spans hunk /\
  Hunk.body hunk' = Hunk.body hunk /\
  logged_codes (validate_hunk hunk file_header true) st =
    ["HUNK_HEADER_SPAN_REPAIRED"; "HUNK_VALID_AFTER_REPAIR"].
Proof.
  intros Hd Hu Hne. cbv zeta.
  rewrite validate_hunk_result, validate_hunk_codes.
  unfold validate_outcome. rewrite Hd, Hu.
  assert (E : spans_eqb (expected_spans hunk) declared = false).
  { apply not_true_iff_false. rewrite spans_eqb_eq. exact Hne. }
  rewrite E. simpl. repeat split.
  unfold repaired_header.
  unfold declared_spans, re_match in Hd.
  destruct (rmatch span_header_re (Hunk.header hunk)) as [[g n]|] eqn:Hm;
    [|discriminate].
  erewrite re_sub_at_match by exact Hm.
  rewrite declared_spans_span_header_text.
  destruct (expected_spans hunk); reflexivity.
Qed.

Lemma span_repair_makes_header_consistent_witness :
  fst (result (validate_hunk scenario_hunk scenario_file_header true) st0) = true /\
  declared_spans
    (Hunk.header
       (snd (result (validate_hunk scenario_hunk scenario_file_header true) st0))) =
  Some (1, 3).
Proof.
  destruct (@span_repair_makes_header_consistent
              scenario_hunk scenario_file_header st0 (2, 3))
    as (H1 & H2 & _).
  - reflexivity.
  - reflexivity.
  - vm_compute. discriminate.
  - split; [exact H1 | exact H2].
Defined.

(** C4 as it is stated fails: repairing the hunk of the scenario, whose
    header is "@@ -1,2 +1,3 @@", turns both start offsets from 1 to 0. *)
Lemma repair_resets_start_offsets :
  ~ repair_keeps_starts scenario_hunk scenario_file_header st0.
Proof. unfold repair_keeps_starts. vm_compute. discriminate. Qed.

(** C4, amended: when [validate_hunk] repairs a span mismatch, the header
    it leaves starts with "@@ -0,<expected_old> +0,<expected_new> @@" in
    place of the text the pattern matched, so both start offsets are
    written as 0; what followed the match comes after it, unchanged when
    the pattern matches nowhere in it; the body is untouched. *)
Theorem span_repair_rewrites_leading_match (hunk : Hunk.t)
    (file_header : str) (st : state) (groups : list str) (n : nat) :
  re_match span_header_re (Hunk.header hunk) = Some (groups, n) ->
  Some (expected_spans hunk) <> declared_spans (Hunk.header hunk) ->
  let hunk' := snd (result (validate_hunk hunk file_header true) st) in
  let trailing := skipn n (Hunk.header hunk) in
  (exists trailing',
     Hunk.header hunk' =
       span_header_text (fst (expected_spans hunk)) (snd (expected_spans hunk))
       ++ trailing' /\
     (has_match span_header_re trailing = false -> trailing' = trailing)) /\
  declared_starts (Hunk.header hunk') = Some (lit "0", lit "0") /\
  Hunk.body hunk' = Hunk.body hunk.
Proof.
  intros Hm Hne. cbv zeta. rewrite validate_hunk_result.
  unfold validate_outcome.
  destruct (declared_spans (Hunk.header hunk)) as [declared|] eqn:Hd.
  2: { unfold declared_spans in Hd. rewrite Hm in Hd. discriminate Hd. }
  assert (E : spans_eqb (expected_spans hunk) declared = false).
  { apply not_true_iff_false. rewrite spans_eqb_eq. congruence. }
  rewrite E. simpl. unfold repaired_header. unfold re_match in Hm.
  erewrite re_sub_at_match by exact Hm.
  repeat split.
  - eexists. split; [reflexivity|]. apply re_sub_no_match.
  - unfold declared_starts, re_match. rewrite rmatch_span_header_text.
    reflexivity.
Qed.

Lemma span_repair_rewrites_leading_match_witness :
  Hunk.header
    (snd (result (validate_hunk scenario_hunk scenario_file_header true) st0)) =
  lit "@@ -0,1 +0,3 @@
".
Proof.
  destruct (@span_repair_rewrites_leading_match
              scenario_hunk scenario_file_header st0
              [lit "1"; lit "2"; lit "1"; lit "3"] 15)
    as ((trailing' & H1 & H2) & _).
  - reflexivity.
  - vm_compute. discriminate.
  - rewrite H1, H2; reflexivity.
Defined.

(** C6: a hunk whose header the pattern does not match is rejected
    whether or not repairs are allowed, and is left as it was, with the
    one event "malformed header"; a file that has only such a hunk is not
    in the files [filter_or_repair_files] returns, which are those it
    returns without that file. *)
Theorem malformed_header_always_rejected (hunk : Hunk.t) (file_header : str)
    (allow_repairs : bool) (st : state) :
  re_match span_header_re (Hunk.header hunk) = None ->
  result (validate_hunk hunk file_header allow_repairs) st = (false, hunk) /\
  logged_codes (validate_hunk hunk file_header allow_repairs) st =
    ["HUNK_INVALID_MALFORMED_HEADER"] /\
  forall (file_diff : FileDiff.t) (before after : list FileDiff.t) (st' : state),
    FileDiff.hunks file_diff = [hunk] ->
    result (filter_or_repair_files (before ++ file_diff :: after) allow_repairs) st' =
    result (filter_or_repair_files (before ++ after) allow_repairs) st'.
Proof.
  intros Hm.
  assert (Hd : declared_spans (Hunk.header hunk) = None)
    by (unfold declared_spans; rewrite Hm; reflexivity).
  rewrite validate_hunk_result, validate_hunk_codes.
  unfold validate_outcome. rewrite Hd. repeat split.
  intros file_diff before after st' Hh.
  rewrite !filter_or_repair_files_result. unfold filter_files.
  rewrite !flat_map_app. f_equal. cbn [flat_map]. rewrite Hh.
  unfold valid_hunks_of. cbn [flat_map]. unfold validate_outcome.
  rewrite Hd. reflexivity.
Qed.

Lemma malformed_header_always_rejected_witness :
  result (validate_hunk garbage_hunk scenario_file_header true) st0 =
    (false, garbage_hunk) /\
  result (filter_or_repair_files
            [FileDiff.mk scenario_file_header [] [garbage_hunk]] true) st0 = [].
Proof.
  destruct (@malformed_header_always_rejected
              garbage_hunk scenario_file_header true st0) as (H1 & _ & H3).
  - reflexivity.
  - split; [exact H1|].
    apply (H3 (FileDiff.mk scenario_file_header [] [garbage_hunk]) [] [] st0).
    reflexivity.
Defined.

(** C7: with repairs allowed, a hunk with a well-formed header and an
    unexpected body line is retained exactly when its declared spans
    differ from the counted ones, which is exactly when the span repair is
    applied: the event of the repair is logged and the header is
    rewritten, so that it differs from the old one and declares the
    counted spans, the body staying as it was; "valid" is never among its
    events; when the spans already match it is rejected and left as it
    was. *)
Theorem unexpected_line_retained_iff_repaired (hunk : Hunk.t)
    (file_header : str) (st : state) (declared : nat * nat) :
  declared_spans (Hunk.header hunk) = Some declared ->
  has_unexpected hunk = true ->
  (fst (result (validate_hunk hunk file_header true) st) = true <->
   expected_spans hunk <> declared) /\
  (fst (result (validate_hunk hunk file_header true) st) = true <->
   In "HUNK_HEADER_SPAN_REPAIRED"
      (logged_codes (validate_hunk hunk file_header true) st)) /\
  ~ In "HUNK_VALID" (logged_codes (validate_hunk hunk file_header true) st) /\
  (expected_spans hunk = declared ->
   result (validate_hunk hunk file_header true) st = (false, hunk)) /\
  (fst (result (validate_hunk hunk file_header true) st) = true ->
   let hunk' := snd (result (validate_hunk hunk file_header true) st) in
   Hunk.header hunk' =
     re_sub span_header_re
            (span_header_text (fst (expected_spans hunk))
                              (snd (expected_spans hunk)))
            (Hunk.header hunk) /\
   declared_spans (Hunk.header hunk') = Some (expected_spans hunk) /\
   Hunk.header hunk' <> Hunk.header hunk /\
   Hunk.body hunk' = Hunk.body hunk).
Proof.
  intros Hd Hu. rewrite validate_hunk_result, validate_hunk_codes.
  unfold validate_outcome. rewrite Hd, Hu.
  destruct (spans_eqb (expected_spans hunk) declared) eqn:E; simpl.
  - apply spans_eqb_eq in E. repeat split; try discriminate; try congruence.
    + intros [H | []]. discriminate H.
    + intros [H | []]. discriminate H.
  - apply not_true_iff_false in E. rewrite spans_eqb_eq in E.
    assert (Hr : declared_spans (repaired_header hunk) =
                 Some (expected_spans hunk)).
    { unfold repaired_header. unfold declared_spans, re_match in Hd.
      destruct (rmatch span_header_re (Hunk.header hunk)) as [[g n]|] eqn:Hm;
        [|discriminate].
      erewrite re_sub_at_match by exact Hm.
      rewrite declared_spans_span_header_text.
      destruct (expected_spans hunk); reflexivity. }
    split; [split; auto|]. split; [split; auto|].
    split; [intros [H | [H | [H | []]]]; discriminate H|].
    split; [congruence|]. intros _.
    split; [reflexivity|]. split; [exact Hr|]. split; [|reflexivity].
    intros Heq. fold (repaired_header hunk) in Heq.
    rewrite Heq, Hd in Hr. congruence.
Qed.

Lemma unexpected_line_retained_iff_repaired_witness :
  fst (result (validate_hunk salvaged_hunk scenario_file_header true) st0) = true /\
  ~ In "HUNK_VALID"
      (logged_codes (validate_hunk salvaged_hunk scenario_file_header true) st0) /\
  declared_spans
    (Hunk.header
       (snd (result (validate_hunk salvaged_hunk scenario_file_header true) st0))) =
  Some (1, 1).
Proof.
  destruct (@unexpected_line_retained_iff_repaired
              salvaged_hunk scenario_file_header st0 (5, 5))
    as (H1 & _ & H3 & _ & H5).
  - reflexivity.
  - reflexivity.
  - assert (Hok : fst (result (validate_hunk salvaged_hunk scenario_file_header
                                             true) st0) = true)
      by (apply H1; vm_compute; discriminate).
    split; [exact Hok|]. split; [exact H3|].
    destruct (H5 Hok) as (_ & H & _). exact H.
Defined.

(** C8 as it is stated fails: with repairs allowed, the hunk without
    body lines whose header is "@@ -1,2 +1,3 @@" is accepted. *)
Lemma empty_hunk_accepted_with_nonzero_spans :
  ~ empty_hunk_accepted_iff_zero_spans empty_hunk scenario_file_header true st0.
Proof.
  intros H. specialize (H eq_refl). destruct H as [H _].
  specialize (H eq_refl). vm_compute in H. discriminate H.
Qed.

(** C8, amended: a hunk without body lines is accepted, when repairs are
    disallowed, exactly when its header declares the spans 0 and 0; when
    repairs are allowed, exactly when its header is well-formed, and the
    header it is left with declares the spans 0 and 0. *)
Theorem empty_hunk_accepted_iff (hunk : Hunk.t) (file_header : str)
    (st : state) :
  Hunk.body hunk = [] ->
  (fst (result (validate_hunk hunk file_header false) st) = true <->
   declared_spans (Hunk.header hunk) = Some (0, 0)) /\
  (fst (result (validate_hunk hunk file_header true) st) = true <->
   declared_spans (Hunk.header hunk) <> None) /\
  (fst (result (validate_hunk hunk file_header true) st) = true ->
   declared_spans
     (Hunk.header (snd (result (validate_hunk hunk file_header true) st))) =
   Some (0, 0)).
Proof.
  intros Hb. rewrite !validate_hunk_result. unfold validate_outcome.
  assert (He : expected_spans hunk = (0, 0))
    by (unfold expected_spans, _count_body_lines; rewrite Hb; reflexivity).
  assert (Hu : has_unexpected hunk = false)
    by (unfold has_unexpected, _count_body_lines; rewrite Hb; reflexivity).
  rewrite Hu.
  destruct (declared_spans (Hunk.header hunk)) as [declared|] eqn:Hd.
  2: { simpl. repeat split; try discriminate; congruence. }
  destruct (spans_eqb (expected_spans hunk) declared) eqn:E; simpl.
  - apply spans_eqb_eq in E. rewrite He in E. subst declared.
    repeat split; auto; discriminate.
  - assert (declared <> (0, 0)).
    { intros ->. rewrite He in E. discriminate E. }
    repeat split; try discriminate; try congruence.
    intros _. unfold repaired_header.
    unfold declared_spans, re_match in Hd.
    destruct (rmatch span_header_re (Hunk.header hunk)) as [[g n]|] eqn:Hm;
      [|discriminate].
    erewrite re_sub_at_match by exact Hm.
    rewrite declared_spans_span_header_text, He. reflexivity.
Qed.

Lemma empty_hunk_accepted_iff_witness :
  declared_spans
    (Hunk.header
       (snd (result (validate_hunk empty_hunk scenario_file_header true) st0))) =
  Some (0, 0).
Proof.
  destruct (@empty_hunk_accepted_iff empty_hunk scenario_file_header st0 eq_refl)
    as (_ & H2 & H3).
  apply H3. apply H2. vm_compute. discriminate.
Defined.

(** ** The iteration controller: claim C5 *)

Lemma result_bind {A B} (m : M A) (k : A -> M B) (st : state) :
  result (bind m k) st = result (k (fst (m st))) (snd (m st)).
Proof. unfold result, bind. destruct (m st). reflexivity. Qed.

Section Iterative.

Variable git_apply_check : str -> bool * str.

(** After a loop of at least one round, [iteration] is bound to one of
    the rounds. *)
Lemma iterative_loop_iteration (rounds : list nat) :
  forall validate_with_git v st,
    rounds <> [] ->
    exists i,
      In i rounds /\
      Iter.iteration
        (result (iterative_loop git_apply_check rounds validate_with_git v) st)
      = Some i.
Proof.
  induction rounds as [|iteration rest IH]; intros validate_with_git v st Hne.
  - congruence.
  - cbn [iterative_loop]. rewrite !result_bind.
    match goal with
    | |- context [if option_str_eqb ?a ?b then _ else _] =>
        destruct (option_str_eqb a b)
    end.
    { rewrite result_bind. exists iteration. split; [left|]; reflexivity. }
    match goal with
    | |- context [if option_str_eqb ?a ?b then _ else _] =>
        destruct (option_str_eqb a b)
    end.
    { rewrite result_bind. exists iteration. split; [left|]; reflexivity. }
    rewrite result_bind. destruct rest as [|next rest'].
    + exists iteration. split; [left|]; reflexivity.
    + match goal with
      | |- context [result (iterative_loop _ _ ?g ?w) ?s] =>
          destruct (IH g w s) as (i & Hi & E); [discriminate|]
      end.
      exists i. split; [right; exact Hi | exact E].
Qed.

(** With a cap of at least 1, [run_iterative] returns a plan and the
    [iterations_run] of its summary is at most the cap. *)
Lemma run_iterative_within_cap (original : str) (validate_with_git : bool)
    (max_iterations : Z) (st : state) :
  (1 <= max_iterations)%Z ->
  exists p k,
    snd (result (run_iterative git_apply_check original validate_with_git
                               max_iterations) st) = Returns p /\
    In ("iterations_run", VInt k) (summary p) /\
    (Z.of_nat k <= max_iterations)%Z.
Proof.
  intros Hmax. unfold run_iterative. rewrite result_bind.
  destruct (@iterative_loop_iteration (seq 0 (Z.to_nat max_iterations))
              validate_with_git (Iter.mk original None None None) st)
    as (i & Hi & E).
  { destruct (Z.to_nat max_iterations) eqn:En; [lia | discriminate]. }
  unfold result in E. rewrite E. rewrite !result_bind.
  eexists _, (i + 1). split; [reflexivity|]. split; [left; reflexivity|].
  apply in_seq in Hi. lia.
Qed.

(** C5 fails on the code for a cap of 0: the loop body never runs, the
    variable [iteration] is unbound when the summary reads it, and
    [run_iterative] raises instead of returning a plan. *)
Theorem run_iterative_zero_cap_raises (original : str)
    (validate_with_git : bool) (st : state) :
  result (run_iterative git_apply_check original validate_with_git 0) st =
  (original, Raises "UnboundLocalError").
Proof. reflexivity. Qed.

End Iterative.

(** ** The pass: claim C3 *)

(** *** Each stage without its log *)

Lemma parse_line_result (lineno : nat) (line : str) (p : parser) (st : state) :
  result (parse_line lineno line p) st = parse_step p line.
Proof.
  unfold result, parse_line, parse_step.
  destruct (startswith line diff_git); [reflexivity|].
  destruct (negb (current_file p)); [reflexivity|].
  destruct (startswith line hunk_marker); [reflexivity|].
  destruct (current_hunk p); reflexivity.
Qed.

Lemma parse_loop_result (lines : list str) :
  forall lineno p st,
    result (parse_loop lineno lines p) st = fold_left parse_step lines p.
Proof.
  induction lines as [|line rest IH]; intros lineno p st.
  - reflexivity.
  - cbn [parse_loop fold_left]. rewrite result_bind, IH.
    fold (result (parse_line lineno line p) st).
    rewrite parse_line_result. reflexivity.
Qed.

Lemma parse_diff_result (lines : list str) (st : state) :
  result (parse_diff lines) st = parse_files lines.
Proof.
  unfold parse_diff, parse_files. rewrite result_bind.
  fold (result (parse_loop 1 lines (mkParser [] false false)) st).
  rewrite parse_loop_result. reflexivity.
Qed.

Lemma render_patch_result (file_diffs : list FileDiff.t) (st : state) :
  result (render_patch file_diffs) st = render file_diffs.
Proof. reflexivity. Qed.

Lemma run_apply_once_result (git_apply_check : str -> bool * str)
    (original : str) (validate_with_git : bool) (st : state) :
  fst (result (run_apply_once git_apply_check original validate_with_git) st) =
  repair_pass original.
Proof.
  unfold run_apply_once, repair_pass.
  rewrite result_bind.
  fold (result (basic_clean original) st). rewrite basic_clean_result.
  rewrite result_bind.
  match goal with
  | |- context [fst (parse_diff ?l ?s)] =>
      fold (result (parse_diff l) s); rewrite parse_diff_result
  end.
  rewrite result_bind.
  match goal with
  | |- context [fst (filter_or_repair_files ?l ?b ?s)] =>
      fold (result (filter_or_repair_files l b) s);
      rewrite filter_or_repair_files_result
  end.
  rewrite result_bind.
  match goal with
  | |- context [fst (render_patch ?l ?s)] =>
      fold (result (render_patch l) s); rewrite render_patch_result
  end.
  rewrite !result_bind. reflexivity.
Qed.

Lemma retained_files_eq (text : str) :
  retained_files text = filter_files true (parse_files (clean_lines text)).
Proof.
  unfold retained_files.
  rewrite filter_or_repair_files_result, parse_diff_result, basic_clean_result.
  reflexivity.
Qed.

(** C3 as it is stated fails: the pass retains, through the span repair,
    the hunk of [salvaged_patch] with its line of no known kind, and the
    next pass, which finds the spans right, rejects it: the second render
    is empty. *)
Lemma salvaged_hunk_dropped_by_second_pass :
  ~ render_is_fixed_point git_always_ok salvaged_patch.
Proof. unfold render_is_fixed_point. vm_compute. discriminate. Qed.

(** *** splitlines *)

Lemma is_CR_linebreak (c : ascii) : is_CR c = true -> is_linebreak c = true.
Proof. intros H. apply Ascii.eqb_eq in H. subst c. reflexivity. Qed.

Lemma not_linebreak_not_CR (c : ascii) : is_linebreak c = false -> is_CR c = false.
Proof.
  intros H. destruct (is_CR c) eqn:E; [|reflexivity].
  apply is_CR_linebreak in E. congruence.
Qed.

Lemma splitlines_from_shape (n : nat) :
  forall s cur,
    length s <= n ->
    Forall (fun c => is_linebreak c = false) cur ->
    Forall split_line (splitlines_from cur s).
Proof.
  induction n as [|n IH]; intros s cur Hlen Hcur.
  - destruct s; [|simpl in Hlen; lia]. simpl.
    destruct cur; constructor; [|constructor].
    exists (a :: cur), []. rewrite app_nil_r. auto.
  - destruct s as [|c s]; simpl.
    { destruct cur; constructor; [|constructor].
      exists (a :: cur), []. rewrite app_nil_r. auto. }
    simpl in Hlen.
    destruct (is_CR c) eqn:Ecr.
    + destruct s as [|d s].
      * constructor; [|constructor]. exists cur, [c]. repeat split; auto.
        simpl. rewrite (is_CR_linebreak _ Ecr). reflexivity.
      * destruct (is_LF d) eqn:Elf.
        -- constructor.
           ++ exists cur, [c; d]. repeat split; auto. simpl.
              rewrite (is_CR_linebreak _ Ecr).
              apply is_LF_eq in Elf. subst d. reflexivity.
           ++ apply IH; [simpl in Hlen; lia | constructor].
        -- constructor.
           ++ exists cur, [c]. repeat split; auto. simpl.
              rewrite (is_CR_linebreak _ Ecr). reflexivity.
           ++ apply IH; [lia | constructor].
    + destruct (is_linebreak c) eqn:Elb.
      * constructor.
        -- exists cur, [c]. repeat split; auto. simpl. rewrite Elb. reflexivity.
        -- apply IH; [lia | constructor].
      * apply IH; [lia|]. apply Forall_app. split; [exact Hcur|].
        constructor; [exact Elb | constructor].
Qed.

Lemma splitlines_shape (s : str) : Forall split_line (splitlines s).
Proof. apply (@splitlines_from_shape (length s)); [lia | constructor]. Qed.

(** Reading text without line boundary up to its "\n" yields one line. *)
Lemma splitlines_from_line (x : str) :
  forall cur rest,
    Forall (fun c => is_linebreak c = false) x ->
    splitlines_from cur (x ++ LF :: rest) =
    (cur ++ x ++ [LF]) :: splitlines_from [] rest.
Proof.
  induction x as [|c x IH]; intros cur rest Hx.
  - reflexivity.
  - apply Forall_cons_iff in Hx as [Hc Hx]. simpl.
    rewrite (not_linebreak_not_CR _ Hc), Hc, IH by exact Hx.
    rewrite <- app_assoc. reflexivity.
Qed.

(** Cleaned lines joined and split again are the same lines. *)
Lemma splitlines_join (lines : list str) :
  Forall clean_line lines -> splitlines (join lines) = lines.
Proof.
  unfold splitlines, join. induction lines as [|l rest IH]; intros H.
  - reflexivity.
  - apply Forall_cons_iff in H as [(x & -> & Hx & _) Hrest]. simpl.
    rewrite <- app_assoc. simpl. rewrite splitlines_from_line by exact Hx.
    rewrite IH by exact Hrest. reflexivity.
Qed.

(** *** The lines of the cleaner are clean *)

Lemma normalize_line_clean (l : str) : split_line l -> clean_line (normalize_line l).
Proof.
  intros (x & t & -> & Hx & Ht). rewrite normalize_line_rstrip.
  exists (rstrip (x ++ t)). split; [reflexivity|].
  assert (E : rstrip (x ++ t) = rstrip x).
  { apply rstrip_with_app_all. eapply forallb_weaken; [|exact Ht].
    apply linebreak_is_space. }
  rewrite E. split.
  - apply rstrip_with_Forall, Hx.
  - apply rstrip_with_idem.
Qed.

Lemma skipn_incl {A} (n : nat) (l : list A) (x : A) : In x (skipn n l) -> In x l.
Proof.
  intros H. rewrite <- (firstn_skipn n l). apply in_or_app. right. exact H.
Qed.

Lemma strip_preamble_incl (lines : list str) (l : str) :
  In l (strip_preamble lines) -> In l lines.
Proof.
  unfold strip_preamble.
  destruct (find_preamble_index 0 lines) as [[|i]|]; auto.
  apply skipn_incl.
Qed.

Lemma clean_lines_clean (text : str) : Forall clean_line (clean_lines text).
Proof.
  apply Forall_forall. intros l H. apply clean_lines_incl in H.
  apply in_map_iff in H as (l0 & <- & H0).
  apply normalize_line_clean.
  apply strip_preamble_incl in H0.
  pose proof (splitlines_shape text) as Hs.
  rewrite Forall_forall in Hs. apply Hs, H0.
Qed.

Lemma normalize_clean_line (l : str) : clean_line l -> normalize_line l = l.
Proof.
  intros (x & -> & _ & Hx). rewrite normalize_line_rstrip.
  unfold rstrip in *. rewrite rstrip_with_snoc, LF_is_space, Hx. reflexivity.
Qed.

(** *** The repaired header is a clean line *)

Lemma takewhile_digit_snoc_LF (t : str) :
  takewhile is_digit (t ++ [LF]) = takewhile is_digit t.
Proof.
  induction t as [|c t IH]; simpl; [reflexivity|].
  destruct (is_digit c); [rewrite IH|]; reflexivity.
Qed.

Lemma give_back_snoc_LF (rest : str -> option (list str * nat)) (t : str) :
  (forall u, rest (u ++ [LF]) = rest u) ->
  forall k, k <= length t ->
            give_back rest (t ++ [LF]) k = give_back rest t k.
Proof.
  intros Hrest. induction k as [|k IH]; intros Hk; cbn [give_back].
  - reflexivity.
  - rewrite skipn_app, firstn_app.
    replace (S k - length t) with 0 by lia.
    cbn [skipn firstn]. rewrite app_nil_r, Hrest, IH by lia. reflexivity.
Qed.

(** A pattern without a literal "\n" does not see a final "\n". *)
Lemma rmatch_snoc_LF (p : list tok) :
  LF_free p -> forall t, rmatch p (t ++ [LF]) = rmatch p t.
Proof.
  induction p as [|[c|] p IH]; intros Hp t.
  - reflexivity.
  - apply Forall_cons_iff in Hp as [Hc Hp]. destruct t as [|x t]; cbn [app rmatch].
    + destruct (Ascii.eqb LF c) eqn:E; [|reflexivity].
      apply Ascii.eqb_eq in E. subst c. congruence.
    + rewrite IH by exact Hp. reflexivity.
  - apply Forall_cons_iff in Hp as [_ Hp]. cbn [rmatch].
    rewrite takewhile_digit_snoc_LF.
    apply give_back_snoc_LF; [apply IH, Hp | apply takewhile_length].
Qed.

Lemma span_header_re_LF_free : LF_free span_header_re.
Proof. unfold LF_free. repeat constructor; discriminate. Qed.

Lemma re_sub_from_snoc_LF (p : list tok) (repl : str) :
  LF_free p -> rmatch p [] = None ->
  forall s k, k <= length s ->
              re_sub_from p repl k (s ++ [LF]) = re_sub_from p repl k s ++ [LF].
Proof.
  intros Hp Hnil. induction s as [|c s IH]; intros k Hk.
  - simpl in Hk. replace k with 0 by lia. cbn [app re_sub_from].
    pose proof (rmatch_snoc_LF Hp []) as E. cbn [app] in E.
    rewrite E, Hnil. reflexivity.
  - destruct k as [|k].
    + change ((c :: s) ++ [LF]) with (c :: s ++ [LF]).
      cbn [re_sub_from].
      rewrite <- (rmatch_snoc_LF Hp (c :: s)).
      change ((c :: s) ++ [LF]) with (c :: s ++ [LF]).
      destruct (rmatch p (c :: s ++ [LF])) as [[g [|n]]|] eqn:E.
      * rewrite IH by lia. rewrite <- app_assoc. reflexivity.
      * change (c :: s ++ [LF]) with ((c :: s) ++ [LF]) in E.
        rewrite (rmatch_snoc_LF Hp (c :: s)) in E.
        apply rmatch_bound in E. simpl in E.
        rewrite IH by lia. rewrite <- app_assoc. reflexivity.
      * rewrite IH by lia. reflexivity.
    + simpl in Hk. simpl. apply IH. lia.
Qed.

Lemma re_sub_from_Forall (Q : ascii -> Prop) (p : list tok) (repl : str) :
  Forall Q repl ->
  forall s k, Forall Q s -> Forall Q (re_sub_from p repl k s).
Proof.
  intros Hrepl. induction s as [|c s IH]; intros k Hs.
  - destruct k; simpl; [|constructor].
    destruct (rmatch p []) as [[g [|n]]|]; rewrite ?app_nil_r; auto.
  - apply Forall_cons_iff in Hs as [Hc Hs].
    destruct k as [|k]; cbn [re_sub_from]; [|apply IH, Hs].
    destruct (rmatch p (c :: s)) as [[g [|n]]|].
    + apply Forall_app. split; [exact Hrepl|]. constructor; auto.
    + apply Forall_app. split; auto.
    + constructor; auto.
Qed.

Lemma starts_without_app (q : ascii -> bool) (a b : str) :
  starts_without q a -> starts_without q b -> starts_without q (a ++ b).
Proof. destruct a; simpl; auto. Qed.

Lemma starts_without_rev_tail (q : ascii -> bool) (c : ascii) (s : str) :
  starts_without q (rev (c :: s)) -> starts_without q (rev s).
Proof.
  simpl. destruct (rev s); simpl; auto.
Qed.

Lemma re_sub_from_not_nil (p : list tok) (repl : str) (s : str) :
  repl <> [] -> s <> [] -> re_sub_from p repl 0 s <> [].
Proof.
  intros Hr Hs. destruct s as [|c s]; [congruence|]. cbn [re_sub_from].
  destruct (rmatch p (c :: s)) as [[g [|n]]|]; [ | | discriminate];
    intros E; apply app_eq_nil in E as [E _]; auto.
Qed.

Lemma starts_without_rev_cons (q : ascii -> bool) (c : ascii) (s o : str) :
  starts_without q (rev (c :: s)) -> starts_without q (rev o) ->
  (s <> [] -> o <> []) ->
  starts_without q (rev (c :: o)).
Proof.
  intros Hs Ho Hne.
  destruct o as [|d o].
  - destruct s as [|d s]; [exact Hs|].
    exfalso. apply Hne; [discriminate | reflexivity].
  - change (rev (c :: d :: o)) with (rev (d :: o) ++ [c]).
    destruct (rev (d :: o)) eqn:E.
    + apply (f_equal (@length _)) in E. rewrite length_rev in E. discriminate E.
    + exact Ho.
Qed.

(** The substitution keeps the text free of trailing characters of a
    class, when the replacement is. *)
Lemma re_sub_from_ends (q : ascii -> bool) (p : list tok) (repl : str) :
  repl <> [] -> starts_without q (rev repl) ->
  forall s k, starts_without q (rev s) ->
              starts_without q (rev (re_sub_from p repl k s)).
Proof.
  intros Hne Hrepl. induction s as [|c s IH]; intros k Hs.
  - destruct k; simpl; auto.
    destruct (rmatch p []) as [[g [|n]]|]; rewrite ?app_nil_r; simpl; auto.
  - pose proof (starts_without_rev_tail _ _ _ Hs) as Hs'.
    destruct k as [|k]; cbn [re_sub_from]; [|apply IH, Hs'].
    assert (Hc : starts_without q (rev (c :: re_sub_from p repl 0 s))).
    { apply (@starts_without_rev_cons q c s); auto.
      apply re_sub_from_not_nil, Hne. }
    destruct (rmatch p (c :: s)) as [[g [|n]]|].
    + rewrite rev_app_distr. apply starts_without_app; auto.
    + rewrite rev_app_distr. apply starts_without_app; auto.
    + exact Hc.
Qed.

Lemma dropwhile_starts_without (q : ascii -> bool) (s : str) :
  starts_without q (dropwhile q s).
Proof.
  induction s as [|c s IH]; simpl; auto.
  destruct (q c) eqn:E; simpl; auto.
Qed.

Lemma rstrip_with_fixed_iff (q : ascii -> bool) (s : str) :
  rstrip_with q s = s <-> starts_without q (rev s).
Proof.
  unfold rstrip_with. split.
  - intros H. apply (f_equal (@rev _)) in H. rewrite rev_involutive in H.
    rewrite <- H. apply dropwhile_starts_without.
  - intros H. destruct (rev s) as [|c r] eqn:E.
    + simpl. rewrite <- (rev_involutive s), E. reflexivity.
    + cbn [dropwhile]. unfold starts_without in H. rewrite H, <- E.
      apply rev_involutive.
Qed.

Lemma span_header_text_no_linebreak (a b : nat) :
  Forall (fun c => is_linebreak c = false) (span_header_text a b).
Proof.
  assert (Hd : forall n, Forall (fun c => is_linebreak c = false) (str_of_int n)).
  { intros n. apply Forall_forall. intros c Hc.
    apply digit_not_linebreak.
    pose proof (str_of_int_digits n) as H. rewrite forallb_forall in H. auto. }
  unfold span_header_text. repeat (apply Forall_app; split); auto;
    repeat constructor.
Qed.

Lemma span_header_text_ends (a b : nat) :
  starts_without is_space (rev (span_header_text a b)).
Proof.
  unfold span_header_text. rewrite !rev_app_distr. reflexivity.
Qed.

Lemma span_header_text_not_nil (a b : nat) : span_header_text a b <> [].
Proof. unfold span_header_text. discriminate. Qed.

Lemma repaired_header_clean (a b : nat) (header : str) :
  clean_line header ->
  clean_line (re_sub span_header_re (span_header_text a b) header).
Proof.
  intros (x & -> & Hx & Hr). unfold re_sub.
  rewrite re_sub_from_snoc_LF;
    [ | apply span_header_re_LF_free | apply span_header_re_nil | lia ].
  eexists. split; [reflexivity|]. split.
  - apply re_sub_from_Forall; [apply span_header_text_no_linebreak | exact Hx].
  - apply rstrip_with_fixed_iff.
    apply re_sub_from_ends;
      [apply span_header_text_not_nil | apply span_header_text_ends |].
    apply rstrip_with_fixed_iff. exact Hr.
Qed.

(** *** The parser builds well-formed files *)

Lemma update_last_snoc {A} (g : A -> A) (l : list A) (x : A) :
  update_last g (l ++ [x]) = l ++ [g x].
Proof.
  induction l as [|a l IH]; [reflexivity|].
  cbn [app update_last]. destruct (l ++ [x]) as [|y r] eqn:E.
  - destruct l; discriminate E.
  - rewrite IH. reflexivity.
Qed.

Lemma update_last_Forall {A} (P : A -> Prop) (g : A -> A) (l : list A) :
  (forall x, P x -> P (g x)) -> Forall P l -> Forall P (update_last g l).
Proof.
  intros Hg. induction l as [|a l IH]; intros H; [constructor|].
  apply Forall_cons_iff in H as [Ha Hl]. cbn [update_last].
  destruct l as [|b l].
  - constructor; auto.
  - constructor; auto.
Qed.

Lemma Forall_snoc {A} (P : A -> Prop) (l : list A) (x : A) :
  Forall P l -> P x -> Forall P (l ++ [x]).
Proof. intros Hl Hx. apply Forall_app. split; [exact Hl | constructor; auto]. Qed.

Lemma parse_step_wf (p : parser) (line : str) :
  Forall wf_file (files p) -> clean_line line ->
  Forall wf_file (files (parse_step p line)).
Proof.
  intros Hp Hl. unfold parse_step.
  destruct (startswith line diff_git) eqn:Ed.
  { cbn [files]. apply Forall_snoc; [exact Hp|].
    repeat split; auto; try constructor. }
  destruct (negb (current_file p)); [exact Hp|].
  destruct (startswith line hunk_marker) eqn:Eh.
  { cbn [files]. apply update_last_Forall; [|exact Hp].
    intros f (H1 & H2 & H3 & H4). repeat split; auto. cbn.
    apply Forall_snoc; [exact H4|]. repeat split; auto; try constructor. }
  assert (Hplain : clean_line line /\ plain_line line)
    by (repeat split; auto).
  destruct (current_hunk p); cbn [files].
  - apply update_last_Forall; [|exact Hp].
    intros f (H1 & H2 & H3 & H4). repeat split; auto. cbn.
    apply update_last_Forall; [|exact H4].
    intros h (G1 & G2 & G3 & G4). repeat split; auto. cbn.
    apply Forall_snoc; auto.
  - apply update_last_Forall; [|exact Hp].
    intros f (H1 & H2 & H3 & H4). repeat split; auto. cbn.
    apply Forall_snoc; auto.
Qed.

Lemma parse_files_wf (lines : list str) :
  Forall clean_line lines -> Forall wf_file (parse_files lines).
Proof.
  unfold parse_files.
  assert (H : forall p, Forall wf_file (files p) -> Forall clean_line lines ->
                        Forall wf_file (files (fold_left parse_step lines p))).
  { induction lines as [|l rest IH]; intros p Hp Hl; [exact Hp|].
    apply Forall_cons_iff in Hl as [Hl Hrest]. cbn [fold_left].
    apply IH; [apply parse_step_wf; assumption | exact Hrest]. }
  apply H. constructor.
Qed.

(** *** Parsing what was rendered *)

Lemma parse_body (body : list str) :
  forall F hd hs H header0 body0,
    Forall (fun l => clean_line l /\ plain_line l) body ->
    fold_left parse_step body
      (mkParser (F ++ [FileDiff.mk hd hs (H ++ [Hunk.mk header0 body0])])
                true true) =
    mkParser (F ++ [FileDiff.mk hd hs (H ++ [Hunk.mk header0 (body0 ++ body)])])
             true true.
Proof.
  induction body as [|l rest IH]; intros F hd hs H header0 body0 Hb.
  - rewrite app_nil_r. reflexivity.
  - apply Forall_cons_iff in Hb as [(_ & Hd & Hh) Hrest].
    cbn [fold_left]. unfold parse_step at 2.
    rewrite Hd, Hh. cbn [current_file current_hunk negb files].
    rewrite update_last_snoc. unfold FileDiff.set_hunks.
    cbn [FileDiff.hunks FileDiff.header FileDiff.headers].
    rewrite update_last_snoc. unfold Hunk.body_append.
    cbn [Hunk.header Hunk.body].
    rewrite IH by exact Hrest. rewrite <- app_assoc. reflexivity.
Qed.

Lemma parse_headers (lines : list str) :
  forall F hd hs,
    Forall (fun l => clean_line l /\ plain_line l) lines ->
    fold_left parse_step lines
      (mkParser (F ++ [FileDiff.mk hd hs []]) true false) =
    mkParser (F ++ [FileDiff.mk hd (hs ++ lines) []]) true false.
Proof.
  induction lines as [|l rest IH]; intros F hd hs Hb.
  - rewrite app_nil_r. reflexivity.
  - apply Forall_cons_iff in Hb as [(_ & Hd & Hh) Hrest].
    cbn [fold_left]. unfold parse_step at 2.
    rewrite Hd, Hh. cbn [current_file current_hunk negb files].
    rewrite update_last_snoc. unfold FileDiff.headers_append.
    cbn [FileDiff.hunks FileDiff.header FileDiff.headers].
    rewrite IH by exact Hrest. rewrite <- app_assoc. reflexivity.
Qed.

Lemma parse_hunk (h : Hunk.t) :
  wf_hunk h ->
  forall F hd hs H b,
    fold_left parse_step (hunk_lines h)
      (mkParser (F ++ [FileDiff.mk hd hs H]) true b) =
    mkParser (F ++ [FileDiff.mk hd hs (H ++ [h])]) true true.
Proof.
  intros (_ & Hd & Hh & Hb) F hd hs H b.
  unfold hunk_lines. cbn [fold_left]. unfold parse_step at 2.
  rewrite Hd, Hh. cbn [current_file negb files].
  rewrite update_last_snoc. unfold FileDiff.hunks_append, Hunk.init.
  cbn [FileDiff.hunks FileDiff.header FileDiff.headers].
  rewrite parse_body by exact Hb. destruct h. reflexivity.
Qed.

Lemma parse_hunks (hunks : list Hunk.t) :
  Forall wf_hunk hunks ->
  forall F hd hs H b,
  exists b',
    fold_left parse_step (flat_map hunk_lines hunks)
      (mkParser (F ++ [FileDiff.mk hd hs H]) true b) =
    mkParser (F ++ [FileDiff.mk hd hs (H ++ hunks)]) true b'.
Proof.
  induction hunks as [|h rest IH]; intros Hw F hd hs H b.
  - exists b. rewrite app_nil_r. reflexivity.
  - apply Forall_cons_iff in Hw as [Hh Hrest].
    cbn [flat_map]. rewrite fold_left_app, parse_hunk by exact Hh.
    destruct (IH Hrest F hd hs (H ++ [h]) true) as (b' & E).
    exists b'. rewrite E, <- app_assoc. reflexivity.
Qed.

Lemma parse_file (f : FileDiff.t) :
  wf_file f ->
  forall F b1 b2,
  exists b',
    fold_left parse_step (file_lines f) (mkParser F b1 b2) =
    mkParser (F ++ [f]) true b'.
Proof.
  intros (_ & Hd & Hhs & Hw) F b1 b2.
  unfold file_lines. cbn [fold_left]. unfold parse_step at 2.
  rewrite Hd. cbn [files]. unfold FileDiff.init.
  rewrite fold_left_app, parse_headers by exact Hhs.
  destruct (parse_hunks Hw F (FileDiff.header f) ([] ++ FileDiff.headers f)
                        [] false) as (b' & E).
  exists b'. rewrite E. destruct f. reflexivity.
Qed.

Lemma parse_rendered_from (file_diffs : list FileDiff.t) :
  Forall wf_file file_diffs ->
  forall F b1 b2,
    files (fold_left parse_step (flat_map file_lines file_diffs)
                     (mkParser F b1 b2)) = F ++ file_diffs.
Proof.
  induction file_diffs as [|f rest IH]; intros Hw F b1 b2.
  - rewrite app_nil_r. reflexivity.
  - apply Forall_cons_iff in Hw as [Hf Hrest]. cbn [flat_map].
    rewrite fold_left_app.
    destruct (parse_file Hf F b1 b2) as (b' & ->).
    rewrite IH by exact Hrest. rewrite <- app_assoc. reflexivity.
Qed.

(** The parser rebuilds well-formed files from their lines. *)
Lemma parse_rendered (file_diffs : list FileDiff.t) :
  Forall wf_file file_diffs ->
  parse_files (flat_map file_lines file_diffs) = file_diffs.
Proof.
  intros Hw. unfold parse_files. rewrite parse_rendered_from by exact Hw.
  reflexivity.
Qed.

(** *** What the filter retains *)

Lemma validate_outcome_retained (h h' : Hunk.t) :
  wf_hunk h -> validate_outcome h true = (true, h') ->
  wf_hunk h' /\
  declared_spans (Hunk.header h') = Some (expected_spans h').
Proof.
  intros (Hc & Hd & Hh & Hb). unfold validate_outcome.
  destruct (declared_spans (Hunk.header h)) as [declared|] eqn:E;
    [|discriminate].
  destruct (spans_eqb (expected_spans h) declared) eqn:Es.
  - intros H. injection H as _ <-. apply spans_eqb_eq in Es. subst declared.
    repeat split; auto.
  - intros H. injection H as <-.
    unfold declared_spans, re_match in E.
    destruct (rmatch span_header_re (Hunk.header h)) as [[g n]|] eqn:Hm;
      [|discriminate].
    assert (Er : repaired_header h =
                 span_header_text (fst (expected_spans h)) (snd (expected_spans h))
                 ++ re_sub span_header_re
                      (span_header_text (fst (expected_spans h))
                                        (snd (expected_spans h)))
                      (skipn n (Hunk.header h))).
    { unfold repaired_header. erewrite re_sub_at_match by exact Hm. reflexivity. }
    change (expected_spans (Hunk.set_header (repaired_header h) h))
      with (expected_spans h).
    repeat split; cbn [Hunk.header Hunk.body Hunk.set_header]; auto.
    + apply repaired_header_clean, Hc.
    + rewrite Er. reflexivity.
    + rewrite Er. reflexivity.
    + rewrite Er, declared_spans_span_header_text.
      destruct (expected_spans h); reflexivity.
Qed.

Lemma valid_hunks_of_retained (hunks : list Hunk.t) :
  Forall wf_hunk hunks ->
  Forall (fun h => wf_hunk h /\
                   declared_spans (Hunk.header h) = Some (expected_spans h))
         (valid_hunks_of true hunks).
Proof.
  induction hunks as [|h rest IH]; intros Hw; [constructor|].
  apply Forall_cons_iff in Hw as [Hh Hrest].
  unfold valid_hunks_of. cbn [flat_map].
  destruct (validate_outcome h true) as [[|] h'] eqn:E.
  - constructor; [|apply IH, Hrest].
    apply (validate_outcome_retained Hh E).
  - apply IH, Hrest.
Qed.

Lemma filter_files_retained (file_diffs : list FileDiff.t) :
  Forall wf_file file_diffs ->
  Forall (fun f => wf_file f /\ FileDiff.hunks f <> [] /\
                   Forall (fun h => declared_spans (Hunk.header h) =
                                    Some (expected_spans h))
                          (FileDiff.hunks f))
         (filter_files true file_diffs).
Proof.
  induction file_diffs as [|f rest IH]; intros Hw; [constructor|].
  apply Forall_cons_iff in Hw as [(H1 & H2 & H3 & H4) Hrest].
  unfold filter_files. cbn [flat_map].
  pose proof (valid_hunks_of_retained H4) as Hv.
  destruct (valid_hunks_of true (FileDiff.hunks f)) as [|h hs].
  - apply IH, Hrest.
  - constructor; [|apply IH, Hrest].
    cbn [FileDiff.set_hunks FileDiff.hunks FileDiff.header FileDiff.headers].
    repeat split; auto.
    + eapply Forall_impl; [|exact Hv]. intros a Ha. apply Ha.
    + discriminate.
    + eapply Forall_impl; [|exact Hv]. intros a Ha. apply Ha.
Qed.

Lemma validate_outcome_settled (h : Hunk.t) :
  settled_hunk h -> validate_outcome h true = (true, h).
Proof.
  intros (Hd & Hu). unfold validate_outcome. rewrite Hd, Hu.
  assert (E : spans_eqb (expected_spans h) (expected_spans h) = true)
    by (apply spans_eqb_eq; reflexivity).
  rewrite E. reflexivity.
Qed.

Lemma valid_hunks_of_settled (hunks : list Hunk.t) :
  Forall settled_hunk hunks -> valid_hunks_of true hunks = hunks.
Proof.
  induction hunks as [|h rest IH]; intros Hs; [reflexivity|].
  apply Forall_cons_iff in Hs as [Hh Hrest].
  unfold valid_hunks_of. cbn [flat_map].
  rewrite (validate_outcome_settled Hh). cbn [app].
  f_equal. apply IH, Hrest.
Qed.

(** Files whose hunks are all settled pass the filter as they are. *)
Lemma filter_files_settled (file_diffs : list FileDiff.t) :
  Forall (fun f => FileDiff.hunks f <> [] /\
                   Forall settled_hunk (FileDiff.hunks f)) file_diffs ->
  filter_files true file_diffs = file_diffs.
Proof.
  induction file_diffs as [|f rest IH]; intros Hs; [reflexivity|].
  apply Forall_cons_iff in Hs as [(Hne & Hh) Hrest].
  unfold filter_files. cbn [flat_map].
  rewrite (valid_hunks_of_settled Hh).
  destruct f as [hd hs hunks]. cbn [FileDiff.hunks] in *.
  destruct hunks as [|h hunks]; [congruence|].
  cbn [app]. f_equal. apply IH, Hrest.
Qed.

(** *** Cleaning what was rendered *)

Lemma startswith_plus_not_blank (l : str) :
  startswith l (lit "+") = false -> is_plus_blank l = false.
Proof. intros H. unfold is_plus_blank. rewrite H. reflexivity. Qed.

Lemma hunk_header_not_plus_blank (l : str) :
  startswith l hunk_marker = true -> is_plus_blank l = false.
Proof.
  intros H. apply startswith_plus_not_blank.
  destruct l as [|c l]; [discriminate H|].
  cbn in H |- *. apply andb_true_iff in H as [H _].
  apply Ascii.eqb_eq in H. subst c. reflexivity.
Qed.

Lemma expected_line_not_plus_blank (l : str) :
  classify l <> Unexpected -> is_plus_blank l = false.
Proof.
  intros H. destruct (is_plus_blank l) eqn:E; [|reflexivity].
  exfalso. apply H. unfold is_plus_blank in E.
  apply andb_true_iff in E as [E1 E2]. unfold classify.
  destruct l as [|c l]; [discriminate E1|].
  cbn in E1. rewrite andb_true_r in E1. apply Ascii.eqb_eq in E1. subst c.
  rewrite E2. reflexivity.
Qed.

Lemma count_kind_zero (k : kind) (body : list str) (l : str) :
  count_kind k body = 0 -> In l body -> classify l <> k.
Proof.
  unfold count_kind. intros H Hin E.
  assert (Hf : In l (filter (fun line => kind_eqb (classify line) k) body)).
  { apply filter_In. split; [exact Hin|]. rewrite E. destruct k; reflexivity. }
  destruct (filter _ body); [destruct Hf | discriminate H].
Qed.

Lemma no_unexpected_body (h : Hunk.t) (l : str) :
  has_unexpected h = false -> In l (Hunk.body h) -> is_plus_blank l = false.
Proof.
  intros Hu Hin. apply expected_line_not_plus_blank.
  rewrite has_unexpected_classify in Hu.
  apply negb_false_iff, Nat.eqb_eq in Hu.
  eapply count_kind_zero; eassumption.
Qed.

Lemma pop_loop_keep (lines : list str) :
  is_plus_blank (last lines []) = false ->
  rev (fst (pop_loop (rev lines) 0)) = lines.
Proof.
  intros H. destruct lines as [|l0 rest] using rev_ind.
  - reflexivity.
  - rewrite last_last in H. rewrite rev_app_distr. cbn [rev app pop_loop].
    rewrite H. cbn [fst]. rewrite <- (rev_involutive rest) at 2.
    change (rev (l0 :: rev rest) = rev (rev rest) ++ [l0]). reflexivity.
Qed.

Lemma last_hunk_lines (h : Hunk.t) :
  wf_hunk h -> has_unexpected h = false ->
  is_plus_blank (last (hunk_lines h) []) = false.
Proof.
  intros (_ & _ & Hh & _) Hu. unfold hunk_lines.
  destruct (Hunk.body h) as [|l0 body] eqn:E using rev_ind.
  - apply hunk_header_not_plus_blank, Hh.
  - rewrite app_comm_cons, last_last.
    apply (@no_unexpected_body h l0 Hu). rewrite E. apply in_or_app.
    right. left. reflexivity.
Qed.

Lemma last_app_nonempty {A} (a b : list A) (d : A) :
  b <> [] -> last (a ++ b) d = last b d.
Proof.
  intros Hb. destruct b as [|x b] using rev_ind; [congruence|].
  rewrite app_assoc, !last_last. reflexivity.
Qed.

Lemma file_lines_clean (f : FileDiff.t) :
  wf_file f -> Forall clean_line (file_lines f).
Proof.
  intros (H1 & _ & H3 & H4). unfold file_lines.
  constructor; [exact H1|]. apply Forall_app. split.
  - eapply Forall_impl; [|exact H3]. intros l Hl. apply Hl.
  - apply Forall_forall. intros l Hl. apply in_flat_map in Hl as (h & Hh & Hl).
    rewrite Forall_forall in H4. destruct (H4 h Hh) as (G1 & _ & _ & G4).
    destruct Hl as [<- | Hl]; [exact G1|].
    rewrite Forall_forall in G4. apply (G4 l Hl).
Qed.

Lemma last_file_lines (f : FileDiff.t) :
  wf_file f -> FileDiff.hunks f <> [] ->
  Forall (fun h => has_unexpected h = false) (FileDiff.hunks f) ->
  is_plus_blank (last (file_lines f) []) = false.
Proof.
  intros (_ & _ & _ & Hw) Hne Hu. unfold file_lines.
  destruct (FileDiff.hunks f) as [|h hunks] using rev_ind; [congruence|].
  clear IHhunks. rewrite flat_map_app. cbn [flat_map]. rewrite app_nil_r.
  rewrite app_comm_cons, app_assoc.
  rewrite last_app_nonempty by discriminate.
  apply Forall_app in Hw as [_ Hw]. apply Forall_app in Hu as [_ Hu].
  apply Forall_cons_iff in Hw as [Hw _]. apply Forall_cons_iff in Hu as [Hu _].
  apply last_hunk_lines; assumption.
Qed.

Lemma last_rendered_lines (file_diffs : list FileDiff.t) :
  Forall (fun f => wf_file f /\ FileDiff.hunks f <> [] /\
                   Forall (fun h => has_unexpected h = false) (FileDiff.hunks f))
         file_diffs ->
  is_plus_blank (last (flat_map file_lines file_diffs) []) = false.
Proof.
  intros H. destruct file_diffs as [|f rest] using rev_ind; [reflexivity|].
  clear IHrest. apply Forall_app in H as [_ H].
  apply Forall_cons_iff in H as [(H1 & H2 & H3) _].
  rewrite flat_map_app. cbn [flat_map]. rewrite app_nil_r.
  rewrite last_app_nonempty by discriminate.
  apply last_file_lines; assumption.
Qed.

(** The cleaner returns the lines of a rendered text as they are, when no
    retained hunk has an unexpected line. *)
Lemma clean_lines_rendered (file_diffs : list FileDiff.t) :
  Forall (fun f => wf_file f /\ FileDiff.hunks f <> [] /\
                   Forall (fun h => has_unexpected h = false) (FileDiff.hunks f))
         file_diffs ->
  clean_lines (render file_diffs) = flat_map file_lines file_diffs.
Proof.
  intros H.
  assert (Hc : Forall clean_line (flat_map file_lines file_diffs)).
  { apply Forall_forall. intros l Hl. apply in_flat_map in Hl as (f & Hf & Hl).
    rewrite Forall_forall in H. destruct (H f Hf) as (Hw & _).
    pose proof (file_lines_clean Hw) as Hfl. rewrite Forall_forall in Hfl. auto. }
  unfold clean_lines, trim_input, render. rewrite splitlines_join by exact Hc.
  assert (Hp : strip_preamble (flat_map file_lines file_diffs) =
               flat_map file_lines file_diffs).
  { destruct file_diffs as [|f rest]; [reflexivity|].
    apply Forall_cons_iff in H as [((_ & Hd & _) & _) _].
    unfold strip_preamble. cbn [flat_map file_lines app find_preamble_index].
    rewrite Hd. reflexivity. }
  rewrite Hp.
  assert (Hn : map normalize_line (flat_map file_lines file_diffs) =
               flat_map file_lines file_diffs).
  { rewrite <- (map_id (flat_map file_lines file_diffs)) at 2.
    apply map_ext_in. intros l Hl. apply normalize_clean_line.
    rewrite Forall_forall in Hc. auto. }
  rewrite Hn. apply pop_loop_keep, last_rendered_lines, H.
Qed.

(** A pass over the text rendered from retained files without unexpected
    line retains the same files. *)
Lemma repair_pass_rendered (file_diffs : list FileDiff.t) :
  Forall wf_file file_diffs ->
  no_unexpected_line (filter_files true file_diffs) ->
  repair_pass (render (filter_files true file_diffs)) =
  render (filter_files true file_diffs).
Proof.
  intros Hw Hu. pose proof (filter_files_retained Hw) as Hr.
  unfold no_unexpected_line in Hu.
  set (retained := filter_files true file_diffs) in *.
  unfold repair_pass. rewrite clean_lines_rendered.
  - rewrite parse_rendered.
    + rewrite filter_files_settled; [reflexivity|].
      rewrite Forall_forall in *. intros f Hf.
      destruct (Hr f Hf) as (_ & Hne & Hd). split; [exact Hne|].
      specialize (Hu f Hf). rewrite Forall_forall in *.
      intros h Hh. split; auto.
    + eapply Forall_impl; [|exact Hr]. intros f Hf. apply Hf.
  - rewrite Forall_forall in *. intros f Hf.
    destruct (Hr f Hf) as (H1 & H2 & _). auto.
Qed.

(** C3, amended: when no hunk the pass retains has an unexpected body
    line, the text [run_apply_once] renders is a fixed point: running
    [run_apply_once] on it renders the same text, whatever the oracle
    answers and from whatever log. *)
Theorem render_fixed_point_without_unexpected
    (git_apply_check : str -> bool * str) (text : str)
    (validate_with_git validate_with_git' : bool) (st st' : state) :
  no_unexpected_line (retained_files text) ->
  let first :=
    fst (result (run_apply_once git_apply_check text validate_with_git) st) in
  fst (result (run_apply_once git_apply_check first validate_with_git') st') =
  first.
Proof.
  intros Hu. cbv zeta. rewrite !run_apply_once_result.
  rewrite retained_files_eq in Hu. unfold repair_pass at 2 3.
  apply repair_pass_rendered; [|exact Hu].
  apply parse_files_wf, clean_lines_clean.
Qed.

Lemma render_fixed_point_without_unexpected_witness :
  no_unexpected_line (retained_files scenario_patch) /\
  render_is_fixed_point git_always_ok scenario_patch.
Proof.
  assert (H : no_unexpected_line (retained_files scenario_patch))
    by (vm_compute; repeat constructor).
  split; [exact H|].
  exact (@render_fixed_point_without_unexpected
           git_always_ok scenario_patch false false st0 st0 H).
Defined.

(** ** The scenarios of the specification, run on the model *)

(** With repairs disabled the hunk of the scenario is rejected with a
    mismatch on the old span only. *)
Example scenario_without_repairs :
  result (validate_hunk scenario_hunk scenario_file_header false) st0 =
    (false, scenario_hunk) /\
  logged_codes (validate_hunk scenario_hunk scenario_file_header false) st0 =
    ["HUNK_INVALID_OLD_SPAN_MISMATCH"].
Proof. split; vm_compute; reflexivity. Qed.

(** Two final lines that are only a "+" are dropped; a final context line
    is kept. *)
Example scenario_eof_trimming :
  result (basic_clean (lit "diff --git a/f b/f
@@ -1,1 +1,1 @@
 old
+
+
")) st0 = [lit "diff --git a/f b/f
"; lit "@@ -1,1 +1,1 @@
"; lit " old
"].
Proof. vm_compute. reflexivity. Qed.

(** When the oracle accepts the first render, the iterative mode stops
    after one round. *)
Example scenario_oracle_ok_on_round_0 :
  exists steps,
    snd (result (run_iterative git_always_ok scenario_patch true 5) st0) =
    Returns (mkPlan 4 "iterative" steps
               [("iterations_run", VInt 1);
                ("git_validation", VStr (lit "ok"))]) /\
    In "ITERATION_GIT_OK" (map code steps).
Proof.
  eexists. split; [vm_compute; reflexivity|].
  vm_compute. repeat (first [left; reflexivity | right]).
Qed.

(* ================================================================== *)
(** * Further properties of the code *)
(* ================================================================== *)

(** ** validate_hunk *)

(** X1: [validate_hunk] never touches the body of a hunk, leaves a hunk it
    rejects exactly as it was, and changes a header only with repairs
    allowed and with the event of the span repair. *)
Theorem validate_hunk_frame (hunk : Hunk.t) (file_header : str)
    (allow_repairs : bool) (st : state) :
  let ok := fst (result (validate_hunk hunk file_header allow_repairs) st) in
  let hunk' := snd (result (validate_hunk hunk file_header allow_repairs) st) in
  Hunk.body hunk' = Hunk.body hunk /\
  (ok = false -> hunk' = hunk) /\
  (Hunk.header hunk' <> Hunk.header hunk ->
   allow_repairs = true /\ ok = true /\
   In "HUNK_HEADER_SPAN_REPAIRED"
      (logged_codes (validate_hunk hunk file_header allow_repairs) st)).
Proof.
  cbv zeta. rewrite validate_hunk_result, validate_hunk_codes.
  unfold validate_outcome.
  destruct (declared_spans (Hunk.header hunk)) as [declared|]; cbn.
  2: { repeat split; congruence. }
  destruct (spans_eqb (expected_spans hunk) declared); cbn.
  { repeat split; congruence. }
  destruct allow_repairs; cbn.
  - repeat split; try congruence.
    destruct (has_unexpected hunk); cbn; auto.
  - repeat split; congruence.
Qed.

(** X2: [validate_hunk] returns true exactly when the last event it logs
    is "valid" or "valid after repair"; when it returns false, it has
    logged no such event. *)
Theorem validate_hunk_accepts_iff_acceptance_event (hunk : Hunk.t)
    (file_header : str) (allow_repairs : bool) (st : state) :
  let codes := logged_codes (validate_hunk hunk file_header allow_repairs) st in
  (fst (result (validate_hunk hunk file_header allow_repairs) st) = true <->
   acceptance_code (last codes "") = true) /\
  (fst (result (validate_hunk hunk file_header allow_repairs) st) = false ->
   forallb (fun c => negb (acceptance_code c)) codes = true) /\
  codes <> [].
Proof.
  cbv zeta. rewrite validate_hunk_result, validate_hunk_codes.
  unfold validate_outcome.
  destruct (declared_spans (Hunk.header hunk)) as [[dold dnew]|]; cbn.
  2: { repeat split; try discriminate; reflexivity. }
  unfold spans_eqb. cbn [fst snd].
  destruct (fst (expected_spans hunk) =? dold),
           (snd (expected_spans hunk) =? dnew),
           (has_unexpected hunk), allow_repairs; cbn;
    repeat split; try discriminate; try reflexivity.
Qed.

(** ** Validating again *)

(** X3: a hunk without unexpected line that [validate_hunk] retains with
    repairs allowed is, as it is left, accepted unchanged by any further
    validation, with repairs allowed or not. *)
Theorem retained_hunk_passes_strict_validation (hunk : Hunk.t)
    (file_header file_header' : str) (allow_repairs : bool) (st st' : state) :
  has_unexpected hunk = false ->
  fst (result (validate_hunk hunk file_header true) st) = true ->
  let hunk' := snd (result (validate_hunk hunk file_header true) st) in
  result (validate_hunk hunk' file_header' allow_repairs) st' = (true, hunk').
Proof.
  intros Hu Hok. cbv zeta. rewrite !validate_hunk_result in *.
  unfold validate_outcome in Hok |- *.
  destruct (declared_spans (Hunk.header hunk)) as [declared|] eqn:Hd;
    [|discriminate Hok].
  destruct (spans_eqb (expected_spans hunk) declared) eqn:E; cbn [snd fst].
  - rewrite Hd, E, Hu. reflexivity.
  - unfold declared_spans, re_match in Hd.
    destruct (rmatch span_header_re (Hunk.header hunk)) as [[g n]|] eqn:Hm;
      [|discriminate].
    change (expected_spans (Hunk.set_header (repaired_header hunk) hunk))
      with (expected_spans hunk).
    change (has_unexpected (Hunk.set_header (repaired_header hunk) hunk))
      with (has_unexpected hunk).
    cbn [Hunk.header Hunk.set_header]. unfold repaired_header at 1.
    erewrite re_sub_at_match by exact Hm.
    rewrite declared_spans_span_header_text.
    assert (Es : spans_eqb (expected_spans hunk)
                   (fst (expected_spans hunk), snd (expected_spans hunk)) = true)
      by (apply spans_eqb_eq; destruct (expected_spans hunk); reflexivity).
    rewrite Es, Hu. reflexivity.
Qed.

Lemma retained_hunk_passes_strict_validation_witness :
  result (validate_hunk
            (snd (result (validate_hunk scenario_hunk scenario_file_header true) st0))
            scenario_file_header false) st0 =
  (true, snd (result (validate_hunk scenario_hunk scenario_file_header true) st0)).
Proof.
  apply (@retained_hunk_passes_strict_validation
           scenario_hunk scenario_file_header scenario_file_header false st0 st0);
    reflexivity.
Defined.

(** X4: a hunk with an unexpected line that [validate_hunk] retains (which
    it does only by repairing the spans) is, as it is left, rejected by
    any further validation, with repairs allowed or not, and not touched
    again. *)
Theorem salvaged_hunk_rejected_when_validated_again (hunk : Hunk.t)
    (file_header file_header' : str) (allow_repairs : bool) (st st' : state) :
  has_unexpected hunk = true ->
  fst (result (validate_hunk hunk file_header true) st) = true ->
  let hunk' := snd (result (validate_hunk hunk file_header true) st) in
  result (validate_hunk hunk' file_header' allow_repairs) st' = (false, hunk').
Proof.
  intros Hu Hok. cbv zeta. rewrite !validate_hunk_result in *.
  unfold validate_outcome in Hok |- *.
  destruct (declared_spans (Hunk.header hunk)) as [declared|] eqn:Hd;
    [|discriminate Hok].
  destruct (spans_eqb (expected_spans hunk) declared) eqn:E; cbn [snd fst].
  - rewrite Hu in Hok. discriminate Hok.
  - unfold declared_spans, re_match in Hd.
    destruct (rmatch span_header_re (Hunk.header hunk)) as [[g n]|] eqn:Hm;
      [|discriminate].
    change (expected_spans (Hunk.set_header (repaired_header hunk) hunk))
      with (expected_spans hunk).
    change (has_unexpected (Hunk.set_header (repaired_header hunk) hunk))
      with (has_unexpected hunk).
    cbn [Hunk.header Hunk.set_header]. unfold repaired_header at 1.
    erewrite re_sub_at_match by exact Hm.
    rewrite declared_spans_span_header_text.
    assert (Es : spans_eqb (expected_spans hunk)
                   (fst (expected_spans hunk), snd (expected_spans hunk)) = true)
      by (apply spans_eqb_eq; destruct (expected_spans hunk); reflexivity).
    rewrite Es, Hu. reflexivity.
Qed.

Lemma salvaged_hunk_rejected_when_validated_again_witness :
  fst (result (validate_hunk
                 (snd (result (validate_hunk salvaged_hunk scenario_file_header true) st0))
                 scenario_file_header true) st0) = false.
Proof.
  rewrite (@salvaged_hunk_rejected_when_validated_again
             salvaged_hunk scenario_file_header scenario_file_header true st0 st0);
    reflexivity.
Defined.

(** X5: a hunk accepted with repairs disallowed is accepted, and left as
    it is, with repairs allowed. *)
Theorem strict_acceptance_implies_lenient (hunk : Hunk.t)
    (file_header file_header' : str) (st st' : state) :
  fst (result (validate_hunk hunk file_header false) st) = true ->
  result (validate_hunk hunk file_header' true) st' = (true, hunk).
Proof.
  rewrite !validate_hunk_result. unfold validate_outcome.
  destruct (declared_spans (Hunk.header hunk)) as [declared|];
    [|discriminate].
  destruct (spans_eqb (expected_spans hunk) declared); [|discriminate].
  cbn. intros ->. reflexivity.
Qed.

Lemma strict_acceptance_implies_lenient_witness :
  result (validate_hunk valid_hunk scenario_file_header true) st0 =
  (true, valid_hunk).
Proof.
  apply (@strict_acceptance_implies_lenient
           valid_hunk scenario_file_header scenario_file_header st0 st0).
  reflexivity.
Defined.

(** X6: the two events "(repair failed)" that [validate_hunk] guards for
    are never logged: whenever the repair is reached and writes nothing,
    the spans already match. *)
Theorem validate_hunk_never_logs_failed_repair (hunk : Hunk.t)
    (file_header : str) (allow_repairs : bool) (st : state) :
  ~ In "Old span mismatch in hunk header (repair failed)"
       (logged_messages (validate_hunk hunk file_header allow_repairs) st) /\
  ~ In "New span mismatch in hunk header (repair failed)"
       (logged_messages (validate_hunk hunk file_header allow_repairs) st).
Proof.
  destruct st as [pl it].
  unfold logged_messages, logged, validate_hunk.
  destruct (re_match span_header_re (Hunk.header hunk)) as [[g n]|].
  2: { unfold bind, log, ret. simpl. rewrite skipn_length_app. simpl.
       split; intros [H | []]; discriminate H. }
  destruct (_count_body_lines hunk) as [[[c r] a] u].
  unfold _maybe_fix_span_header.
  destruct (c + r =? int_of_digits (nth 1 g [])),
           (c + a =? int_of_digits (nth 3 g [])), u, allow_repairs;
    unfold bind, log, ret; simpl;
    rewrite <- ?app_assoc, skipn_length_app; simpl;
    split; intros H;
    repeat (destruct H as [H | H]; [discriminate H|]); destruct H.
Qed.

(** ** The log is only appended to *)

Lemma appends_ret (P : entry -> Prop) {A} (a : A) : appends P (ret a).
Proof. intros st. exists []. rewrite app_nil_r. split; [reflexivity | constructor]. Qed.

Lemma appends_log (P : entry -> Prop) (c p m : string)
    (extra : list (string * value)) :
  (forall it, P (mkEntry c p m it extra)) -> appends P (log c p m extra).
Proof.
  intros H st. eexists. split; [reflexivity|]. constructor; [apply H | constructor].
Qed.

Lemma appends_bind (P : entry -> Prop) {A B} (m : M A) (k : A -> M B) :
  appends P m -> (forall a, appends P (k a)) -> appends P (bind m k).
Proof.
  intros Hm Hk st. unfold bind. destruct (Hm st) as (n1 & E1 & F1).
  destruct (m st) as [a st1]. cbn [snd] in E1.
  destruct (Hk a st1) as (n2 & E2 & F2).
  exists (n1 ++ n2). split.
  - rewrite E2, E1, app_assoc. reflexivity.
  - apply Forall_app. split; assumption.
Qed.

Lemma appends_set_CURRENT_ITERATION (P : entry -> Prop) (i : nat) :
  appends P (set_CURRENT_ITERATION i).
Proof. intros st. exists []. rewrite app_nil_r. split; [reflexivity | constructor]. Qed.

Lemma appends_get_ACTION_PLAN (P : entry -> Prop) : appends P get_ACTION_PLAN.
Proof. intros st. exists []. rewrite app_nil_r. split; [reflexivity | constructor]. Qed.

(** The steps common to the proofs that a function only appends. *)
Ltac appends_step :=
  first
    [ apply appends_ret
    | apply appends_set_CURRENT_ITERATION
    | apply appends_get_ACTION_PLAN
    | apply appends_log; intros; first [exact I | reflexivity]
    | apply appends_bind; [|intros] ].

Ltac appends_auto :=
  repeat first
    [ appends_step
    | match goal with
      | |- appends _ (if ?b then _ else _) => destruct b
      | |- appends _ (match ?x with _ => _ end) => destruct x
      | |- appends _ (let '(_, _) := ?x in _) => destruct x
      end ].

Section Appends.

Variable P : entry -> Prop.

(** [P] holds of every entry the stages before the validator can log. *)
Hypothesis P_any_but_validate :
  forall e, ~ String.prefix "HUNK_" (code e) = true -> P e.

Lemma appends_trim_loop (lines : list str) :
  forall lineno cleaned trimmed, appends P (trim_loop lineno lines cleaned trimmed).
Proof.
  induction lines as [|line rest IH]; intros lineno cleaned trimmed;
    cbn [trim_loop].
  - apply appends_ret.
  - apply appends_bind; [|intros; apply IH].
    destruct (negb (str_eqb (rstrip line) line)).
    + apply appends_bind; [|intros; apply appends_ret].
      apply appends_log. intros it. apply P_any_but_validate. discriminate.
    + apply appends_ret.
Qed.

Lemma appends_basic_clean (text : str) : appends P (basic_clean text).
Proof.
  unfold basic_clean.
  apply appends_bind;
    [apply appends_log; intros; apply P_any_but_validate; discriminate | intros _].
  apply appends_bind.
  { destruct (find_preamble_index 0 (splitlines text)) as [[|i]|];
      (apply appends_bind; [|intros; apply appends_ret]);
      apply appends_log; intros; apply P_any_but_validate; discriminate. }
  intros lines. apply appends_bind; [apply appends_trim_loop|].
  intros [cleaned trimmed].
  apply appends_bind;
    [apply appends_log; intros; apply P_any_but_validate; discriminate | intros _].
  destruct (pop_loop (rev cleaned) 0) as [rl d].
  apply appends_bind;
    [apply appends_log; intros; apply P_any_but_validate; discriminate | intros _].
  apply appends_bind;
    [apply appends_log; intros; apply P_any_but_validate; discriminate | intros _].
  apply appends_ret.
Qed.

Lemma appends_parse_line (lineno : nat) (line : str) (p : parser) :
  appends P (parse_line lineno line p).
Proof.
  unfold parse_line.
  repeat match goal with
         | |- appends _ (if ?b then _ else _) => destruct b
         end;
    (apply appends_bind; [|intros; apply appends_ret]);
    apply appends_log; intros; apply P_any_but_validate; discriminate.
Qed.

Lemma appends_parse_loop (lines : list str) :
  forall lineno p, appends P (parse_loop lineno lines p).
Proof.
  induction lines as [|line rest IH]; intros lineno p; cbn [parse_loop].
  - apply appends_ret.
  - apply appends_bind; [apply appends_parse_line | intros; apply IH].
Qed.

Lemma appends_parse_diff (lines : list str) : appends P (parse_diff lines).
Proof.
  unfold parse_diff. apply appends_bind; [apply appends_parse_loop|].
  intros p. apply appends_bind; [|intros; apply appends_ret].
  apply appends_log; intros; apply P_any_but_validate; discriminate.
Qed.

Lemma appends_render_patch (file_diffs : list FileDiff.t) :
  appends P (render_patch file_diffs).
Proof.
  unfold render_patch. apply appends_bind; [|intros; apply appends_ret].
  apply appends_log; intros; apply P_any_but_validate; discriminate.
Qed.

Lemma appends_git_validate (git_apply_check : str -> bool * str)
    (patch_text : str) :
  appends P (git_validate git_apply_check patch_text).
Proof.
  unfold git_validate. destruct (git_apply_check patch_text) as [[|] out];
    (apply appends_bind; [|intros; apply appends_ret]);
    apply appends_log; intros; apply P_any_but_validate; discriminate.
Qed.

(** The filter, given what the validator appends. *)
Hypothesis P_file_dropped :
  forall p m it extra, P (mkEntry "FILE_DROPPED_NO_VALID_HUNKS" p m it extra).
Hypothesis P_filter_summary :
  forall p m it extra, P (mkEntry "FILTER_FILES_SUMMARY" p m it extra).

Variable allow_repairs : bool.

Hypothesis appends_validate_hunk :
  forall hunk file_header, appends P (validate_hunk hunk file_header allow_repairs).

Lemma appends_hunks_loop (hunks : list Hunk.t) (file_header : str) :
  forall valid_hunks,
    appends P (hunks_loop hunks file_header allow_repairs valid_hunks).
Proof.
  induction hunks as [|hunk rest IH]; intros valid_hunks; cbn [hunks_loop].
  - apply appends_ret.
  - apply appends_bind; [apply appends_validate_hunk|].
    intros [ok hunk']. apply IH.
Qed.

Lemma appends_files_loop (file_diffs : list FileDiff.t) :
  forall acc, appends P (files_loop file_diffs allow_repairs acc).
Proof.
  induction file_diffs as [|f rest IH]; intros acc; cbn [files_loop].
  - apply appends_ret.
  - apply appends_bind; [apply appends_hunks_loop|].
    intros [|h hs]; [|apply IH].
    apply appends_bind; [|intros; apply IH].
    apply appends_log; intros; apply P_file_dropped.
Qed.

Lemma appends_filter_or_repair_files (file_diffs : list FileDiff.t) :
  appends P (filter_or_repair_files file_diffs allow_repairs).
Proof.
  unfold filter_or_repair_files.
  apply appends_bind; [apply appends_files_loop|].
  intros r. apply appends_bind; [|intros; apply appends_ret].
  apply appends_log; intros; apply P_filter_summary.
Qed.

End Appends.

Lemma appends_logged (P : entry -> Prop) {A} (m : M A) :
  appends P m ->
  forall st,
    ACTION_PLAN (snd (m st)) = ACTION_PLAN st ++ logged m st /\
    Forall P (logged m st).
Proof.
  intros H st. destruct (H st) as (new & E & F). unfold logged.
  rewrite E, skipn_length_app. split; [reflexivity | exact F].
Qed.

Lemma appends_validate_hunk_true (hunk : Hunk.t) (file_header : str)
    (allow_repairs : bool) :
  appends (fun _ => True) (validate_hunk hunk file_header allow_repairs).
Proof.
  unfold validate_hunk, _maybe_fix_span_header.
  destruct (re_match span_header_re (Hunk.header hunk)) as [[g n]|];
    [|appends_auto].
  destruct (_count_body_lines hunk) as [[[c r] a] u]. cbv zeta.
  appends_auto.
Qed.

(** With repairs disallowed the validator logs no event of a repair. *)
Lemma appends_validate_hunk_strict (hunk : Hunk.t) (file_header : str) :
  appends not_repair_event (validate_hunk hunk file_header false).
Proof.
  unfold validate_hunk, not_repair_event.
  destruct (re_match span_header_re (Hunk.header hunk)) as [[g n]|];
    [|appends_auto].
  destruct (_count_body_lines hunk) as [[[c r] a] u].
  cbv beta zeta iota delta [negb]. appends_auto.
Qed.

Section ModesLog.

Variable git_apply_check : str -> bool * str.

Lemma appends_run_scan_only (original : str) (validate_with_git : bool) :
  appends not_repair_event
          (run_scan_only git_apply_check original validate_with_git).
Proof.
  assert (HP : forall e, ~ String.prefix "HUNK_" (code e) = true ->
                         not_repair_event e).
  { intros e He. unfold not_repair_event, repair_code.
    destruct (String.eqb_spec (code e) "HUNK_HEADER_SPAN_REPAIRED") as [E|_].
    { exfalso. apply He. rewrite E. reflexivity. }
    destruct (String.eqb_spec (code e) "HUNK_VALID_AFTER_REPAIR") as [E|_].
    { exfalso. apply He. rewrite E. reflexivity. }
    reflexivity. }
  unfold run_scan_only.
  apply appends_bind; [apply appends_basic_clean, HP | intros lines].
  apply appends_bind; [apply appends_parse_diff, HP | intros fs].
  apply appends_bind.
  { apply appends_filter_or_repair_files;
      [reflexivity | reflexivity | apply appends_validate_hunk_strict]. }
  intros _. apply appends_bind.
  { destruct validate_with_git; [|apply appends_ret].
    apply appends_bind; [apply appends_git_validate, HP | intros; apply appends_ret]. }
  intros r. apply appends_bind; [|intros _].
  { apply appends_log. reflexivity. }
  apply appends_bind; [apply appends_get_ACTION_PLAN | intros; apply appends_ret].
Qed.

(** X7: the scan-only mode applies no repair: among the entries it logs
    there is neither the event of a span repair nor "valid after repair",
    and what was in the log before is still there, in front. *)
Theorem run_scan_only_never_repairs (original : str)
    (validate_with_git : bool) (st : state) :
  let run := run_scan_only git_apply_check original validate_with_git in
  ACTION_PLAN (snd (run st)) = ACTION_PLAN st ++ logged run st /\
  ~ In "HUNK_HEADER_SPAN_REPAIRED" (logged_codes run st) /\
  ~ In "HUNK_VALID_AFTER_REPAIR" (logged_codes run st).
Proof.
  cbv zeta.
  destruct (appends_logged
              (appends_run_scan_only original validate_with_git) st) as [E F].
  split; [exact E|]. unfold logged_codes.
  rewrite Forall_forall in F.
  split; intros H; apply in_map_iff in H as (e & Hc & He);
    specialize (F e He); unfold not_repair_event in F; rewrite Hc in F;
    discriminate F.
Qed.

End ModesLog.

(** ** parse_diff *)

Lemma flat_map_snoc {A B} (f : A -> list B) (l : list A) (x : A) :
  flat_map f (l ++ [x]) = flat_map f l ++ f x.
Proof. rewrite flat_map_app. cbn [flat_map]. rewrite app_nil_r. reflexivity. Qed.

Lemma parser_ok_file (F : list FileDiff.t) (f : FileDiff.t) (b : bool) :
  (b = true -> FileDiff.hunks f <> []) ->
  (b = false -> FileDiff.hunks f = []) ->
  parser_ok (mkParser (F ++ [f]) true b).
Proof.
  intros H1 H0. split; cbn [files current_file current_hunk].
  - discriminate.
  - intros _. exists F, f. auto.
Qed.

Lemma parse_step_lines (p : parser) (line : str) :
  parser_ok p ->
  parser_ok (parse_step p line) /\
  current_file (parse_step p line) = startswith line diff_git || current_file p /\
  flat_map file_lines (files (parse_step p line)) =
  flat_map file_lines (files p) ++
  (if startswith line diff_git || current_file p then [line] else []).
Proof.
  intros Hp. pose proof Hp as [Hno Hyes]. unfold parse_step.
  destruct (startswith line diff_git) eqn:Ed; cbn [orb].
  { split; [|split].
    - apply parser_ok_file; [discriminate | reflexivity].
    - reflexivity.
    - cbn [files]. rewrite flat_map_snoc. reflexivity. }
  destruct (current_file p) eqn:Ec; cbn [negb].
  2: { rewrite app_nil_r. auto. }
  destruct (Hyes eq_refl) as (F & f & EF & Hh1 & Hh0).
  destruct (startswith line hunk_marker) eqn:Eh.
  { cbn [files current_file]. rewrite EF, update_last_snoc.
    split; [|split].
    - apply parser_ok_file; [|discriminate].
      intros _. cbn. intros E. apply app_eq_nil in E as [_ E]. discriminate E.
    - reflexivity.
    - rewrite !flat_map_snoc, <- app_assoc. f_equal.
      unfold file_lines, FileDiff.hunks_append. cbn.
      rewrite flat_map_snoc, !app_assoc. reflexivity. }
  destruct (current_hunk p) eqn:Ek; cbn [files current_file].
  - rewrite EF, update_last_snoc. specialize (Hh1 eq_refl).
    destruct (exists_last Hh1) as (H & h & EH).
    split; [|split].
    + apply parser_ok_file; [|discriminate].
      intros _. cbn. rewrite EH, update_last_snoc.
      intros E. apply app_eq_nil in E as [_ E]. discriminate E.
    + reflexivity.
    + rewrite !flat_map_snoc, <- app_assoc. f_equal.
      unfold file_lines, FileDiff.set_hunks. cbn.
      rewrite EH, update_last_snoc, !flat_map_snoc.
      unfold hunk_lines, Hunk.body_append. cbn.
      rewrite !app_comm_cons, !app_assoc. reflexivity.
  - rewrite EF, update_last_snoc. specialize (Hh0 eq_refl).
    split; [|split].
    + apply parser_ok_file; [discriminate|]. intros _. exact Hh0.
    + reflexivity.
    + rewrite !flat_map_snoc, <- app_assoc. f_equal.
      unfold file_lines, FileDiff.headers_append. cbn.
      rewrite Hh0. cbn. rewrite !app_nil_r. reflexivity.
Qed.

Lemma parse_fold_lines (lines : list str) :
  forall p,
    parser_ok p ->
    flat_map file_lines (files (fold_left parse_step lines p)) =
    flat_map file_lines (files p) ++
    (if current_file p then lines else from_first_marker lines).
Proof.
  induction lines as [|line rest IH]; intros p Hp.
  - cbn. destruct (current_file p); rewrite app_nil_r; reflexivity.
  - cbn [fold_left from_first_marker].
    destruct (parse_step_lines line Hp) as (Hp' & Ec & El).
    rewrite (IH _ Hp'), El, Ec.
    destruct (startswith line diff_git), (current_file p); cbn [orb];
      rewrite <- app_assoc; reflexivity.
Qed.

Lemma parser_ok_init : parser_ok (mkParser [] false false).
Proof. split; [auto | discriminate]. Qed.

Lemma parse_skips_orphans (lines : list str) :
  fold_left parse_step lines (mkParser [] false false) =
  fold_left parse_step (from_first_marker lines) (mkParser [] false false).
Proof.
  induction lines as [|line rest IH]; [reflexivity|].
  cbn [from_first_marker]. destruct (startswith line diff_git) eqn:Ed;
    [reflexivity|].
  cbn [fold_left]. unfold parse_step at 2. rewrite Ed. cbn. exact IH.
Qed.

(** X8: the parser loses nothing but the lines before the first file
    marker: rendering what it returns gives back, joined, every line from
    the first one that starts with "diff --git " on, in order; and those
    lines alone parse to the same files. *)
Theorem render_of_parse (lines : list str) (st st' st'' : state) :
  result (render_patch (result (parse_diff lines) st)) st' =
    join (from_first_marker lines) /\
  result (parse_diff (from_first_marker lines)) st'' =
    result (parse_diff lines) st.
Proof.
  rewrite render_patch_result, !parse_diff_result. unfold render, parse_files.
  split.
  - rewrite (parse_fold_lines lines parser_ok_init). reflexivity.
  - rewrite <- parse_skips_orphans. reflexivity.
Qed.

Lemma length_update_last {A} (g : A -> A) (l : list A) :
  length (update_last g l) = length l.
Proof.
  induction l as [|a l IH]; [reflexivity|].
  cbn [update_last]. destruct l; [reflexivity|].
  cbn [length] in *. rewrite IH. reflexivity.
Qed.

Lemma parse_step_file_count (p : parser) (line : str) :
  length (files (parse_step p line)) =
  length (files p) + length (marker_lines [line]).
Proof.
  unfold parse_step, marker_lines. cbn [filter].
  destruct (startswith line diff_git); cbn [files length].
  - rewrite length_app. reflexivity.
  - rewrite Nat.add_0_r.
    destruct (negb (current_file p)); [reflexivity|].
    destruct (startswith line hunk_marker);
      [|destruct (current_hunk p)]; apply length_update_last.
Qed.

Lemma parse_fold_file_count (lines : list str) :
  forall p,
    length (files (fold_left parse_step lines p)) =
    length (files p) + length (marker_lines lines).
Proof.
  induction lines as [|line rest IH]; intros p.
  - cbn. lia.
  - cbn [fold_left]. rewrite IH, parse_step_file_count.
    unfold marker_lines. cbn [filter].
    destruct (startswith line diff_git); cbn [length]; lia.
Qed.

Lemma parse_line_plan (lineno : nat) (line : str) (p : parser) (st : state) :
  exists e,
    snd (parse_line lineno line p st) =
    mkState (ACTION_PLAN st ++ [e]) (CURRENT_ITERATION st).
Proof.
  unfold parse_line.
  destruct (startswith line diff_git); [eexists; reflexivity|].
  destruct (negb (current_file p)); [eexists; reflexivity|].
  destruct (startswith line hunk_marker); [eexists; reflexivity|].
  destruct (current_hunk p); eexists; reflexivity.
Qed.

Lemma parse_loop_plan (lines : list str) :
  forall lineno p st,
  exists new,
    snd (parse_loop lineno lines p st) =
    mkState (ACTION_PLAN st ++ new) (CURRENT_ITERATION st) /\
    length new = length lines.
Proof.
  induction lines as [|line rest IH]; intros lineno p st.
  - exists []. rewrite app_nil_r. destruct st. split; reflexivity.
  - cbn [parse_loop]. unfold bind.
    destruct (parse_line_plan lineno line p st) as (e & E).
    destruct (parse_line lineno line p st) as [p' st1]. cbn [snd] in E.
    destruct (IH (S lineno) p' st1) as (new & E' & L).
    exists (e :: new). split; [|cbn; lia].
    rewrite E', E. cbn. rewrite <- app_assoc. reflexivity.
Qed.

(** X9: [parse_diff] returns as many files as there are lines that start
    with "diff --git ", and logs one event for every line it reads, then
    the summary with that number of files. *)
Theorem parse_diff_counts (lines : list str) (st : state) :
  length (result (parse_diff lines) st) = length (marker_lines lines) /\
  exists events,
    logged (parse_diff lines) st =
      events ++ [mkEntry "PARSE_SUMMARY" "parse" "Finished parsing patch"
                         (CURRENT_ITERATION st)
                         [("file_count", VInt (length (marker_lines lines)))]] /\
    length events = length lines.
Proof.
  split.
  - rewrite parse_diff_result. unfold parse_files.
    rewrite parse_fold_file_count. reflexivity.
  - unfold logged, parse_diff, bind.
    destruct (parse_loop_plan lines 1 (mkParser [] false false) st)
      as (new & E & L).
    pose proof (parse_loop_result lines 1 (mkParser [] false false) st) as R.
    unfold result in R.
    destruct (parse_loop 1 lines (mkParser [] false false) st) as [p st1].
    cbn [fst snd] in E, R. subst st1 p.
    exists new. split; [|exact L].
    unfold log, ret. cbn.
    rewrite <- app_assoc, skipn_length_app, parse_fold_file_count. reflexivity.
Qed.

(** ** basic_clean *)

Lemma find_preamble_index_spec (lines : list str) :
  forall i,
    match find_preamble_index i lines with
    | Some j =>
        i <= j /\ j - i < length lines /\
        skipn (j - i) lines = from_first_marker lines /\
        from_first_marker lines <> []
    | None => from_first_marker lines = []
    end.
Proof.
  induction lines as [|line rest IH]; intros i;
    cbn [find_preamble_index from_first_marker length].
  - reflexivity.
  - destruct (startswith line diff_git).
    + rewrite Nat.sub_diag. repeat split; [lia | lia | discriminate].
    + specialize (IH (S i)).
      destruct (find_preamble_index (S i) rest) as [j|]; [|exact IH].
      destruct IH as (H1 & H2 & H3 & H4).
      replace (j - i) with (S (j - S i)) by lia.
      repeat split; [lia | lia | exact H3 | exact H4].
Qed.

Lemma strip_preamble_from_first_marker (lines : list str) :
  strip_preamble lines = without_preamble lines.
Proof.
  unfold strip_preamble, without_preamble.
  pose proof (find_preamble_index_spec lines 0) as H.
  destruct (find_preamble_index 0 lines) as [j|].
  - destruct H as (_ & _ & H3 & H4). rewrite Nat.sub_0_r in H3.
    destruct j as [|j].
    + cbn in H3. rewrite <- H3.
      destruct lines; [exfalso; apply H4; reflexivity | reflexivity].
    + rewrite H3. destruct (from_first_marker lines); [congruence | reflexivity].
  - rewrite H. reflexivity.
Qed.

Lemma pop_loop_spec (rl : list str) :
  forall d,
  exists dropped,
    rl = dropped ++ fst (pop_loop rl d) /\
    forallb is_plus_blank dropped = true /\
    snd (pop_loop rl d) = d + length dropped /\
    is_plus_blank (hd [] (fst (pop_loop rl d))) = false.
Proof.
  induction rl as [|l rl IH]; intros d; cbn [pop_loop].
  - exists []. repeat split. cbn. lia.
  - destruct (is_plus_blank l) eqn:E.
    + destruct (IH (d + 1)) as (dr & H1 & H2 & H3 & H4).
      exists (l :: dr). repeat split.
      * cbn. congruence.
      * cbn. rewrite E, H2. reflexivity.
      * rewrite H3. cbn. lia.
      * exact H4.
    + exists []. repeat split; [cbn; lia | exact E].
Qed.

Lemma last_rev_hd {A} (l : list A) (d : A) : last (rev l) d = hd d l.
Proof.
  destruct l as [|a l]; [reflexivity|]. cbn [rev hd]. apply last_last.
Qed.

(** X10: [basic_clean] returns, normalized, the lines from the first one
    that starts with "diff --git " on (every line when there is none),
    without the longest run of final lines that are only a "+": what it
    returns never ends with such a line. *)
Theorem basic_clean_keeps (text : str) (st : state) :
  exists dropped,
    map normalize_line (without_preamble (splitlines text)) =
      result (basic_clean text) st ++ dropped /\
    forallb is_plus_blank dropped = true /\
    is_plus_blank (last (result (basic_clean text) st) []) = false.
Proof.
  rewrite basic_clean_result. unfold clean_lines, trim_input.
  rewrite strip_preamble_from_first_marker.
  set (cleaned := map normalize_line (without_preamble (splitlines text))).
  destruct (pop_loop_spec (rev cleaned) 0) as (dr & H1 & H2 & _ & H4).
  exists (rev dr). repeat split.
  - rewrite <- rev_app_distr, <- H1, rev_involutive. reflexivity.
  - rewrite forallb_forall in *. intros l Hl. apply H2, in_rev, Hl.
  - rewrite last_rev_hd. exact H4.
Qed.

Lemma trim_events_count (it : nat) (lines : list str) :
  forall lineno,
    count_code "WHITESPACE_TRIMMED" (trim_events it lineno lines) =
    trim_count lines.
Proof.
  unfold count_code.
  induction lines as [|line rest IH]; intros lineno; [reflexivity|].
  cbn [trim_events trim_count]. rewrite filter_app, length_app, IH.
  destruct (negb (str_eqb (rstrip line) line)); reflexivity.
Qed.

(** X11: the numbers [basic_clean] logs add up: the line count at the
    start is the lines removed as preamble (0 with the event "no
    preamble"), plus the final lines dropped, plus the line count at the
    end, which is the number of lines returned; and the trimming summary
    is the number of trimming events. *)
Theorem basic_clean_counts_add_up (text : str) (st : state) :
  exists removed trimmed dropped events,
    logged (basic_clean text) st =
      [mkEntry "BASIC_CLEAN_START" "basic_clean" "Starting basic_clean"
               (CURRENT_ITERATION st)
               [("line_count", VInt (length (splitlines text)))];
       (if removed =? 0 then
          mkEntry "PREAMBLE_NONE" "basic_clean"
                  "No preamble detected before first diff --git"
                  (CURRENT_ITERATION st) []
        else
          mkEntry "PREAMBLE_STRIPPED" "basic_clean"
                  "Stripped preamble before first diff --git"
                  (CURRENT_ITERATION st) [("removed_lines", VInt removed)])]
      ++ events ++
      [mkEntry "WHITESPACE_TRIM_SUMMARY" "basic_clean"
               "Trailing whitespace trimming summary" (CURRENT_ITERATION st)
               [("trimmed_lines", VInt trimmed)];
       mkEntry "EOF_PLUS_BLANK_DROPPED" "basic_clean"
               "Dropped trailing '+ blank' lines at EOF" (CURRENT_ITERATION st)
               [("dropped_lines", VInt dropped)];
       mkEntry "BASIC_CLEAN_END" "basic_clean" "Finished basic_clean"
               (CURRENT_ITERATION st)
               [("line_count", VInt (length (result (basic_clean text) st)))]] /\
    length (splitlines text) =
      removed + dropped + length (result (basic_clean text) st) /\
    trimmed = length events /\
    Forall is_trim_event events.
Proof.
  destruct st as [pl it]. unfold logged, result, basic_clean, bind.
  pose proof (find_preamble_index_spec (splitlines text) 0) as Hf.
  set (lines := splitlines text) in *.
  assert (Hev : forall n l, Forall is_trim_event (trim_events it n l) /\
                            trim_count l = length (trim_events it n l)).
  { intros n l. revert n. induction l as [|x l IH]; intros n; cbn.
    - split; [constructor | reflexivity].
    - destruct (IH (S n)) as [F E].
      destruct (negb (str_eqb (rstrip x) x)); cbn; [|auto].
      split; [constructor; [reflexivity | exact F] | congruence]. }
  destruct (find_preamble_index 0 lines) as [[|i]|];
    unfold bind, log, ret; cbn [fst snd ACTION_PLAN CURRENT_ITERATION];
    rewrite trim_loop_spec; cbn [fst snd ACTION_PLAN CURRENT_ITERATION app];
    match goal with
    | |- context [pop_loop (rev (map normalize_line ?l)) 0] =>
        destruct (pop_loop_spec (rev (map normalize_line l)) 0)
          as (dr & H1 & _ & H3 & _);
        destruct (pop_loop (rev (map normalize_line l)) 0) as [rl d] eqn:Ep;
        pose proof (f_equal (@length _) H1) as HL;
        rewrite length_rev, length_map, length_app in HL;
        destruct (Hev 1 l) as [F E]
    end;
    cbn [fst snd ACTION_PLAN CURRENT_ITERATION Nat.add] in *;
    rewrite <- !app_assoc, skipn_length_app; cbn [app].
  - exists 0, (trim_count lines), d, (trim_events it 1 lines).
    rewrite length_rev. repeat split; auto. lia.
  - destruct Hf as (_ & Hlt & _).
    exists (S i), (trim_count (skipn (S i) lines)), d,
           (trim_events it 1 (skipn (S i) lines)).
    rewrite length_rev. rewrite length_skipn in HL.
    repeat split; auto. lia.
  - exists 0, (trim_count lines), d, (trim_events it 1 lines).
    rewrite length_rev. repeat split; auto. lia.
Qed.

(** ** Blank lines after cleaning *)






(** ** filter_or_repair_files *)

Lemma validate_outcome_body (h : Hunk.t) (allow_repairs : bool) :
  Hunk.body (snd (validate_outcome h allow_repairs)) = Hunk.body h.
Proof.
  unfold validate_outcome.
  destruct (declared_spans (Hunk.header h)); [|reflexivity].
  destruct (spans_eqb _ _); [reflexivity|].
  destruct allow_repairs; reflexivity.
Qed.

Lemma valid_hunks_of_subseq (allow_repairs : bool) (hunks : list Hunk.t) :
  subseq (map Hunk.body (valid_hunks_of allow_repairs hunks))
         (map Hunk.body hunks).
Proof.
  induction hunks as [|h rest IH]; [constructor|].
  unfold valid_hunks_of. cbn [flat_map map].
  pose proof (validate_outcome_body h allow_repairs) as Hb.
  destruct (validate_outcome h allow_repairs) as [[|] h']; cbn [snd] in Hb.
  - cbn [app map]. rewrite Hb. apply subseq_take, IH.
  - apply subseq_skip, IH.
Qed.

(** X13: [filter_or_repair_files] keeps the order: the files it returns
    are files of its argument, in the same order, each with its header
    line and its other header lines as they were, with at least one hunk,
    and with hunks whose bodies are bodies of the hunks it had, in the
    same order; and files are judged one by one: the result for a list
    made of two parts is the two results, one after the other. *)
Theorem filter_keeps_order (file_diffs more : list FileDiff.t)
    (allow_repairs : bool) (st : state) :
  let kept := result (filter_or_repair_files file_diffs allow_repairs) st in
  subseq (map file_head kept) (map file_head file_diffs) /\
  Forall (fun f' =>
            FileDiff.hunks f' <> [] /\
            exists f, In f file_diffs /\ file_head f' = file_head f /\
                      subseq (map Hunk.body (FileDiff.hunks f'))
                             (map Hunk.body (FileDiff.hunks f))) kept /\
  result (filter_or_repair_files (file_diffs ++ more) allow_repairs) st =
    kept ++ result (filter_or_repair_files more allow_repairs) st.
Proof.
  cbv zeta. rewrite !filter_or_repair_files_result. unfold filter_files.
  split; [|split].
  - induction file_diffs as [|f rest IH]; [constructor|].
    cbn [flat_map map].
    destruct (valid_hunks_of allow_repairs (FileDiff.hunks f)).
    + apply subseq_skip, IH.
    + cbn [app map]. apply subseq_take, IH.
  - induction file_diffs as [|f rest IH]; [constructor|].
    cbn [flat_map].
    assert (IH' : Forall (fun f' =>
              FileDiff.hunks f' <> [] /\
              exists f0, In f0 (f :: rest) /\ file_head f' = file_head f0 /\
                         subseq (map Hunk.body (FileDiff.hunks f'))
                                (map Hunk.body (FileDiff.hunks f0)))
              (flat_map (fun file_diff =>
                 match valid_hunks_of allow_repairs (FileDiff.hunks file_diff) with
                 | [] => []
                 | h :: hs => [FileDiff.set_hunks (h :: hs) file_diff]
                 end) rest)).
    { eapply Forall_impl; [|exact IH].
      intros f' (H1 & f0 & H2 & H3). split; [exact H1|].
      exists f0. split; [right; exact H2 | exact H3]. }
    pose proof (valid_hunks_of_subseq allow_repairs (FileDiff.hunks f)) as Hs.
    destruct (valid_hunks_of allow_repairs (FileDiff.hunks f)) as [|h hs];
      [exact IH'|].
    cbn [app]. constructor; [|exact IH'].
    split; [discriminate|]. exists f. split; [left; reflexivity|].
    split; [reflexivity | exact Hs].
  - apply flat_map_app.
Qed.

Lemma validate_outcome_strict (h h' : Hunk.t) :
  validate_outcome h false = (true, h') ->
  h' = h /\ forall b, validate_outcome h b = (true, h).
Proof.
  unfold validate_outcome.
  destruct (declared_spans (Hunk.header h)); [|discriminate].
  destruct (spans_eqb _ _); [|discriminate].
  intros E. injection E as E <-. rewrite E. auto.
Qed.

Lemma valid_hunks_of_strict (hunks : list Hunk.t) :
  incl (valid_hunks_of false hunks) hunks /\
  forall b, valid_hunks_of b (valid_hunks_of false hunks) =
            valid_hunks_of false hunks.
Proof.
  induction hunks as [|h rest [IHi IHb]]; [split; [apply incl_nil_l | reflexivity]|].
  unfold valid_hunks_of. cbn [flat_map].
  destruct (validate_outcome h false) as [[|] h'] eqn:E.
  - destruct (@validate_outcome_strict h h' E) as [-> Hb]. cbn [app]. split.
    + apply incl_cons; [left; reflexivity | apply incl_tl, IHi].
    + intros b. cbn [flat_map]. rewrite Hb. cbn [app]. f_equal. apply IHb.
  - cbn [app]. split; [apply incl_tl, IHi | apply IHb].
Qed.

(** X14: with repairs disallowed [filter_or_repair_files] changes no
    hunk: every hunk it returns is a hunk of the file it comes from; and
    filtering its result again, with repairs allowed or not, returns the
    same files. *)
Theorem strict_filter_is_stable (file_diffs : list FileDiff.t)
    (allow_repairs : bool) (st st' : state) :
  let kept := result (filter_or_repair_files file_diffs false) st in
  Forall (fun f' =>
            exists f, In f file_diffs /\ file_head f' = file_head f /\
                      incl (FileDiff.hunks f') (FileDiff.hunks f)) kept /\
  result (filter_or_repair_files kept allow_repairs) st' = kept.
Proof.
  cbv zeta. rewrite !filter_or_repair_files_result. unfold filter_files.
  induction file_diffs as [|f rest [IH1 IH2]]; [split; [constructor | reflexivity]|].
  cbn [flat_map].
  assert (IH1' : Forall (fun f' =>
            exists f0, In f0 (f :: rest) /\ file_head f' = file_head f0 /\
                       incl (FileDiff.hunks f') (FileDiff.hunks f0))
            (flat_map (fun file_diff =>
               match valid_hunks_of false (FileDiff.hunks file_diff) with
               | [] => []
               | h :: hs => [FileDiff.set_hunks (h :: hs) file_diff]
               end) rest)).
  { eapply Forall_impl; [|exact IH1].
    intros f' (f0 & H2 & H3). exists f0. split; [right; exact H2 | exact H3]. }
  destruct (valid_hunks_of_strict (FileDiff.hunks f)) as [Hi Hb].
  destruct (valid_hunks_of false (FileDiff.hunks f)) as [|h hs] eqn:E;
    [split; assumption|].
  cbn [app]. split.
  - constructor; [|exact IH1'].
    exists f. split; [left; reflexivity|]. split; [reflexivity | exact Hi].
  - cbn [flat_map FileDiff.hunks FileDiff.set_hunks]. rewrite Hb.
    cbn [app]. f_equal. exact IH2.
Qed.

Lemma appends_weaken (P Q : entry -> Prop) {A} (m : M A) :
  (forall e, P e -> Q e) -> appends P m -> appends Q m.
Proof.
  intros H Hm st. destruct (Hm st) as (new & E & F).
  exists new. split; [exact E|]. eapply Forall_impl; eauto.
Qed.

(** Every event of the validator has a code that starts with "HUNK_". *)
Lemma appends_validate_hunk_codes (hunk : Hunk.t) (file_header : str)
    (allow_repairs : bool) :
  appends (fun e => String.prefix "HUNK_" (code e) = true)
          (validate_hunk hunk file_header allow_repairs).
Proof.
  unfold validate_hunk, _maybe_fix_span_header.
  destruct (re_match span_header_re (Hunk.header hunk)) as [[g n]|];
    [|appends_auto].
  destruct (_count_body_lines hunk) as [[[c r] a] u]. cbv zeta.
  appends_auto.
Qed.

Lemma count_code_app (c : string) (a b : list entry) :
  count_code c (a ++ b) = count_code c a + count_code c b.
Proof. unfold count_code. rewrite filter_app, length_app. reflexivity. Qed.

Lemma count_code_none (c : string) (l : list entry) :
  Forall (fun e => String.eqb (code e) c = false) l -> count_code c l = 0.
Proof.
  unfold count_code. induction 1 as [|e l He _ IH]; [reflexivity|].
  cbn [filter]. rewrite He. exact IH.
Qed.

Lemma files_loop_dropped (file_diffs : list FileDiff.t) (allow_repairs : bool) :
  forall acc st,
  exists new,
    ACTION_PLAN (snd (files_loop file_diffs allow_repairs acc st)) =
      ACTION_PLAN st ++ new /\
    CURRENT_ITERATION (snd (files_loop file_diffs allow_repairs acc st)) =
      CURRENT_ITERATION st /\
    count_code "FILE_DROPPED_NO_VALID_HUNKS" new +
    length (fst (files_loop file_diffs allow_repairs acc st)) =
    length acc + length file_diffs /\
    count_code "FILTER_FILES_SUMMARY" new = 0.
Proof.
  assert (Hh : forall hunks fh vh,
    appends (fun e => String.prefix "HUNK_" (code e) = true)
            (hunks_loop hunks fh allow_repairs vh)).
  { intros. apply appends_hunks_loop. intros. apply appends_validate_hunk_codes. }
  assert (Hit : forall hunks fh vh st,
    CURRENT_ITERATION (snd (hunks_loop hunks fh allow_repairs vh st)) =
    CURRENT_ITERATION st).
  { induction hunks as [|h rest IH]; intros fh vh st; [reflexivity|].
    cbn [hunks_loop]. unfold bind.
    assert (Hv : CURRENT_ITERATION (snd (validate_hunk h fh allow_repairs st)) =
                 CURRENT_ITERATION st).
    { destruct st as [pl it]. unfold validate_hunk, _maybe_fix_span_header.
      destruct (re_match span_header_re (Hunk.header h)) as [[g n]|];
        [|reflexivity].
      destruct (_count_body_lines h) as [[[c r] a] u].
      destruct (c + r =? int_of_digits (nth 1 g [])),
               (c + a =? int_of_digits (nth 3 g [])), u, allow_repairs;
        reflexivity. }
    destruct (validate_hunk h fh allow_repairs st) as [[ok h'] st1].
    rewrite IH. exact Hv. }
  induction file_diffs as [|f rest IH]; intros acc st.
  - exists []. cbn. rewrite app_nil_r. repeat split. unfold count_code. cbn. lia.
  - cbn [files_loop]. unfold bind.
    destruct (Hh (FileDiff.hunks f) (FileDiff.header f) [] st) as (n1 & E1 & F1).
    pose proof (Hit (FileDiff.hunks f) (FileDiff.header f) [] st) as I1.
    destruct (hunks_loop (FileDiff.hunks f) (FileDiff.header f) allow_repairs [] st)
      as [vh st1]. cbn [snd] in E1, I1.
    assert (C1 : count_code "FILE_DROPPED_NO_VALID_HUNKS" n1 = 0 /\
                 count_code "FILTER_FILES_SUMMARY" n1 = 0).
    { split; apply count_code_none; eapply Forall_impl; try exact F1;
        intros e He; cbv beta in He;
        destruct (String.eqb_spec (code e) "FILE_DROPPED_NO_VALID_HUNKS") as [X|];
        destruct (String.eqb_spec (code e) "FILTER_FILES_SUMMARY") as [Y|];
        try reflexivity; try (rewrite X in He; discriminate He);
        try (rewrite Y in He; discriminate He). }
    destruct C1 as [C1 C1'].
    destruct vh as [|h hs].
    + unfold log. cbn [fst snd].
      match goal with
      | |- context [files_loop rest allow_repairs acc ?s] =>
          destruct (IH acc s) as (n2 & E2 & I2 & L2 & S2)
      end.
      cbn [ACTION_PLAN CURRENT_ITERATION] in E2, I2.
      eexists (n1 ++ _ :: n2). split; [|split; [|split]].
      * rewrite E2, E1, <- !app_assoc. reflexivity.
      * rewrite I2. exact I1.
      * rewrite count_code_app, C1. unfold count_code at 1. cbn [filter].
        cbn [code String.eqb]. rewrite !Ascii.eqb_refl. cbn [length].
        fold (count_code "FILE_DROPPED_NO_VALID_HUNKS" n2). cbn [length]. lia.
      * rewrite count_code_app, C1'. unfold count_code. cbn [filter].
        cbn. exact S2.
    + destruct (IH (acc ++ [FileDiff.set_hunks (h :: hs) f]) st1)
        as (n2 & E2 & I2 & L2 & S2).
      exists (n1 ++ n2). split; [|split; [|split]].
      * rewrite E2, E1, app_assoc. reflexivity.
      * rewrite I2. exact I1.
      * rewrite count_code_app, C1. rewrite length_app in L2.
        cbn [length] in *. lia.
      * rewrite count_code_app, C1', S2. reflexivity.
Qed.

(** X15: [filter_or_repair_files] logs one "file dropped" event for each
    file it does not return, and ends with one summary that carries the
    number of files it returns. *)
Theorem filter_logs_every_dropped_file (file_diffs : list FileDiff.t)
    (allow_repairs : bool) (st : state) :
  let run := filter_or_repair_files file_diffs allow_repairs in
  count_code "FILE_DROPPED_NO_VALID_HUNKS" (logged run st) +
    length (result run st) = length file_diffs /\
  count_code "FILTER_FILES_SUMMARY" (logged run st) = 1 /\
  last (logged run st) (mkEntry "" "" "" 0 []) =
    mkEntry "FILTER_FILES_SUMMARY" "validate"
            "Finished validating/repairing hunks and filtering files"
            (CURRENT_ITERATION st)
            [("remaining_files", VInt (length (result run st)))].
Proof.
  cbv zeta. unfold logged, result, filter_or_repair_files, bind.
  destruct (files_loop_dropped file_diffs allow_repairs [] st)
    as (new & E & I & L & Hs).
  destruct (files_loop file_diffs allow_repairs [] st) as [r st1].
  cbn [fst snd] in *. unfold log, ret. cbn [fst snd ACTION_PLAN].
  rewrite E, I, <- app_assoc, skipn_length_app.
  rewrite !count_code_app, last_last, Hs.
  split; [|split; reflexivity].
  unfold count_code at 2. cbn. cbn [length] in L. lia.
Qed.

(** ** run_apply_once *)

Lemma run_apply_once_summary (git_apply_check : str -> bool * str)
    (original : str) (validate_with_git : bool) (st : state) :
  exists git_result,
    summary (snd (result (run_apply_once git_apply_check original
                                         validate_with_git) st)) =
    [("valid_files", VInt (length (retained_files original)));
     ("git_validation", git_result)].
Proof.
  rewrite retained_files_eq. unfold run_apply_once.
  rewrite result_bind.
  fold (result (basic_clean original) st). rewrite basic_clean_result.
  rewrite result_bind.
  match goal with
  | |- context [fst (parse_diff ?l ?s)] =>
      fold (result (parse_diff l) s); rewrite parse_diff_result
  end.
  rewrite result_bind.
  match goal with
  | |- context [fst (filter_or_repair_files ?l ?b ?s)] =>
      fold (result (filter_or_repair_files l b) s);
      rewrite filter_or_repair_files_result
  end.
  rewrite !result_bind. eexists. reflexivity.
Qed.

Lemma retained_files_wf (text : str) :
  Forall (fun f => wf_file f /\ FileDiff.hunks f <> [] /\
                   Forall (fun h => declared_spans (Hunk.header h) =
                                    Some (expected_spans h))
                          (FileDiff.hunks f))
         (retained_files text).
Proof.
  rewrite retained_files_eq.
  apply filter_files_retained, parse_files_wf, clean_lines_clean.
Qed.

Lemma marker_lines_app (a b : list str) :
  marker_lines (a ++ b) = marker_lines a ++ marker_lines b.
Proof. apply filter_app. Qed.

Lemma marker_lines_plain (ls : list str) :
  Forall (fun l => clean_line l /\ plain_line l) ls -> marker_lines ls = [].
Proof.
  induction ls as [|l ls IH]; intros H; [reflexivity|].
  apply Forall_cons_iff in H as [(_ & Hl & _) H].
  unfold marker_lines in *. cbn [filter]. rewrite Hl. apply IH, H.
Qed.

Lemma marker_lines_hunks (hs : list Hunk.t) :
  Forall wf_hunk hs -> marker_lines (flat_map hunk_lines hs) = [].
Proof.
  induction hs as [|h hs IH]; intros H; [reflexivity|].
  apply Forall_cons_iff in H as [(_ & H1 & _ & H3) H].
  cbn [flat_map]. rewrite marker_lines_app, IH by exact H.
  rewrite app_nil_r. unfold hunk_lines.
  change (Hunk.header h :: Hunk.body h) with ([Hunk.header h] ++ Hunk.body h).
  rewrite marker_lines_app, (marker_lines_plain H3), app_nil_r.
  unfold marker_lines. cbn [filter]. rewrite H1. reflexivity.
Qed.

Lemma marker_lines_file (f : FileDiff.t) :
  wf_file f -> marker_lines (file_lines f) = [FileDiff.header f].
Proof.
  intros (_ & Hd & Hh & Hw). unfold file_lines.
  change (FileDiff.header f :: FileDiff.headers f ++
            flat_map hunk_lines (FileDiff.hunks f))
    with ([FileDiff.header f] ++ FileDiff.headers f ++
            flat_map hunk_lines (FileDiff.hunks f)).
  rewrite !marker_lines_app, (marker_lines_plain Hh), (marker_lines_hunks Hw).
  unfold marker_lines. cbn [filter]. rewrite Hd. reflexivity.
Qed.

Lemma marker_lines_rendered (file_diffs : list FileDiff.t) :
  Forall wf_file file_diffs ->
  marker_lines (flat_map file_lines file_diffs) = map FileDiff.header file_diffs.
Proof.
  induction 1 as [|f fs Hf _ IH]; [reflexivity|].
  cbn [flat_map map]. rewrite marker_lines_app, IH.
  rewrite marker_lines_file by exact Hf. reflexivity.
Qed.

Lemma rendered_lines_clean (file_diffs : list FileDiff.t) :
  Forall wf_file file_diffs -> Forall clean_line (flat_map file_lines file_diffs).
Proof.
  intros H. apply Forall_forall. intros l Hl.
  apply in_flat_map in Hl as (f & Hf & Hl).
  rewrite Forall_forall in H.
  pose proof (file_lines_clean (H f Hf)) as Hfl.
  rewrite Forall_forall in Hfl. auto.
Qed.

Lemma startswith_app (s t prefix : str) :
  startswith s prefix = true -> startswith (s ++ t) prefix = true.
Proof.
  revert s. induction prefix as [|p prefix IH]; intros s H; [reflexivity|].
  destruct s as [|c s]; [discriminate H|]. cbn [startswith app] in *.
  apply andb_true_iff in H as [H1 H2]. rewrite H1, (IH _ H2). reflexivity.
Qed.

(** X16: the [valid_files] of the summary of [run_apply_once] is the
    number of lines of the written patch that start with "diff --git ";
    it is 0 exactly when the written patch is empty, and a patch that is
    not empty starts with "diff --git ". *)
Theorem run_apply_once_valid_files (git_apply_check : str -> bool * str)
    (original : str) (validate_with_git : bool) (st : state) :
  let run := run_apply_once git_apply_check original validate_with_git in
  let written := fst (result run st) in
  let valid_files := length (marker_lines (splitlines written)) in
  In ("valid_files", VInt valid_files) (summary (snd (result run st))) /\
  (valid_files = 0 <-> written = []) /\
  (written <> [] -> startswith written diff_git = true).
Proof.
  cbv zeta.
  destruct (run_apply_once_summary git_apply_check original validate_with_git st)
    as (g & ->).
  rewrite run_apply_once_result. unfold repair_pass.
  rewrite <- retained_files_eq.
  pose proof (retained_files_wf original) as Hw.
  assert (Hwf : Forall wf_file (retained_files original)).
  { eapply Forall_impl; [|exact Hw]. intros f Hf. apply Hf. }
  unfold render.
  rewrite splitlines_join by (apply rendered_lines_clean, Hwf).
  rewrite marker_lines_rendered by exact Hwf. rewrite length_map.
  split; [left; reflexivity|].
  destruct (retained_files original) as [|f fs].
  - split; [split; reflexivity | intros H; exfalso; apply H; reflexivity].
  - apply Forall_cons_iff in Hwf as [(Hc & Hd & _) _].
    destruct Hc as (x & Ex & _).
    unfold join. cbn [flat_map file_lines concat app length]. split.
    + split; [discriminate|]. rewrite Ex. intros E.
      destruct x; discriminate E.
    + intros _. apply startswith_app, Hd.
Qed.

(** ** The pass settles *)

Lemma strip_preamble_rendered (file_diffs : list FileDiff.t) :
  Forall wf_file file_diffs ->
  strip_preamble (flat_map file_lines file_diffs) = flat_map file_lines file_diffs.
Proof.
  intros H. destruct file_diffs as [|f rest]; [reflexivity|].
  apply Forall_cons_iff in H as [(_ & Hd & _) _].
  unfold strip_preamble. cbn [flat_map file_lines app find_preamble_index].
  rewrite Hd. reflexivity.
Qed.

Lemma clean_lines_rendered_trim (file_diffs : list FileDiff.t) :
  Forall wf_file file_diffs ->
  clean_lines (render file_diffs) =
  rev (fst (pop_loop (rev (flat_map file_lines file_diffs)) 0)).
Proof.
  intros H. pose proof (rendered_lines_clean H) as Hc.
  unfold clean_lines, trim_input, render.
  rewrite splitlines_join by exact Hc.
  rewrite strip_preamble_rendered by exact H.
  replace (map normalize_line (flat_map file_lines file_diffs))
    with (flat_map file_lines file_diffs); [reflexivity|].
  rewrite <- (map_id (flat_map file_lines file_diffs)) at 1.
  apply map_ext_in. intros l Hl. symmetry. apply normalize_clean_line.
  rewrite Forall_forall in Hc. auto.
Qed.

Lemma pop_loop_app (x : list str) (y0 : str) (y : list str) :
  is_plus_blank y0 = false ->
  forall d, fst (pop_loop (x ++ y0 :: y) d) = fst (pop_loop x d) ++ y0 :: y.
Proof.
  intros Hy. induction x as [|l x IH]; intros d; cbn [app pop_loop].
  - rewrite Hy. reflexivity.
  - destruct (is_plus_blank l); [apply IH | reflexivity].
Qed.

Lemma trim_after_header (before : list str) (header : str) (body : list str) :
  is_plus_blank header = false ->
  rev (fst (pop_loop (rev (before ++ header :: body)) 0)) =
  before ++ header :: trim_body body.
Proof.
  intros Hh. rewrite rev_app_distr. cbn [rev]. rewrite <- !app_assoc.
  cbn [app]. rewrite pop_loop_app by exact Hh.
  rewrite rev_app_distr. cbn [rev]. rewrite rev_involutive, <- !app_assoc.
  reflexivity.
Qed.

Lemma rendered_trim (file_diffs : list FileDiff.t) :
  Forall (fun f => wf_file f /\ FileDiff.hunks f <> []) file_diffs ->
  rev (fst (pop_loop (rev (flat_map file_lines file_diffs)) 0)) =
  flat_map file_lines (trim_files file_diffs).
Proof.
  intros H. destruct file_diffs as [|f0 rest] using rev_ind; [reflexivity|].
  clear IHrest. apply Forall_app in H as [_ H].
  apply Forall_cons_iff in H as [((_ & _ & _ & Hw) & Hne) _].
  unfold trim_files. rewrite update_last_snoc, !flat_map_snoc.
  destruct (exists_last Hne) as (hs & h & E).
  unfold file_lines, FileDiff.set_hunks. cbn [FileDiff.header FileDiff.headers
                                               FileDiff.hunks].
  rewrite E, update_last_snoc, !flat_map_snoc. unfold hunk_lines.
  cbn [Hunk.header Hunk.body].
  rewrite E in Hw. apply Forall_app in Hw as [_ Hw].
  apply Forall_cons_iff in Hw as [(_ & _ & Hm & _) _].
  rewrite !app_comm_cons, !app_assoc.
  rewrite trim_after_header by (apply hunk_header_not_plus_blank, Hm).
  reflexivity.
Qed.

Lemma plus_blank_is_unexpected (l : str) :
  is_plus_blank l = true -> classify l = Unexpected.
Proof.
  intros H. destruct (classify l) eqn:E; try reflexivity; exfalso;
    assert (Hn : classify l <> Unexpected) by (rewrite E; discriminate);
    apply expected_line_not_plus_blank in Hn; congruence.
Qed.

Lemma count_kind_app (k : kind) (a b : list str) :
  count_kind k (a ++ b) = count_kind k a + count_kind k b.
Proof. unfold count_kind. rewrite filter_app, length_app. reflexivity. Qed.

Lemma count_kind_plus_blank (k : kind) (dropped : list str) :
  forallb is_plus_blank dropped = true -> k <> Unexpected ->
  count_kind k dropped = 0.
Proof.
  intros H Hk. induction dropped as [|l ls IH]; [reflexivity|].
  cbn [forallb] in H. apply andb_true_iff in H as [Hl H].
  rewrite count_kind_cons, (plus_blank_is_unexpected _ Hl), (IH H).
  destruct k; try reflexivity. congruence.
Qed.

Lemma trim_body_split (body : list str) :
  exists dropped, body = trim_body body ++ dropped /\
                  forallb is_plus_blank dropped = true.
Proof.
  unfold trim_body.
  destruct (pop_loop_spec (rev body) 0) as (dr & H1 & H2 & _).
  exists (rev dr). split.
  - rewrite <- rev_app_distr, <- H1, rev_involutive. reflexivity.
  - rewrite forallb_forall in *. intros l Hl. apply H2, in_rev, Hl.
Qed.

Lemma trim_hunk_keeps (h : Hunk.t) :
  wf_hunk h /\ consistent_hunk h ->
  wf_hunk (Hunk.mk (Hunk.header h) (trim_body (Hunk.body h))) /\
  consistent_hunk (Hunk.mk (Hunk.header h) (trim_body (Hunk.body h))).
Proof.
  intros [(H1 & H2 & H3 & H4) Hc].
  destruct (trim_body_split (Hunk.body h)) as (dr & E & Hdr).
  split.
  - repeat split; auto. cbn [Hunk.body].
    rewrite E in H4. apply Forall_app in H4. apply H4.
  - unfold consistent_hunk in *. cbn [Hunk.header]. rewrite Hc. f_equal.
    rewrite !expected_spans_classify. cbn [Hunk.body]. rewrite E at 1 2 3 4.
    rewrite !count_kind_app.
    rewrite !(count_kind_plus_blank _ Hdr) by discriminate.
    rewrite !Nat.add_0_r. reflexivity.
Qed.

Lemma update_last_not_nil {A} (g : A -> A) (l : list A) :
  l <> [] -> update_last g l <> [].
Proof.
  intros H E. apply (f_equal (@length _)) in E.
  rewrite length_update_last in E. destruct l; [congruence | discriminate E].
Qed.

Lemma trim_files_keeps (file_diffs : list FileDiff.t) :
  Forall (fun f => wf_file f /\ FileDiff.hunks f <> [] /\
                   Forall consistent_hunk (FileDiff.hunks f)) file_diffs ->
  Forall (fun f => wf_file f /\ Forall consistent_hunk (FileDiff.hunks f))
         (trim_files file_diffs).
Proof.
  intros H. unfold trim_files.
  assert (H' : Forall (fun f => wf_file f /\
                                Forall consistent_hunk (FileDiff.hunks f))
                      file_diffs).
  { eapply Forall_impl; [|exact H]. intros f (A & _ & B). auto. }
  apply update_last_Forall; [|exact H'].
  intros f ((G1 & G2 & G3 & G4) & Hc).
  assert (Hb : Forall (fun h => wf_hunk h /\ consistent_hunk h)
                 (update_last
                    (fun h => Hunk.mk (Hunk.header h) (trim_body (Hunk.body h)))
                    (FileDiff.hunks f))).
  { apply update_last_Forall; [intros h; apply trim_hunk_keeps|].
    rewrite Forall_forall in *. auto. }
  cbn [FileDiff.set_hunks FileDiff.hunks]. split.
  - repeat split; auto. cbn [FileDiff.hunks].
    eapply Forall_impl; [|exact Hb]. intros h Hh. apply Hh.
  - eapply Forall_impl; [|exact Hb]. intros h Hh. apply Hh.
Qed.

Lemma valid_hunks_of_consistent (hunks : list Hunk.t) :
  Forall (fun h => wf_hunk h /\ consistent_hunk h) hunks ->
  Forall (fun h => wf_hunk h /\ settled_hunk h) (valid_hunks_of true hunks).
Proof.
  induction hunks as [|h rest IH]; intros H; [constructor|].
  apply Forall_cons_iff in H as [[Hw Hc] H].
  unfold valid_hunks_of. cbn [flat_map]. unfold validate_outcome.
  unfold consistent_hunk in Hc. rewrite Hc.
  assert (E : spans_eqb (expected_spans h) (expected_spans h) = true)
    by (apply spans_eqb_eq; reflexivity).
  rewrite E. destruct (has_unexpected h) eqn:Hu; cbn [negb app].
  - apply IH, H.
  - constructor; [|apply IH, H]. split; [exact Hw|]. split; assumption.
Qed.

Lemma filter_files_consistent (file_diffs : list FileDiff.t) :
  Forall (fun f => wf_file f /\ Forall consistent_hunk (FileDiff.hunks f))
         file_diffs ->
  Forall (fun f => wf_file f /\ FileDiff.hunks f <> [] /\
                   Forall settled_hunk (FileDiff.hunks f))
         (filter_files true file_diffs).
Proof.
  induction file_diffs as [|f rest IH]; intros H; [constructor|].
  apply Forall_cons_iff in H as [((G1 & G2 & G3 & G4) & Hc) H].
  unfold filter_files. cbn [flat_map].
  assert (Hb : Forall (fun h => wf_hunk h /\ consistent_hunk h) (FileDiff.hunks f))
    by (rewrite Forall_forall in *; auto).
  apply valid_hunks_of_consistent in Hb.
  destruct (valid_hunks_of true (FileDiff.hunks f)) as [|h hs];
    [apply IH, H|].
  cbn [app]. constructor; [|apply IH, H].
  cbn [FileDiff.set_hunks FileDiff.hunks]. split; [|split].
  - repeat split; auto. cbn [FileDiff.hunks].
    eapply Forall_impl; [|exact Hb]. intros a Ha. apply Ha.
  - discriminate.
  - eapply Forall_impl; [|exact Hb]. intros a Ha. apply Ha.
Qed.

Lemma settled_files_fixed (file_diffs : list FileDiff.t) :
  Forall (fun f => wf_file f /\ FileDiff.hunks f <> [] /\
                   Forall settled_hunk (FileDiff.hunks f)) file_diffs ->
  repair_pass (render file_diffs) = render file_diffs.
Proof.
  intros H. unfold repair_pass. rewrite clean_lines_rendered.
  - rewrite parse_rendered.
    + rewrite filter_files_settled; [reflexivity|].
      eapply Forall_impl; [|exact H]. intros f (_ & A & B). auto.
    + eapply Forall_impl; [|exact H]. intros f Hf. apply Hf.
  - eapply Forall_impl; [|exact H]. intros f (A & B & C).
    split; [exact A|]. split; [exact B|].
    eapply Forall_impl; [|exact C]. intros h Hh. apply Hh.
Qed.

(** The second pass retains files whose hunks are all settled. *)
Lemma second_pass_settled (text : str) :
  exists file_diffs,
    repair_pass (repair_pass text) = render file_diffs /\
    Forall (fun f => wf_file f /\ FileDiff.hunks f <> [] /\
                     Forall settled_hunk (FileDiff.hunks f)) file_diffs.
Proof.
  pose proof (retained_files_wf text) as Hr. rewrite retained_files_eq in Hr.
  set (first := filter_files true (parse_files (clean_lines text))) in *.
  assert (Hw : Forall wf_file first)
    by (eapply Forall_impl; [|exact Hr]; intros f Hf; apply Hf).
  assert (Hn : Forall (fun f => wf_file f /\ FileDiff.hunks f <> []) first)
    by (eapply Forall_impl; [|exact Hr]; intros f (A & B & _); auto).
  pose proof (trim_files_keeps Hr) as Ht.
  exists (filter_files true (trim_files first)). split.
  - unfold repair_pass at 1. fold first. unfold repair_pass.
    rewrite clean_lines_rendered_trim by exact Hw.
    rewrite rendered_trim by exact Hn.
    rewrite parse_rendered; [reflexivity|].
    eapply Forall_impl; [|exact Ht]. intros f Hf. apply Hf.
  - apply filter_files_consistent, Ht.
Qed.

(** X17: the repair pass settles after two runs: the patch
    [run_apply_once] writes when it is given its own output is written
    again, unchanged, by every further run. *)
Theorem repair_pass_settles_after_two_runs
    (git_apply_check : str -> bool * str) (text : str)
    (v1 v2 v3 : bool) (st1 st2 st3 : state) :
  let first := fst (result (run_apply_once git_apply_check text v1) st1) in
  let second := fst (result (run_apply_once git_apply_check first v2) st2) in
  fst (result (run_apply_once git_apply_check second v3) st3) = second.
Proof.
  cbv zeta. rewrite !run_apply_once_result.
  destruct (second_pass_settled text) as (fs & -> & H).
  apply settled_files_fixed, H.
Qed.

(** ** run_iterative *)

Lemma repair_pass_iter_settled (original : str) (n : nat) :
  2 <= n ->
  repair_pass (Nat.iter n repair_pass original) = Nat.iter n repair_pass original.
Proof.
  intros H. destruct n as [|[|n]]; [lia | lia|]. rewrite !Nat.iter_succ.
  destruct (second_pass_settled (Nat.iter n repair_pass original)) as (fs & -> & Hs).
  apply settled_files_fixed, Hs.
Qed.

Section IterativeRounds.

Variable git_apply_check : str -> bool * str.

(** One round of the loop. *)
Lemma iterative_loop_round (i : nat) (rest : list nat)
    (validate_with_git : bool) (v : Iter.vars) (st : state) :
  exists g st',
    (validate_with_git = false -> g = Iter.git_result v) /\
    result (iterative_loop git_apply_check (i :: rest) validate_with_git v) st =
    let new := repair_pass (Iter.patch_text v) in
    if option_str_eqb (Iter.last_patch_text v) new then
      Iter.mk new g (Iter.last_patch_text v) (Some i)
    else if option_str_eqb g (lit "ok") then
      Iter.mk new g (Iter.last_patch_text v) (Some i)
    else
      result (iterative_loop git_apply_check rest validate_with_git
                (Iter.mk new g (Some new) (Some i))) st'.
Proof.
  cbn [iterative_loop]. rewrite !result_bind.
  match goal with
  | |- context [fst (basic_clean ?t ?s)] =>
      fold (result (basic_clean t) s); rewrite basic_clean_result
  end.
  match goal with
  | |- context [fst (parse_diff ?l ?s)] =>
      fold (result (parse_diff l) s); rewrite parse_diff_result
  end.
  match goal with
  | |- context [fst (filter_or_repair_files ?l ?b ?s)] =>
      fold (result (filter_or_repair_files l b) s);
      rewrite filter_or_repair_files_result
  end.
  match goal with
  | |- context [fst (render_patch ?l ?s)] =>
      fold (result (render_patch l) s); rewrite render_patch_result
  end.
  fold (repair_pass (Iter.patch_text v)).
  destruct validate_with_git.
  - eexists _, _. split; [discriminate|]. cbv zeta.
    destruct (option_str_eqb (Iter.last_patch_text v)
                             (repair_pass (Iter.patch_text v)));
      [rewrite result_bind; reflexivity|].
    match goal with
    | |- context [if option_str_eqb ?g (lit "ok") then _ else _] =>
        destruct (option_str_eqb g (lit "ok"))
    end; rewrite result_bind; reflexivity.
  - eexists _, _. split; [reflexivity|]. cbv zeta. cbn [ret fst snd].
    destruct (option_str_eqb (Iter.last_patch_text v)
                             (repair_pass (Iter.patch_text v)));
      [rewrite result_bind; reflexivity|].
    destruct (option_str_eqb (Iter.git_result v) (lit "ok"));
      rewrite result_bind; reflexivity.
Qed.

Lemma iterative_loop_spec (original : str) (validate_with_git : bool) (k : nat) :
  forall i v st,
    Iter.patch_text v = Nat.iter i repair_pass original ->
    Iter.last_patch_text v =
      (if i =? 0 then None else Some (Nat.iter i repair_pass original)) ->
    (validate_with_git = false -> Iter.git_result v = None) ->
    exists j,
      i <= j <= i + k /\ j <= Nat.max i 2 /\
      let v' := result (iterative_loop git_apply_check (seq i (S k))
                                       validate_with_git v) st in
      Iter.iteration v' = Some j /\
      Iter.patch_text v' = Nat.iter (S j) repair_pass original /\
      (validate_with_git = false -> j < i + k ->
       repair_pass (Iter.patch_text v') = Iter.patch_text v').
Proof.
  induction k as [|k IH]; intros i v st Hp Hl Hg.
  - cbn [seq].
    destruct (iterative_loop_round i [] validate_with_git v st)
      as (g & st' & _ & ->).
    cbv zeta. exists i. rewrite Hp. change (repair_pass (Nat.iter i repair_pass original))
      with (Nat.iter (S i) repair_pass original).
    split; [lia|]. split; [lia|].
    destruct (option_str_eqb _ _); [|destruct (option_str_eqb _ _)];
      cbn; repeat split; intros; lia.
  - change (seq i (S (S k))) with (i :: seq (S i) (S k)).
    destruct (iterative_loop_round i (seq (S i) (S k)) validate_with_git v st)
      as (g & st' & Hgv & ->).
    cbv zeta. rewrite Hp.
    change (repair_pass (Nat.iter i repair_pass original))
      with (Nat.iter (S i) repair_pass original).
    destruct (option_str_eqb (Iter.last_patch_text v)
                             (Nat.iter (S i) repair_pass original)) eqn:E1.
    { exists i. cbn [Iter.iteration Iter.patch_text].
      split; [lia|]. split; [lia|]. repeat split.
      intros _ _. rewrite Hl in E1. destruct (i =? 0); [discriminate E1|].
      cbn [option_str_eqb] in E1. apply str_eqb_eq in E1.
      rewrite Nat.iter_succ. rewrite <- E1 at 1. reflexivity. }
    destruct (option_str_eqb g (lit "ok")) eqn:E2.
    { exists i. cbn [Iter.iteration Iter.patch_text].
      split; [lia|]. split; [lia|]. repeat split.
      intros Hv _. rewrite (Hgv Hv), (Hg Hv) in E2. discriminate E2. }
    assert (Hi : i < 2).
    { destruct (Nat.lt_ge_cases i 2) as [H|H]; [exact H|]. exfalso.
      rewrite Hl in E1. destruct i as [|i]; [lia|]. cbn [Nat.eqb] in E1.
      cbn [option_str_eqb] in E1.
      change (Nat.iter (S (S i)) repair_pass original)
        with (repair_pass (Nat.iter (S i) repair_pass original)) in E1.
      rewrite repair_pass_iter_settled in E1 by lia.
      rewrite str_eqb_refl in E1. discriminate E1. }
    destruct (IH (S i)
                 (Iter.mk (Nat.iter (S i) repair_pass original) g
                          (Some (Nat.iter (S i) repair_pass original)) (Some i))
                 st') as (j & Hj1 & Hj2 & Hj3 & Hj4 & Hj5).
    + reflexivity.
    + reflexivity.
    + intros Hv. cbn. rewrite (Hgv Hv). apply Hg, Hv.
    + exists j. split; [lia|]. split; [lia|]. cbv zeta in *.
      split; [exact Hj3|]. split; [exact Hj4|].
      intros Hv Hlt. apply Hj5; [exact Hv | lia].
Qed.

(** X18: with a cap of at least 1, [run_iterative] returns a plan; its
    [iterations_run] is at least 1, at most the cap and at most 3; the
    patch it saves is the output of that many repair passes, each on the
    output of the one before, starting from the input.  Without the
    oracle, when it stops before the cap the saved patch is one that a
    further pass writes again unchanged. *)
Theorem run_iterative_rounds (original : str) (validate_with_git : bool)
    (max_iterations : Z) (st : state) :
  (1 <= max_iterations)%Z ->
  let run := run_iterative git_apply_check original validate_with_git
                           max_iterations in
  exists p iterations_run,
    snd (result run st) = Returns p /\
    In ("iterations_run", VInt iterations_run) (summary p) /\
    1 <= iterations_run <= 3 /\
    (Z.of_nat iterations_run <= max_iterations)%Z /\
    fst (result run st) =
      Nat.iter iterations_run (written_by_pass git_apply_check) original /\
    (validate_with_git = false ->
     (Z.of_nat iterations_run < max_iterations)%Z ->
     written_by_pass git_apply_check (fst (result run st)) = fst (result run st)).
Proof.
  intros Hmax. cbv zeta. unfold run_iterative. rewrite result_bind.
  destruct (Z.to_nat max_iterations) as [|k] eqn:Ek; [lia|].
  destruct (@iterative_loop_spec original validate_with_git k 0
              (Iter.mk original None None None) st)
    as (j & Hj1 & Hj2 & Hj3 & Hj4 & Hj5); try reflexivity.
  cbv zeta in Hj3, Hj4, Hj5. unfold result in Hj3, Hj4, Hj5.
  rewrite Hj3. rewrite !result_bind. cbn [fst snd ret].
  assert (Hw : forall n t, Nat.iter n (written_by_pass git_apply_check) t =
                           Nat.iter n repair_pass t).
  { induction n as [|n IHn]; intros t; [reflexivity|]. rewrite !Nat.iter_succ.
    rewrite IHn. unfold written_by_pass. apply run_apply_once_result. }
  eexists _, (j + 1). split; [reflexivity|]. split; [left; reflexivity|].
  split; [lia|]. split; [lia|].
  rewrite Hj4, Hw. replace (j + 1) with (S j) by lia.
  split; [reflexivity|].
  intros Hv Hlt. unfold written_by_pass. rewrite run_apply_once_result.
  rewrite <- Hj4. apply Hj5; [exact Hv | lia].
Qed.

End IterativeRounds.

Lemma run_iterative_rounds_witness :
  exists p,
    snd (result (run_iterative git_always_ok salvaged_patch false 5) st0) =
    Returns p.
Proof.
  destruct (@run_iterative_rounds git_always_ok salvaged_patch false 5 st0)
    as (p & k & H & _).
  - lia.
  - exists p. exact H.
Defined.

(** ** The order of body lines *)

Lemma count_kind_Permutation (k : kind) (a b : list str) :
  Permutation a b -> count_kind k a = count_kind k b.
Proof.
  induction 1 as [|x a b _ IH|x y a|a b c _ IH1 _ IH2].
  - reflexivity.
  - rewrite !count_kind_cons, IH. reflexivity.
  - rewrite !count_kind_cons. lia.
  - congruence.
Qed.

(** X19: [validate_hunk] looks at how many lines of each kind a body has,
    not at their order: two hunks with the same header whose bodies are
    permutations of each other are both accepted or both rejected, and
    are left with the same header. *)
Theorem validate_hunk_ignores_line_order (h1 h2 : Hunk.t)
    (file_header1 file_header2 : str) (allow_repairs : bool) (st1 st2 : state) :
  Hunk.header h1 = Hunk.header h2 ->
  Permutation (Hunk.body h1) (Hunk.body h2) ->
  let r1 := result (validate_hunk h1 file_header1 allow_repairs) st1 in
  let r2 := result (validate_hunk h2 file_header2 allow_repairs) st2 in
  fst r1 = fst r2 /\ Hunk.header (snd r1) = Hunk.header (snd r2).
Proof.
  intros Hh Hp. cbv zeta. rewrite !validate_hunk_result.
  assert (He : expected_spans h1 = expected_spans h2).
  { rewrite !expected_spans_classify.
    rewrite !(count_kind_Permutation _ Hp). reflexivity. }
  assert (Hu : has_unexpected h1 = has_unexpected h2).
  { rewrite !has_unexpected_classify.
    rewrite (count_kind_Permutation _ Hp). reflexivity. }
  unfold validate_outcome, repaired_header. rewrite Hh, He, Hu.
  destruct (declared_spans (Hunk.header h2)); [|split; [reflexivity | exact Hh]].
  destruct (spans_eqb _ _); [split; [reflexivity | exact Hh]|].
  destruct allow_repairs; split; try reflexivity. exact Hh.
Qed.

Lemma validate_hunk_ignores_line_order_witness :
  fst (result (validate_hunk scenario_hunk_reordered scenario_file_header true) st0) =
  fst (result (validate_hunk scenario_hunk scenario_file_header true) st0).
Proof.
  apply (@validate_hunk_ignores_line_order
           scenario_hunk_reordered scenario_hunk
           scenario_file_header scenario_file_header true st0 st0).
  - reflexivity.
  - unfold scenario_hunk_reordered, scenario_hunk. cbn [Hunk.body].
    eapply perm_trans; [apply perm_swap | apply perm_skip, perm_swap].
Defined.

(** ** render_patch *)

(** X20: for the files a pass retains, the number of lines that
    [render_patch] logs is the number of lines it joined: one for each
    file, each of its other header lines, each hunk header and each body
    line. *)
Theorem render_logs_line_count (text : str) (st : state) :
  logged (render_patch (retained_files text)) st =
  [mkEntry "RENDER_SUMMARY" "render" "Rendered patch text from FileDiffs"
           (CURRENT_ITERATION st)
           [("rendered_lines",
             VInt (length (flat_map file_lines (retained_files text))))]].
Proof.
  unfold logged, render_patch, bind, log, ret. cbn [fst snd ACTION_PLAN].
  rewrite skipn_length_app.
  rewrite splitlines_join; [reflexivity|].
  apply rendered_lines_clean.
  pose proof (retained_files_wf text) as H.
  eapply Forall_impl; [|exact H]. intros f Hf. apply Hf.
Qed.

(** ** What the stages hand on *)

(** X21: the lines [basic_clean] returns, joined and split again, are the
    same lines: each holds one line boundary, its final "\n". *)
Theorem cleaned_lines_split_again (text : str) (st : state) :
  splitlines (join (result (basic_clean text) st)) = result (basic_clean text) st.
Proof.
  rewrite basic_clean_result. apply splitlines_join, clean_lines_clean.
Qed.

(** X22: the document [parse_diff] builds from the lines of [basic_clean]
    is well formed: the header of each file starts with "diff --git ",
    the header of each hunk starts with "@@ " and not with "diff --git ",
    no other header line and no body line starts with either, and every
    line is a cleaned line. *)
Theorem parsed_document_well_formed (text : str) (st st' : state) :
  Forall wf_file (result (parse_diff (result (basic_clean text) st)) st').
Proof.
  rewrite parse_diff_result, basic_clean_result.
  apply parse_files_wf, clean_lines_clean.
Qed.

Lemma validate_outcome_consistent (h h' : Hunk.t) (allow_repairs : bool) :
  validate_outcome h allow_repairs = (true, h') ->
  consistent_hunk h' /\
  (allow_repairs = false -> has_unexpected h' = false /\ h' = h).
Proof.
  unfold validate_outcome, consistent_hunk.
  destruct (declared_spans (Hunk.header h)) as [declared|] eqn:E;
    [|discriminate].
  destruct (spans_eqb (expected_spans h) declared) eqn:Es.
  - intros H. injection H as Hu <-. apply spans_eqb_eq in Es. subst declared.
    split; [exact E|]. intros _. split; [|reflexivity].
    destruct (has_unexpected h); [discriminate Hu | reflexivity].
  - destruct allow_repairs; [|discriminate].
    intros H. injection H as <-. split; [|discriminate].
    unfold declared_spans, re_match in E.
    destruct (rmatch span_header_re (Hunk.header h)) as [[g n]|] eqn:Hm;
      [|discriminate].
    change (expected_spans (Hunk.set_header (repaired_header h) h))
      with (expected_spans h).
    cbn [Hunk.header Hunk.set_header]. unfold repaired_header.
    erewrite re_sub_at_match by exact Hm.
    rewrite declared_spans_span_header_text.
    destruct (expected_spans h); reflexivity.
Qed.

(** X23: whatever files it is given, every hunk [filter_or_repair_files]
    returns has a header that declares exactly the spans counted in its
    body, and every file it returns has a hunk; with repairs disallowed no
    returned hunk has an unexpected line. *)
Theorem filter_returns_consistent_hunks (file_diffs : list FileDiff.t)
    (allow_repairs : bool) (st : state) :
  Forall (fun f =>
            FileDiff.hunks f <> [] /\
            Forall (fun h => consistent_hunk h /\
                             (allow_repairs = false -> has_unexpected h = false))
                   (FileDiff.hunks f))
         (result (filter_or_repair_files file_diffs allow_repairs) st).
Proof.
  rewrite filter_or_repair_files_result. unfold filter_files.
  assert (Hv : forall hunks,
    Forall (fun h => consistent_hunk h /\
                     (allow_repairs = false -> has_unexpected h = false))
           (valid_hunks_of allow_repairs hunks)).
  { induction hunks as [|h rest IH]; [constructor|].
    unfold valid_hunks_of. cbn [flat_map].
    destruct (validate_outcome h allow_repairs) as [[|] h'] eqn:E;
      [|exact IH].
    cbn [app]. constructor; [|exact IH].
    destruct (@validate_outcome_consistent h h' allow_repairs E) as [Hc Hs].
    split; [exact Hc|]. intros Ha. apply (Hs Ha). }
  induction file_diffs as [|f rest IH]; [constructor|].
  cbn [flat_map]. specialize (Hv (FileDiff.hunks f)).
  destruct (valid_hunks_of allow_repairs (FileDiff.hunks f)) as [|h hs];
    [exact IH|].
  cbn [app]. constructor; [|exact IH].
  cbn [FileDiff.set_hunks FileDiff.hunks]. split; [discriminate | exact Hv].
Qed.
